(** * cache_engine: a shallow embedding of the policy-composed cache

    The development follows the layout of [inc/cache_engine]:

    - [SizeT], [exception], [result]: the C++ vocabulary the headers rely on
      ([std::size_t] arithmetic, the exception classes of
      [policies/policy_interfaces.hpp]);
    - the four policy interfaces of [policies/policy_interfaces.hpp] as type
      classes;
    - the capacity, storage, access and eviction policies of
      [policies/*.hpp], one module per C++ class;
    - the cache facade [policy_based_cache] and the legacy template
      specialisations of [cache.hpp];
    - the properties of the specification, one theorem per property. *)

From stdpp Require Import sorting numbers strings gmap fin_maps list.


(** ** [std::size_t]

    A [std::size_t] is a 64-bit unsigned integer.  Values are kept in [Z] and
    every arithmetic operation of the source is followed by its reduction
    modulo [2^64]. *)
Module SizeT.
Local Open Scope Z_scope.

Definition modulus : Z := 2 ^ 64.
Definition max : Z := modulus - 1.

Definition wrap (z : Z) : Z := z mod modulus.
Definition add (a b : Z) : Z := wrap (a + b).
Definition sub (a b : Z) : Z := wrap (a - b).
Definition mul (a b : Z) : Z := wrap (a * b).

(** The values a [std::size_t] variable can hold. *)
Definition in_range (z : Z) : Prop := 0 ≤ z < modulus.

(** [container.size()] *)
Definition of_nat (n : nat) : Z := wrap (Z.of_nat n).
End SizeT.

(** ** Exceptions

    [policy_error] and [cache_error] derive from [std::runtime_error]
    (policy_interfaces.hpp, lines 300-313); [std::out_of_range] derives from
    [std::logic_error].  A handler [catch (const std::runtime_error&)]
    therefore catches the first three and lets the last one through. *)
Inductive exception :=
  | out_of_range (what : string)
  | runtime_error (what : string)
  | policy_error (p_message : string)
  | cache_error (p_message : string).

Definition is_runtime_error (e : exception) : bool :=
  match e with
  | out_of_range _ => false
  | runtime_error _ | policy_error _ | cache_error _ => true
  end.

Definition is_policy_error (e : exception) : bool :=
  match e with
  | policy_error _ => true
  | _ => false
  end.

(** [what()] of an exception object. *)
Definition what (e : exception) : string :=
  match e with
  | out_of_range w | runtime_error w => w
  | policy_error m => "Policy Error: " +:+ m
  | cache_error m => "Cache Error: " +:+ m
  end.

(** The outcome of a call that either returns or throws. *)
Inductive result (A : Type) :=
  | Ok (a : A)
  | Throw (e : exception).
Arguments Ok {A} a.
Arguments Throw {A} e.

Definition is_ok {A} (r : result A) : bool :=
  match r with Ok _ => true | Throw _ => false end.

(** ** The policy interfaces (policies/policy_interfaces.hpp)

    Each abstract base class becomes a type class over the type of the
    object's state.  A member function that may write to the object returns
    the new state next to its result; this includes the [const] members that
    update [mutable] fields. *)

(** [eviction_policy_base]: [select_victim] may throw and, for FIFO, pops
    its queue. *)
Class EvictionPolicy (K E : Type) := {
  ev_on_access : K → E → E;
  ev_on_insert : K → E → E;
  ev_on_update : K → E → E;
  ev_select_victim : E → result K * E;
  ev_remove_key : K → E → E;
  ev_empty : E → bool;
  ev_size : E → Z;
  ev_clear : E → E
}.

(** [storage_policy_base]: [find] returns a pointer to the stored value,
    which the facade only dereferences; it is modelled by the value. *)
Class StoragePolicy (K V S : Type) := {
  st_insert : K → V → S → bool * S;
  st_find : K → S → option V * S;
  st_erase : K → S → bool * S;
  st_contains : K → S → bool * S;
  st_size : S → Z;
  st_empty : S → bool;
  st_clear : S → S
}.

(** [access_policy_base]: every implementation in access_policies.hpp
    discards the reference to the eviction policy it receives
    ([static_cast<void>(p_eviction_policy)]), so the reference is not
    threaded through. *)
Class AccessPolicy (K A : Type) := {
  ac_on_access : K → A → bool * A;
  ac_on_miss : K → A → bool * A
}.

(** [capacity_policy_base] *)
Class CapacityPolicy (C : Type) := {
  cp_capacity : C → Z;
  cp_set_capacity : Z → C → C;
  cp_needs_eviction : Z → C → bool * C;
  cp_eviction_count : Z → C → Z
}.

(** ** What the facade relies on from a storage policy

    [st_contents] is the [std::unordered_map] a storage policy holds (for
    the debug policy, the one its wrapped policy holds); the laws say that
    the members of the policy act on it as the members of the map do. *)
Class StorageContents (K V SP : Type) `{Countable K} :=
  st_contents : SP → gmap K V.
Arguments st_contents {K V SP _ _ _} s.

Class StorageLaws (K V SP : Type) `{Countable K}
    `{!StoragePolicy K V SP, !StorageContents K V SP} := {
  st_insert_new k v s :
    (st_insert k v s).1 = bool_decide (st_contents s !! k = None);
  st_insert_contents k v s :
    st_contents (st_insert k v s).2 = <[k := v]> (st_contents s);
  st_find_value k s : (st_find k s).1 = st_contents s !! k;
  st_find_contents k s : st_contents (st_find k s).2 = st_contents s;
  st_erase_found k s :
    (st_erase k s).1 = bool_decide (is_Some (st_contents s !! k));
  st_erase_contents k s :
    st_contents (st_erase k s).2 = delete k (st_contents s);
  st_contains_found k s :
    (st_contains k s).1 = bool_decide (is_Some (st_contents s !! k));
  st_contains_contents k s : st_contents (st_contains k s).2 = st_contents s;
  st_size_contents s : st_size s = SizeT.of_nat (size (st_contents s));
  st_empty_contents s : st_empty s = bool_decide (st_contents s = ∅);
  st_clear_contents s : st_contents (st_clear s) = ∅
}.

(** ** What the facade relies on from an eviction policy

    [ev_tracked] is the set of keys a policy tracks and [ev_wf] the
    agreement between the containers it is made of (invariants 3 to 5 of
    section 3 of the specification).  A victim is selected among the
    tracked keys and is no longer tracked once [remove_key] has been called
    for it; the policy may be left in an intermediate state between the two
    calls (FIFO has popped the victim from its queue by then).  A key is
    inserted while fewer than [SIZE_MAX] keys are tracked. *)
Class EvictionModel (K EP : Type) `{Countable K} := {
  ev_wf : EP → Prop;
  ev_tracked : EP → gset K
}.

Class EvictionLaws (K EP : Type) `{Countable K}
    `{!EvictionPolicy K EP, !EvictionModel K EP} := {
  ev_on_insert_spec k e :
    ev_wf e → k ∉ ev_tracked e →
    (Z.of_nat (size (ev_tracked e)) < SizeT.max)%Z →
    ev_wf (ev_on_insert k e) ∧ ev_tracked (ev_on_insert k e) = {[k]} ∪ ev_tracked e;
  ev_on_access_spec k e :
    ev_wf e →
    ev_wf (ev_on_access k e) ∧ ev_tracked (ev_on_access k e) = ev_tracked e;
  ev_on_update_spec k e :
    ev_wf e →
    ev_wf (ev_on_update k e) ∧ ev_tracked (ev_on_update k e) = ev_tracked e;
  ev_remove_key_spec k e :
    ev_wf e →
    ev_wf (ev_remove_key k e)
    ∧ ev_tracked (ev_remove_key k e) = ev_tracked e ∖ {[k]};
  ev_clear_spec e :
    ev_wf (ev_clear e) ∧ ev_tracked (ev_clear e) = ∅;
  ev_select_victim_spec e :
    ev_wf e →
    match ev_select_victim e with
    | (Ok victim, e') =>
        victim ∈ ev_tracked e
        ∧ ev_wf (ev_remove_key victim e')
        ∧ ev_tracked (ev_remove_key victim e') = ev_tracked e ∖ {[victim]}
    | (Throw ex, e') =>
        ev_tracked e = ∅ ∧ is_runtime_error ex = true
        ∧ ev_wf e' ∧ ev_tracked e' = ∅
    end
}.

(** ** Capacity policies (policies/capacity_policies.hpp) *)

Module fixed_capacity_policy.
Local Open Scope Z_scope.

Record t := { m_capacity : Z }.

Definition default_capacity : Z := 100.

Definition make (p_capacity : Z) : t := {| m_capacity := p_capacity |}.

Definition capacity (p : t) : Z := m_capacity p.

Definition set_capacity (p_new_capacity : Z) (p : t) : t :=
  {| m_capacity := p_new_capacity |}.

Definition needs_eviction (p_current_size : Z) (p : t) : bool :=
  bool_decide (m_capacity p ≤ p_current_size).

Definition eviction_count (p_current_size : Z) (p : t) : Z :=
  if bool_decide (m_capacity p ≤ p_current_size)
  then SizeT.add (SizeT.sub p_current_size (m_capacity p)) 1
  else 0.

#[global] Instance policy : CapacityPolicy t := {
  cp_capacity := capacity;
  cp_set_capacity := set_capacity;
  cp_needs_eviction s p := (needs_eviction s p, p);
  cp_eviction_count := eviction_count
}.
End fixed_capacity_policy.

Module soft_capacity_policy.
Local Open Scope Z_scope.

(** [m_overage_tolerance] is a [double]; the only use the class makes of
    it is the product
    [static_cast<std::size_t>(static_cast<double>(c) * (1.0 + tolerance))],
    which is kept as the function [scaled] from a capacity to the hard
    maximum it yields. *)
Record t := {
  m_target_capacity : Z;
  m_max_capacity : Z;
  m_overage_tolerance : Z → Z
}.

Definition make (p_target_capacity : Z) (scaled : Z → Z) : t :=
  {| m_target_capacity := p_target_capacity;
     m_max_capacity := scaled p_target_capacity;
     m_overage_tolerance := scaled |}.

Definition capacity (p : t) : Z := m_target_capacity p.

Definition set_capacity (p_new_capacity : Z) (p : t) : t :=
  {| m_target_capacity := p_new_capacity;
     m_max_capacity := m_overage_tolerance p p_new_capacity;
     m_overage_tolerance := m_overage_tolerance p |}.

Definition needs_eviction (p_current_size : Z) (p : t) : bool :=
  bool_decide (m_max_capacity p ≤ p_current_size).

Definition eviction_count (p_current_size : Z) (p : t) : Z :=
  if bool_decide (m_max_capacity p ≤ p_current_size)
  then SizeT.add (SizeT.sub p_current_size (m_target_capacity p)) 1
  else if bool_decide (m_target_capacity p < p_current_size)
  then 1
  else 0.

Definition max_capacity (p : t) : Z := m_max_capacity p.

Definition is_over_target (p_current_size : Z) (p : t) : bool :=
  bool_decide (m_target_capacity p < p_current_size).

#[global] Instance policy : CapacityPolicy t := {
  cp_capacity := capacity;
  cp_set_capacity := set_capacity;
  cp_needs_eviction s p := (needs_eviction s p, p);
  cp_eviction_count := eviction_count
}.

(** The contract of section 4.5 of the specification, for a policy whose
    size invariant is [size ≤ m]: [k] victims are enough when removing
    them and inserting one element leaves at most [m] elements, and [k]
    is the minimum when no smaller count is enough. *)
Definition enough (m s k : Z) : Prop := 0 ≤ k ∧ s - k + 1 ≤ m.

Definition minimum_eviction_count (m s k : Z) : Prop :=
  enough m s k ∧ ∀ k', enough m s k' → k ≤ k'.

(** The least number of victims that restores [size ≤ m]. *)
Definition least_enough (m s : Z) : Z := Z.max 0 (s + 1 - m).

(** Tolerance 0.5 on a target of 10: the product [10.0 * 1.5] is exact. *)
Definition half_again (c : Z) : Z := c * 3 / 2.
Definition burst : t := make 10 half_again.

(** A policy whose hard maximum is the product [scaled] of its target, is
    not below the target and leaves room for one entry. *)
Definition sound (scaled : Z → Z) (p : t) : Prop :=
  m_overage_tolerance p = scaled
  ∧ 0 ≤ m_target_capacity p ≤ m_max_capacity p
  ∧ 1 ≤ m_max_capacity p < SizeT.max.

(** The targets [set_capacity] can be given without breaking [sound]. *)
Definition admissible (scaled : Z → Z) (n : Z) : Prop :=
  0 ≤ n ≤ scaled n ∧ 1 ≤ scaled n < SizeT.max.
End soft_capacity_policy.

Module dynamic_capacity_policy.
Local Open Scope Z_scope.

(** The growth and shrink factors are [double]s that only
    [consider_capacity_adjustment] and [set_growth_parameters] read; those
    two members are outside [capacity_policy_base] and are left out. *)
Record t := {
  m_base_capacity : Z;
  m_current_capacity : Z;
  m_min_capacity : Z;
  m_max_capacity : Z;
  m_adjustment_counter : Z;
  m_adjustment_interval : Z
}.

Definition default_min_capacity : Z := 10.
Definition default_max_capacity : Z := 1000.
Definition default_adjustment_interval : Z := 100.

Definition make (p_base_capacity : Z) : t :=
  {| m_base_capacity := p_base_capacity;
     m_current_capacity := p_base_capacity;
     m_min_capacity := default_min_capacity;
     m_max_capacity := default_max_capacity;
     m_adjustment_counter := 0;
     m_adjustment_interval := default_adjustment_interval |}.

Definition capacity (p : t) : Z := m_current_capacity p.

Definition set_capacity (p_new_capacity : Z) (p : t) : t :=
  {| m_base_capacity := p_new_capacity;
     m_current_capacity :=
       Z.max (m_min_capacity p) (Z.min p_new_capacity (m_max_capacity p));
     m_min_capacity := m_min_capacity p;
     m_max_capacity := m_max_capacity p;
     m_adjustment_counter := m_adjustment_counter p;
     m_adjustment_interval := m_adjustment_interval p |}.

Definition needs_eviction (p_current_size : Z) (p : t) : bool :=
  bool_decide (m_current_capacity p ≤ p_current_size).

Definition eviction_count (p_current_size : Z) (p : t) : Z :=
  if bool_decide (m_current_capacity p ≤ p_current_size)
  then SizeT.add (SizeT.sub p_current_size (m_current_capacity p)) 1
  else 0.

Definition set_capacity_bounds (p_min_capacity p_max_capacity : Z) (p : t) : t :=
  let min_capacity := Z.max 1 p_min_capacity in
  let max_capacity := Z.max min_capacity p_max_capacity in
  {| m_base_capacity := m_base_capacity p;
     m_current_capacity :=
       Z.max min_capacity (Z.min (m_current_capacity p) max_capacity);
     m_min_capacity := min_capacity;
     m_max_capacity := max_capacity;
     m_adjustment_counter := m_adjustment_counter p;
     m_adjustment_interval := m_adjustment_interval p |}.

#[global] Instance policy : CapacityPolicy t := {
  cp_capacity := capacity;
  cp_set_capacity := set_capacity;
  cp_needs_eviction s p := (needs_eviction s p, p);
  cp_eviction_count := eviction_count
}.

(** The current capacity lies between the two bounds, and the lower bound
    is at least one: what [set_capacity_bounds] establishes. *)
Definition bounded (p : t) : Prop :=
  1 ≤ m_min_capacity p ≤ m_current_capacity p
  ∧ m_current_capacity p ≤ m_max_capacity p < SizeT.max.
End dynamic_capacity_policy.

Module memory_capacity_policy.
Local Open Scope Z_scope.

Record t := {
  m_memory_limit : Z;
  m_current_memory_usage : Z;
  m_item_size_estimate : Z
}.

Definition make (p_memory_limit p_item_size_estimate : Z) : t :=
  {| m_memory_limit := p_memory_limit;
     m_current_memory_usage := 0;
     m_item_size_estimate := p_item_size_estimate |}.

Definition capacity (p : t) : Z :=
  if bool_decide (0 < m_item_size_estimate p)
  then m_memory_limit p / m_item_size_estimate p
  else 0.

Definition set_capacity (p_new_capacity : Z) (p : t) : t :=
  {| m_memory_limit := SizeT.mul p_new_capacity (m_item_size_estimate p);
     m_current_memory_usage := m_current_memory_usage p;
     m_item_size_estimate := m_item_size_estimate p |}.

(** A [const] member that writes the [mutable] usage estimate. *)
Definition needs_eviction (p_current_size : Z) (p : t) : bool * t :=
  let usage := SizeT.mul p_current_size (m_item_size_estimate p) in
  (bool_decide (m_memory_limit p ≤ usage),
   {| m_memory_limit := m_memory_limit p;
      m_current_memory_usage := usage;
      m_item_size_estimate := m_item_size_estimate p |}).

(** The ceiling division divides by [m_item_size_estimate]; with an
    estimate of zero the C++ division is undefined and [Z.div] yields 0. *)
Definition eviction_count (p_current_size : Z) (p : t) : Z :=
  let estimated_usage := SizeT.mul p_current_size (m_item_size_estimate p) in
  if bool_decide (m_memory_limit p ≤ estimated_usage)
  then
    let excess_memory :=
      SizeT.add (SizeT.sub estimated_usage (m_memory_limit p))
                (m_item_size_estimate p) in
    SizeT.sub (SizeT.add excess_memory (m_item_size_estimate p)) 1
      / m_item_size_estimate p
  else 0.

#[global] Instance policy : CapacityPolicy t := {
  cp_capacity := capacity;
  cp_set_capacity := set_capacity;
  cp_needs_eviction := needs_eviction;
  cp_eviction_count := eviction_count
}.

Definition set_memory_limit (p_memory_limit : Z) (p : t) : t :=
  {| m_memory_limit := p_memory_limit;
     m_current_memory_usage := m_current_memory_usage p;
     m_item_size_estimate := m_item_size_estimate p |}.

Definition set_item_size_estimate (p_item_size : Z) (p : t) : t :=
  {| m_memory_limit := m_memory_limit p;
     m_current_memory_usage := m_current_memory_usage p;
     m_item_size_estimate := Z.max 1 p_item_size |}.

(** An estimate of [item_size] bytes and a budget, neither of them zero,
    that are small enough for the products the policy forms to stay below
    [2^64]. *)
Definition budgeted (item_size : Z) (p : t) : Prop :=
  m_item_size_estimate p = item_size
  ∧ 1 ≤ item_size
  ∧ 1 ≤ m_memory_limit p
  ∧ m_memory_limit p + 3 * item_size ≤ SizeT.modulus.

(** The capacities [set_capacity] can be given without breaking
    [budgeted]. *)
Definition affordable (item_size n : Z) : Prop :=
  1 ≤ n ∧ n * item_size + 3 * item_size ≤ SizeT.modulus.

(** The number of entries the budget has room for, rounded up. *)
Definition entries_within_budget (p : t) : Z :=
  (m_memory_limit p + m_item_size_estimate p - 1) / m_item_size_estimate p.

(** The greatest size for which the usage of that many entries and of two
    more is computed without wrap-around. *)
Definition ceiling (item_size : Z) : Z := SizeT.modulus / item_size - 2.
End memory_capacity_policy.

(** ** Storage policies (policies/storage_policies.hpp)

    Every storage policy keeps its entries in a [std::unordered_map], here a
    [gmap].  [reserve], [rehash] and [max_load_factor] change the bucket
    array of the hash table and not its contents; they have no counterpart
    in the model. *)

Module hash_storage_policy.
Section policy.
Context {K V : Type} `{Countable K}.

Record t := { m_storage : gmap K V }.

Definition make : t := {| m_storage := ∅ |}.

Definition insert (p_key : K) (p_value : V) (p : t) : bool * t :=
  let is_new_key := bool_decide (m_storage p !! p_key = None) in
  (is_new_key, {| m_storage := <[p_key := p_value]> (m_storage p) |}).

Definition find (p_key : K) (p : t) : option V := m_storage p !! p_key.

Definition erase (p_key : K) (p : t) : bool * t :=
  (bool_decide (is_Some (m_storage p !! p_key)),
   {| m_storage := delete p_key (m_storage p) |}).

Definition contains (p_key : K) (p : t) : bool :=
  bool_decide (is_Some (m_storage p !! p_key)).

Definition size (p : t) : Z := SizeT.of_nat (base.size (m_storage p)).

Definition empty (p : t) : bool := bool_decide (m_storage p = ∅).

Definition clear (p : t) : t := {| m_storage := ∅ |}.

#[global] Instance policy : StoragePolicy K V t := {
  st_insert := insert;
  st_find k p := (find k p, p);
  st_erase := erase;
  st_contains k p := (contains k p, p);
  st_size := size;
  st_empty := empty;
  st_clear := clear
}.

#[global] Instance contents : StorageContents K V t := m_storage.
End policy.
Arguments t K V {_ _}.
End hash_storage_policy.

Module reserved_hash_storage_policy.
Section policy.
Context {K V : Type} `{Countable K}.

Record t := { m_storage : gmap K V; m_reserved_capacity : Z }.

Definition make (p_capacity : Z) : t :=
  {| m_storage := ∅; m_reserved_capacity := p_capacity |}.

Definition insert (p_key : K) (p_value : V) (p : t) : bool * t :=
  let is_new_key := bool_decide (m_storage p !! p_key = None) in
  (is_new_key,
   {| m_storage := <[p_key := p_value]> (m_storage p);
      m_reserved_capacity := m_reserved_capacity p |}).

Definition find (p_key : K) (p : t) : option V := m_storage p !! p_key.

Definition erase (p_key : K) (p : t) : bool * t :=
  (bool_decide (is_Some (m_storage p !! p_key)),
   {| m_storage := delete p_key (m_storage p);
      m_reserved_capacity := m_reserved_capacity p |}).

Definition contains (p_key : K) (p : t) : bool :=
  bool_decide (is_Some (m_storage p !! p_key)).

Definition size (p : t) : Z := SizeT.of_nat (base.size (m_storage p)).

Definition empty (p : t) : bool := bool_decide (m_storage p = ∅).

Definition clear (p : t) : t :=
  {| m_storage := ∅; m_reserved_capacity := m_reserved_capacity p |}.

#[global] Instance policy : StoragePolicy K V t := {
  st_insert := insert;
  st_find k p := (find k p, p);
  st_erase := erase;
  st_contains k p := (contains k p, p);
  st_size := size;
  st_empty := empty;
  st_clear := clear
}.

#[global] Instance contents : StorageContents K V t := m_storage.
End policy.
Arguments t K V {_ _}.
End reserved_hash_storage_policy.

Module compact_storage_policy.
Section policy.
Context {K V : Type} `{Countable K}.

Record t := { m_storage : gmap K V }.

Definition make : t := {| m_storage := ∅ |}.

Definition insert (p_key : K) (p_value : V) (p : t) : bool * t :=
  let is_new_key := bool_decide (m_storage p !! p_key = None) in
  (is_new_key, {| m_storage := <[p_key := p_value]> (m_storage p) |}).

Definition find (p_key : K) (p : t) : option V := m_storage p !! p_key.

(** The rehash that follows the erasure leaves the contents as they are. *)
Definition erase (p_key : K) (p : t) : bool * t :=
  let was_erased := bool_decide (is_Some (m_storage p !! p_key)) in
  (was_erased, {| m_storage := delete p_key (m_storage p) |}).

Definition contains (p_key : K) (p : t) : bool :=
  bool_decide (is_Some (m_storage p !! p_key)).

Definition size (p : t) : Z := SizeT.of_nat (base.size (m_storage p)).

Definition empty (p : t) : bool := bool_decide (m_storage p = ∅).

Definition clear (p : t) : t := {| m_storage := ∅ |}.

#[global] Instance policy : StoragePolicy K V t := {
  st_insert := insert;
  st_find k p := (find k p, p);
  st_erase := erase;
  st_contains k p := (contains k p, p);
  st_size := size;
  st_empty := empty;
  st_clear := clear
}.

#[global] Instance contents : StorageContents K V t := m_storage.
End policy.
Arguments t K V {_ _}.
End compact_storage_policy.

Module debug_storage_policy.
Section policy.
Context {K V W : Type} `{Countable K}
  `{!StoragePolicy K V W, !StorageContents K V W}.

(** The counters are [mutable]: the [const] members [find] and [contains]
    write them. *)
Record t := {
  m_wrapped_policy : W;
  m_operation_count : Z;
  m_hit_count : Z;
  m_miss_count : Z
}.

Definition make (wrapped : W) : t :=
  {| m_wrapped_policy := wrapped;
     m_operation_count := 0; m_hit_count := 0; m_miss_count := 0 |}.

Definition count_operation (p : t) : t :=
  {| m_wrapped_policy := m_wrapped_policy p;
     m_operation_count := SizeT.add (m_operation_count p) 1;
     m_hit_count := m_hit_count p;
     m_miss_count := m_miss_count p |}.

Definition count_lookup (hit : bool) (w : W) (p : t) : t :=
  {| m_wrapped_policy := w;
     m_operation_count := m_operation_count p;
     m_hit_count := if hit then SizeT.add (m_hit_count p) 1 else m_hit_count p;
     m_miss_count :=
       if hit then m_miss_count p else SizeT.add (m_miss_count p) 1 |}.

Definition with_wrapped (w : W) (p : t) : t :=
  {| m_wrapped_policy := w;
     m_operation_count := m_operation_count p;
     m_hit_count := m_hit_count p;
     m_miss_count := m_miss_count p |}.

Definition insert (p_key : K) (p_value : V) (p : t) : bool * t :=
  let p := count_operation p in
  let '(is_new_key, w) := st_insert p_key p_value (m_wrapped_policy p) in
  (is_new_key, with_wrapped w p).

Definition find (p_key : K) (p : t) : option V * t :=
  let p := count_operation p in
  let '(p_result, w) := st_find p_key (m_wrapped_policy p) in
  (p_result, count_lookup (bool_decide (is_Some p_result)) w p).

Definition erase (p_key : K) (p : t) : bool * t :=
  let p := count_operation p in
  let '(was_erased, w) := st_erase p_key (m_wrapped_policy p) in
  (was_erased, with_wrapped w p).

Definition contains (p_key : K) (p : t) : bool * t :=
  let p := count_operation p in
  let '(result, w) := st_contains p_key (m_wrapped_policy p) in
  (result, count_lookup result w p).

Definition size (p : t) : Z := st_size (m_wrapped_policy p).

Definition empty (p : t) : bool := st_empty (m_wrapped_policy p).

Definition clear (p : t) : t :=
  let p := count_operation p in
  with_wrapped (st_clear (m_wrapped_policy p)) p.

#[global] Instance policy : StoragePolicy K V t := {
  st_insert := insert;
  st_find := find;
  st_erase := erase;
  st_contains := contains;
  st_size := size;
  st_empty := empty;
  st_clear := clear
}.

#[global] Instance contents : StorageContents K V t :=
  λ p, st_contents (m_wrapped_policy p).

Definition reset_statistics (p : t) : t :=
  {| m_wrapped_policy := m_wrapped_policy p;
     m_operation_count := 0; m_hit_count := 0; m_miss_count := 0 |}.
End policy.
Arguments t W : clear implicits.
End debug_storage_policy.

(** The calls a client makes on a [storage_policy_base], and the object
    each of them leaves behind. *)
Inductive storage_call (K V : Type) :=
  | Insert (p_key : K) (p_value : V)
  | Find (p_key : K)
  | EraseKey (p_key : K)
  | ContainsKey (p_key : K)
  | StorageSize
  | StorageEmpty
  | ClearStorage.
Arguments Insert {K V} p_key p_value.
Arguments Find {K V} p_key.
Arguments EraseKey {K V} p_key.
Arguments ContainsKey {K V} p_key.
Arguments StorageSize {K V}.
Arguments StorageEmpty {K V}.
Arguments ClearStorage {K V}.

Definition apply_storage_call {K V S : Type} `{StoragePolicy K V S}
    (c : storage_call K V) (s : S) : S :=
  match c with
  | Insert k v => (st_insert k v s).2
  | Find k => (st_find k s).2
  | EraseKey k => (st_erase k s).2
  | ContainsKey k => (st_contains k s).2
  | StorageSize | StorageEmpty => s
  | ClearStorage => st_clear s
  end.

(** The calls the debug policy counts as operations, and those it counts as
    lookups. *)
Definition is_operation {K V : Type} (c : storage_call K V) : bool :=
  match c with
  | StorageSize | StorageEmpty => false
  | _ => true
  end.

Definition is_lookup {K V : Type} (c : storage_call K V) : bool :=
  match c with
  | Find _ | ContainsKey _ => true
  | _ => false
  end.

(** ** Access policies (policies/access_policies.hpp) *)

Module update_on_access_policy.
Section policy.
Context {K : Type}.

(** The class has no data members. *)
Inductive t : Type := make.
Definition on_access (p_key : K) (p : t) : bool := true.
Definition on_miss (p_key : K) (p : t) : bool := true.

#[global] Instance policy : AccessPolicy K t := {
  ac_on_access k p := (on_access k p, p);
  ac_on_miss k p := (on_miss k p, p)
}.
End policy.
End update_on_access_policy.

Module no_update_on_access_policy.
Section policy.
Context {K : Type}.

(** The class has no data members. *)
Inductive t : Type := make.
Definition on_access (p_key : K) (p : t) : bool := false.
Definition on_miss (p_key : K) (p : t) : bool := true.

#[global] Instance policy : AccessPolicy K t := {
  ac_on_access k p := (on_access k p, p);
  ac_on_miss k p := (on_miss k p, p)
}.
End policy.
End no_update_on_access_policy.

Module threshold_access_policy.
Section policy.
Context {K : Type} `{Countable K}.
Local Open Scope Z_scope.

Record t := { m_access_counts : gmap K Z; m_threshold : Z }.

Definition make (p_threshold : Z) : t :=
  {| m_access_counts := ∅; m_threshold := p_threshold |}.

(** [++m_access_counts[p_key]]: [operator[]] value-initialises a missing
    counter to zero. *)
Definition on_access (p_key : K) (p : t) : bool * t :=
  let count := SizeT.add (default 0 (m_access_counts p !! p_key)) 1 in
  (bool_decide (m_threshold p ≤ count),
   {| m_access_counts := <[p_key := count]> (m_access_counts p);
      m_threshold := m_threshold p |}).

Definition on_miss (p_key : K) (p : t) : bool := true.

#[global] Instance policy : AccessPolicy K t := {
  ac_on_access := on_access;
  ac_on_miss k p := (on_miss k p, p)
}.

Definition set_threshold (p_threshold : Z) (p : t) : t :=
  {| m_access_counts := m_access_counts p; m_threshold := p_threshold |}.

Definition threshold (p : t) : Z := m_threshold p.

Definition access_count (p_key : K) (p : t) : Z :=
  default 0 (m_access_counts p !! p_key).

Definition clear_access_counts (p : t) : t :=
  {| m_access_counts := ∅; m_threshold := m_threshold p |}.
End policy.
Arguments t K {_ _}.
End threshold_access_policy.

Module time_decay_access_policy.
Section policy.
Context {K : Type} `{Countable K}.
Local Open Scope Z_scope.

Record t := {
  m_last_access_time : gmap K Z;
  m_current_time : Z;
  m_decay_interval : Z
}.

Definition default_decay_interval : Z := 100.

Definition make (p_decay_interval : Z) : t :=
  {| m_last_access_time := ∅;
     m_current_time := 0;
     m_decay_interval := p_decay_interval |}.

Definition apply_decay (p : t) : t :=
  let twice := SizeT.mul (m_decay_interval p) 2 in
  let cutoff_time :=
    if bool_decide (twice < m_current_time p)
    then SizeT.sub (m_current_time p) twice
    else 0 in
  {| m_last_access_time :=
       filter (λ entry, ¬ (entry.2 < cutoff_time)) (m_last_access_time p);
     m_current_time := m_current_time p;
     m_decay_interval := m_decay_interval p |}.

(** The constructor accepts an interval of zero (only
    [set_decay_interval] raises it to one), and
    [m_current_time % m_decay_interval] is then undefined: [on_access]
    returns [None].  With a member that is partial the policy is not an
    instance of [AccessPolicy], whose members are total. *)
Definition on_access (p_key : K) (p : t) : option (bool * t) :=
  let now := SizeT.add (m_current_time p) 1 in
  let p :=
    {| m_last_access_time := <[p_key := now]> (m_last_access_time p);
       m_current_time := now;
       m_decay_interval := m_decay_interval p |} in
  if bool_decide (m_decay_interval p = 0) then None
  else
    Some (true,
          if bool_decide (now mod m_decay_interval p = 0)
          then apply_decay p else p).

Definition on_miss (p_key : K) (p : t) : bool * t :=
  (true,
   {| m_last_access_time := m_last_access_time p;
      m_current_time := SizeT.add (m_current_time p) 1;
      m_decay_interval := m_decay_interval p |}).

Definition set_decay_interval (p_interval : Z) (p : t) : t :=
  {| m_last_access_time := m_last_access_time p;
     m_current_time := m_current_time p;
     m_decay_interval := if bool_decide (0 < p_interval) then p_interval else 1 |}.

Definition current_time (p : t) : Z := m_current_time p.

Definition last_access_time (p_key : K) (p : t) : Z :=
  default 0 (m_last_access_time p !! p_key).
End policy.
Arguments t K {_ _}.
End time_decay_access_policy.

(** ** [std::list] with iterators

    The eviction policies keep [std::list<key_t>::iterator]s in a map next
    to the list they point into.  An iterator denotes a list node; a node is
    identified by the address it was allocated at, a natural number that is
    never handed out twice, and a list is the sequence of its nodes.
    [erase] and [splice] on an iterator that does not denote a node of the
    list are undefined in C++; here they leave the list as it is. *)
Module std_list.
Abbreviation iterator := nat (only parsing).
Abbreviation node K := (nat * K)%type (only parsing).
Abbreviation t K := (list (nat * K)) (only parsing).

Section list.
Context {K : Type}.

Definition node_key (n : node K) : K := n.2.
Definition node_iterator (n : node K) : iterator := n.1.

Definition push_front (fresh : iterator) (k : K) (l : t K) : t K :=
  (fresh, k) :: l.
Definition push_back (fresh : iterator) (k : K) (l : t K) : t K :=
  l ++ [(fresh, k)].

Definition front (l : t K) : option K := node_key <$> head l.
Definition back (l : t K) : option K := node_key <$> list.last l.

Definition lookup_node (it : iterator) (l : t K) : option (node K) :=
  snd <$> list_find (λ n, node_iterator n = it) l.

Definition erase (it : iterator) (l : t K) : t K :=
  filter (λ n, node_iterator n ≠ it) l.

(** [l.splice(l.begin(), l, it)] *)
Definition splice_to_front (it : iterator) (l : t K) : t K :=
  match lookup_node it l with
  | Some n => n :: erase it l
  | None => l
  end.

Definition keys (l : t K) : list K := node_key <$> l.
Definition iterators (l : t K) : list iterator := node_iterator <$> l.
End list.
End std_list.

(** ** Eviction policies (policies/eviction_policies.hpp) *)

Module lru_eviction_policy.
Section policy.
Context {K : Type} `{Countable K}.

(** [next_node] is the address the next list node is allocated at. *)
Record t := {
  m_access_list : std_list.t K;
  m_key_to_iterator : gmap K std_list.iterator;
  next_node : std_list.iterator
}.

Definition make : t :=
  {| m_access_list := []; m_key_to_iterator := ∅; next_node := 0 |}.

Definition on_access (p_key : K) (p : t) : t :=
  match m_key_to_iterator p !! p_key with
  | Some it =>
      {| m_access_list := std_list.splice_to_front it (m_access_list p);
         m_key_to_iterator := m_key_to_iterator p;
         next_node := next_node p |}
  | None => p
  end.

Definition on_insert (p_key : K) (p : t) : t :=
  {| m_access_list := std_list.push_front (next_node p) p_key (m_access_list p);
     m_key_to_iterator := <[p_key := next_node p]> (m_key_to_iterator p);
     next_node := S (next_node p) |}.

Definition on_update (p_key : K) (p : t) : t := on_access p_key p.

Definition select_victim (p : t) : result K :=
  match std_list.back (m_access_list p) with
  | None => Throw (runtime_error "Cannot select victim from empty LRU policy")
  | Some victim => Ok victim
  end.

Definition remove_key (p_key : K) (p : t) : t :=
  match m_key_to_iterator p !! p_key with
  | Some it =>
      {| m_access_list := std_list.erase it (m_access_list p);
         m_key_to_iterator := delete p_key (m_key_to_iterator p);
         next_node := next_node p |}
  | None => p
  end.

Definition empty (p : t) : bool := bool_decide (m_access_list p = []).

Definition size (p : t) : Z := SizeT.of_nat (length (m_access_list p)).

Definition clear (p : t) : t :=
  {| m_access_list := []; m_key_to_iterator := ∅; next_node := next_node p |}.

#[global] Instance policy : EvictionPolicy K t := {
  ev_on_access := on_access;
  ev_on_insert := on_insert;
  ev_on_update := on_update;
  ev_select_victim p := (select_victim p, p);
  ev_remove_key := remove_key;
  ev_empty := empty;
  ev_size := size;
  ev_clear := clear
}.

(** Invariant 5 of section 3 of the specification: every tracked key has
    exactly one node, and the stored iterator denotes it. *)
Definition wf (p : t) : Prop :=
  NoDup (std_list.iterators (m_access_list p))
  ∧ (∀ k it, m_key_to_iterator p !! k = Some it ↔ (it, k) ∈ m_access_list p)
  ∧ (∀ it k, (it, k) ∈ m_access_list p → it < next_node p).

#[global] Instance model : EvictionModel K t := {
  ev_wf := wf;
  ev_tracked p := dom (m_key_to_iterator p)
}.
End policy.
Arguments t K {_ _}.
End lru_eviction_policy.

(** The data members of [mru_eviction_policy] and every member function
    except [select_victim] repeat those of [lru_eviction_policy] token for
    token; they are shared here. *)
Module mru_eviction_policy.
Section policy.
Context {K : Type} `{Countable K}.

(** A record of its own keeps the two policies apart as types. *)
Record t := { state : lru_eviction_policy.t K }.

Definition m_access_list (p : t) : std_list.t K :=
  lru_eviction_policy.m_access_list (state p).
Definition m_key_to_iterator (p : t) : gmap K std_list.iterator :=
  lru_eviction_policy.m_key_to_iterator (state p).

Definition make : t := {| state := lru_eviction_policy.make |}.

Definition on_access (p_key : K) (p : t) : t :=
  {| state := lru_eviction_policy.on_access p_key (state p) |}.

Definition on_insert (p_key : K) (p : t) : t :=
  {| state := lru_eviction_policy.on_insert p_key (state p) |}.

Definition on_update (p_key : K) (p : t) : t := on_access p_key p.

Definition select_victim (p : t) : result K :=
  match std_list.front (m_access_list p) with
  | None => Throw (runtime_error "Cannot select victim from empty MRU policy")
  | Some victim => Ok victim
  end.

Definition remove_key (p_key : K) (p : t) : t :=
  {| state := lru_eviction_policy.remove_key p_key (state p) |}.

Definition empty (p : t) : bool := lru_eviction_policy.empty (state p).

Definition size (p : t) : Z := lru_eviction_policy.size (state p).

Definition clear (p : t) : t :=
  {| state := lru_eviction_policy.clear (state p) |}.

#[global] Instance policy : EvictionPolicy K t := {
  ev_on_access := on_access;
  ev_on_insert := on_insert;
  ev_on_update := on_update;
  ev_select_victim p := (select_victim p, p);
  ev_remove_key := remove_key;
  ev_empty := empty;
  ev_size := size;
  ev_clear := clear
}.

#[global] Instance model : EvictionModel K t := {
  ev_wf p := lru_eviction_policy.wf (state p);
  ev_tracked p := dom (m_key_to_iterator p)
}.
End policy.
Arguments t K {_ _}.
End mru_eviction_policy.

Module fifo_eviction_policy.
Section policy.
Context {K : Type} `{Countable K}.

(** [m_insertion_queue] is a [std::queue]: pushed at the back, popped at
    the front, which is the head of the list. *)
Record t := {
  m_insertion_queue : list K;
  m_key_exists : gmap K bool
}.

Definition make : t := {| m_insertion_queue := []; m_key_exists := ∅ |}.

Definition on_access (p_key : K) (p : t) : t := p.

Definition on_insert (p_key : K) (p : t) : t :=
  {| m_insertion_queue := m_insertion_queue p ++ [p_key];
     m_key_exists := <[p_key := true]> (m_key_exists p) |}.

Definition on_update (p_key : K) (p : t) : t := p.

(** The [while] loop of [select_victim]: every candidate is popped, the
    first one that is marked as existing is returned. *)
Fixpoint pop_until_existing (exists_ : gmap K bool) (queue : list K)
    : result K * list K :=
  match queue with
  | [] => (Throw (runtime_error "Cannot select victim from empty FIFO policy"), [])
  | candidate :: queue' =>
      match exists_ !! candidate with
      | Some true => (Ok candidate, queue')
      | _ => pop_until_existing exists_ queue'
      end
  end.

Definition select_victim (p : t) : result K * t :=
  let '(r, queue) := pop_until_existing (m_key_exists p) (m_insertion_queue p) in
  (r, {| m_insertion_queue := queue; m_key_exists := m_key_exists p |}).

Definition remove_key (p_key : K) (p : t) : t :=
  match m_key_exists p !! p_key with
  | Some _ =>
      {| m_insertion_queue := m_insertion_queue p;
         m_key_exists := <[p_key := false]> (m_key_exists p) |}
  | None => p
  end.

Definition empty (p : t) : bool := bool_decide (m_key_exists p = ∅).

(** The counting loop over the entries of [m_key_exists]. *)
Definition size (p : t) : Z :=
  map_fold (λ _ (second : bool) count,
              if second then SizeT.add count 1 else count)
           0%Z (m_key_exists p).

Definition clear (p : t) : t := {| m_insertion_queue := []; m_key_exists := ∅ |}.

#[global] Instance policy : EvictionPolicy K t := {
  ev_on_access := on_access;
  ev_on_insert := on_insert;
  ev_on_update := on_update;
  ev_select_victim := select_victim;
  ev_remove_key := remove_key;
  ev_empty := empty;
  ev_size := size;
  ev_clear := clear
}.

(** The keys marked as existing are the tracked keys; each of them is
    still waiting in the queue. *)
Definition tracked (p : t) : gset K :=
  dom (filter (λ entry, entry.2 = true) (m_key_exists p)).

Definition wf (p : t) : Prop :=
  ∀ k, m_key_exists p !! k = Some true → k ∈ m_insertion_queue p.

#[global] Instance model : EvictionModel K t := {
  ev_wf := wf;
  ev_tracked := tracked
}.
End policy.
Arguments t K {_ _}.
End fifo_eviction_policy.

(** ** [std::map<std::size_t, T>]

    An ordered map is a [gmap]; iteration from [begin()] visits the entries
    by ascending key, iteration from [rbegin()] by descending key. *)
Module std_map.
Section map.
Context {T : Type}.

Definition key_le (a b : Z * T) : Prop := (a.1 ≤ b.1)%Z.

#[global] Instance key_le_dec (a b : Z * T) : Decision (key_le a b) :=
  Z.le_dec a.1 b.1.

Definition entries (m : gmap Z T) : list (Z * T) :=
  merge_sort key_le (map_to_list m).

Definition rentries (m : gmap Z T) : list (Z * T) := reverse (entries m).

(** [m[k]]: the entry is created, value-initialised, when it is missing. *)
Definition subscript `{Inhabited T} (k : Z) (m : gmap Z T) : T := m !!! k.
End map.
End std_map.

Module lfu_eviction_policy.
Section policy.
Context {K : Type} `{Countable K}.

(** [next_node] is the address the next list node is allocated at. *)
Record t := {
  m_key_frequency : gmap K Z;
  m_frequency_buckets : gmap Z (std_list.t K);
  m_key_to_iterator : gmap K std_list.iterator;
  next_node : std_list.iterator
}.

Definition make : t :=
  {| m_key_frequency := ∅; m_frequency_buckets := ∅;
     m_key_to_iterator := ∅; next_node := 0 |}.

(** [m_frequency_buckets[f].push_back(p_key)] followed by
    [m_key_to_iterator[p_key] = std::prev(m_frequency_buckets[f].end())]. *)
Definition push_to_bucket (f : Z) (fresh : std_list.iterator) (p_key : K)
    (buckets : gmap Z (std_list.t K)) : gmap Z (std_list.t K) :=
  <[f := std_list.push_back fresh p_key (default [] (buckets !! f))]> buckets.

(** [bucket.erase(it)] followed by the clean-up of the bucket when it has
    become empty. *)
Definition erase_from_bucket (f : Z) (it : std_list.iterator)
    (bucket : std_list.t K) (buckets : gmap Z (std_list.t K))
    : gmap Z (std_list.t K) :=
  let bucket' := std_list.erase it bucket in
  if bool_decide (bucket' = []) then delete f buckets
  else <[f := bucket']> buckets.

Definition on_insert (p_key : K) (p : t) : t :=
  {| m_key_frequency := <[p_key := 1%Z]> (m_key_frequency p);
     m_frequency_buckets :=
       push_to_bucket 1%Z (next_node p) p_key (m_frequency_buckets p);
     m_key_to_iterator := <[p_key := next_node p]> (m_key_to_iterator p);
     next_node := S (next_node p) |}.

Definition increment_frequency (p_key : K) (p : t) : t :=
  match m_key_frequency p !! p_key with
  | Some old_frequency =>
      let new_frequency := SizeT.add old_frequency 1%Z in
      let buckets :=
        match m_frequency_buckets p !! old_frequency with
        | Some old_bucket =>
            match m_key_to_iterator p !! p_key with
            | Some it =>
                erase_from_bucket old_frequency it old_bucket
                  (m_frequency_buckets p)
            | None => m_frequency_buckets p
            end
        | None => m_frequency_buckets p
        end in
      {| m_key_frequency := <[p_key := new_frequency]> (m_key_frequency p);
         m_frequency_buckets :=
           push_to_bucket new_frequency (next_node p) p_key buckets;
         m_key_to_iterator := <[p_key := next_node p]> (m_key_to_iterator p);
         next_node := S (next_node p) |}
  | None => p
  end.

Definition on_access (p_key : K) (p : t) : t := increment_frequency p_key p.

Definition on_update (p_key : K) (p : t) : t := increment_frequency p_key p.

(** The loop that advances an iterator over the buckets while it points at
    an empty one, followed by [front()] on the bucket it stops at. *)
Fixpoint first_nonempty (buckets : list (Z * std_list.t K))
    : option (std_list.node K) :=
  match buckets with
  | [] => None
  | (_, []) :: buckets' => first_nonempty buckets'
  | (_, n :: _) :: _ => Some n
  end.

Definition select_victim (p : t) : result K :=
  if bool_decide (m_frequency_buckets p = ∅)
  then Throw (runtime_error "Cannot select victim from empty LFU policy")
  else
    match first_nonempty (std_map.entries (m_frequency_buckets p)) with
    | None => Throw (runtime_error "Cannot select victim from empty LFU policy")
    | Some n => Ok (std_list.node_key n)
    end.

Definition remove_key (p_key : K) (p : t) : t :=
  match m_key_frequency p !! p_key with
  | Some frequency =>
      let '(buckets, iterators) :=
        match m_frequency_buckets p !! frequency with
        | Some bucket =>
            match m_key_to_iterator p !! p_key with
            | Some it =>
                (erase_from_bucket frequency it bucket (m_frequency_buckets p),
                 delete p_key (m_key_to_iterator p))
            | None => (m_frequency_buckets p, m_key_to_iterator p)
            end
        | None => (m_frequency_buckets p, m_key_to_iterator p)
        end in
      {| m_key_frequency := delete p_key (m_key_frequency p);
         m_frequency_buckets := buckets;
         m_key_to_iterator := iterators;
         next_node := next_node p |}
  | None => p
  end.

Definition empty (p : t) : bool := bool_decide (m_key_frequency p = ∅).

Definition size (p : t) : Z := SizeT.of_nat (base.size (m_key_frequency p)).

Definition clear (p : t) : t :=
  {| m_key_frequency := ∅; m_frequency_buckets := ∅;
     m_key_to_iterator := ∅; next_node := next_node p |}.

#[global] Instance policy : EvictionPolicy K t := {
  ev_on_access := on_access;
  ev_on_insert := on_insert;
  ev_on_update := on_update;
  ev_select_victim p := (select_victim p, p);
  ev_remove_key := remove_key;
  ev_empty := empty;
  ev_size := size;
  ev_clear := clear
}.
End policy.
Arguments t K {_ _}.
End lfu_eviction_policy.

(** The data members of [mfu_eviction_policy] and every member function
    except [select_victim] repeat those of [lfu_eviction_policy] token for
    token; they are shared here. *)
Module mfu_eviction_policy.
Section policy.
Context {K : Type} `{Countable K}.

(** A record of its own keeps the two policies apart as types. *)
Record t := { state : lfu_eviction_policy.t K }.

Definition m_key_frequency (p : t) : gmap K Z :=
  lfu_eviction_policy.m_key_frequency (state p).
Definition m_frequency_buckets (p : t) : gmap Z (std_list.t K) :=
  lfu_eviction_policy.m_frequency_buckets (state p).
Definition m_key_to_iterator (p : t) : gmap K std_list.iterator :=
  lfu_eviction_policy.m_key_to_iterator (state p).

Definition make : t := {| state := lfu_eviction_policy.make |}.

Definition on_insert (p_key : K) (p : t) : t :=
  {| state := lfu_eviction_policy.on_insert p_key (state p) |}.

Definition increment_frequency (p_key : K) (p : t) : t :=
  {| state := lfu_eviction_policy.increment_frequency p_key (state p) |}.

Definition on_access (p_key : K) (p : t) : t := increment_frequency p_key p.

Definition on_update (p_key : K) (p : t) : t := increment_frequency p_key p.

Definition select_victim (p : t) : result K :=
  if bool_decide (m_frequency_buckets p = ∅)
  then Throw (runtime_error "Cannot select victim from empty MFU policy")
  else
    match lfu_eviction_policy.first_nonempty
            (std_map.rentries (m_frequency_buckets p)) with
    | None => Throw (runtime_error "Cannot select victim from empty MFU policy")
    | Some n => Ok (std_list.node_key n)
    end.

Definition remove_key (p_key : K) (p : t) : t :=
  {| state := lfu_eviction_policy.remove_key p_key (state p) |}.

Definition empty (p : t) : bool := lfu_eviction_policy.empty (state p).

Definition size (p : t) : Z := lfu_eviction_policy.size (state p).

Definition clear (p : t) : t :=
  {| state := lfu_eviction_policy.clear (state p) |}.

#[global] Instance policy : EvictionPolicy K t := {
  ev_on_access := on_access;
  ev_on_insert := on_insert;
  ev_on_update := on_update;
  ev_select_victim p := (select_victim p, p);
  ev_remove_key := remove_key;
  ev_empty := empty;
  ev_size := size;
  ev_clear := clear
}.
End policy.
Arguments t K {_ _}.
End mfu_eviction_policy.

(** ** [<cstdlib>] and [<ctime>]

    [std::srand] and [std::rand] act on one generator per process.  The C
    library is not part of the repository: its generator is a parameter,
    given by the state [std::srand] leaves behind and by the draw
    [std::rand] makes from a state. *)
Module libc.
Class Rand (G : Type) := {
  srand : Z → G;
  rand : G → Z * G
}.

(** [static_cast<unsigned int>(std::time(nullptr))] for a clock that reads
    [now]. *)
Definition to_unsigned_int (now : Z) : Z := (now mod 2 ^ 32)%Z.

(** The sample generator of ISO C (7.22.2.2), with [RAND_MAX = 32767]. *)
Module iso_c.
Definition G : Type := Z.
Definition srand (seed : Z) : G := seed.
Definition rand (next : G) : Z * G :=
  let next := ((next * 1103515245 + 12345) mod 2 ^ 32)%Z in
  (((next / 65536) mod 32768)%Z, next).

#[global] Instance generator : Rand G := {| libc.srand := srand; libc.rand := rand |}.
End iso_c.
End libc.

Module random_eviction_policy.
Section policy.
Context {K : Type} `{Countable K} {G : Type} `{libc.Rand G}.

(** [generator] is the state of the process-wide generator of [<cstdlib>];
    the policy reads and advances it but does not own it. *)
Record t := {
  m_keys : list K;
  m_key_to_index : gmap K Z;
  m_random_initialized : bool;
  generator : G
}.

Definition initialize_random (now : Z) (p : t) : t :=
  if m_random_initialized p then p
  else
    {| m_keys := m_keys p;
       m_key_to_index := m_key_to_index p;
       m_random_initialized := true;
       generator := libc.srand (libc.to_unsigned_int now) |}.

(** The constructor, run while the clock reads [now]; a generator that was
    never seeded behaves as after [srand(1)]. *)
Definition make (now : Z) : t :=
  initialize_random now
    {| m_keys := []; m_key_to_index := ∅;
       m_random_initialized := false; generator := libc.srand 1%Z |}.

Definition on_access (p_key : K) (p : t) : t := p.

Definition on_insert (p_key : K) (p : t) : t :=
  let new_index := SizeT.of_nat (length (m_keys p)) in
  {| m_keys := m_keys p ++ [p_key];
     m_key_to_index := <[p_key := new_index]> (m_key_to_index p);
     m_random_initialized := m_random_initialized p;
     generator := generator p |}.

Definition on_update (p_key : K) (p : t) : t := p.

Definition select_victim (p : t) : result K * t :=
  match m_keys p with
  | [] =>
      (Throw (runtime_error "Cannot select victim from empty random policy"), p)
  | first :: _ =>
      let '(drawn, g) := libc.rand (generator p) in
      let random_index :=
        (SizeT.wrap drawn mod SizeT.of_nat (length (m_keys p)))%Z in
      (Ok (nth (Z.to_nat random_index) (m_keys p) first),
       {| m_keys := m_keys p;
          m_key_to_index := m_key_to_index p;
          m_random_initialized := m_random_initialized p;
          generator := g |})
  end.

(** Indexing [m_keys] out of range and [pop_back] on an empty vector are
    undefined in C++; the model leaves the vector as it is there. *)
Definition remove_key (p_key : K) (p : t) : t :=
  match m_key_to_index p !! p_key with
  | Some key_index =>
      let last_index := SizeT.sub (SizeT.of_nat (length (m_keys p))) 1%Z in
      let '(keys, index) :=
        if bool_decide (key_index ≠ last_index)
        then
          match m_keys p !! Z.to_nat last_index with
          | Some last_key =>
              (<[Z.to_nat key_index := last_key]> (m_keys p),
               <[last_key := key_index]> (m_key_to_index p))
          | None => (m_keys p, m_key_to_index p)
          end
        else (m_keys p, m_key_to_index p) in
      {| m_keys := removelast keys;
         m_key_to_index := delete p_key index;
         m_random_initialized := m_random_initialized p;
         generator := generator p |}
  | None => p
  end.

Definition empty (p : t) : bool := bool_decide (m_keys p = []).

Definition size (p : t) : Z := SizeT.of_nat (length (m_keys p)).

Definition clear (p : t) : t :=
  {| m_keys := []; m_key_to_index := ∅;
     m_random_initialized := m_random_initialized p;
     generator := generator p |}.

#[global] Instance policy : EvictionPolicy K t := {
  ev_on_access := on_access;
  ev_on_insert := on_insert;
  ev_on_update := on_update;
  ev_select_victim := select_victim;
  ev_remove_key := remove_key;
  ev_empty := empty;
  ev_size := size;
  ev_clear := clear
}.

(** Invariant 3 of section 3 of the specification: the key at position [i]
    maps back to index [i]. *)
Definition wf (p : t) : Prop :=
  NoDup (m_keys p)
  ∧ (∀ k i, m_key_to_index p !! k = Some i
            ↔ (0 ≤ i)%Z ∧ m_keys p !! Z.to_nat i = Some k)
  ∧ (Z.of_nat (length (m_keys p)) ≤ SizeT.max)%Z.

#[global] Instance model : EvictionModel K t := {
  ev_wf := wf;
  ev_tracked p := dom (m_key_to_index p)
}.
End policy.
Arguments t K {_ _} G.
End random_eviction_policy.

(** ** The cache facade (cache.hpp, [policy_based_cache]) *)

Module policy_based_cache.
Section cache.
Context {K V EP SP AP CP : Type}.
Context `{EvictionPolicy K EP, StoragePolicy K V SP,
          AccessPolicy K AP, CapacityPolicy CP}.

Record t := {
  m_eviction_policy : EP;
  m_storage_policy : SP;
  m_access_policy : AP;
  m_capacity_policy : CP
}.

(** The constructor default-constructs three policies and builds the
    capacity policy from [p_capacity]; the four objects are passed in. *)
Definition make (eviction : EP) (storage : SP) (access : AP) (capacity : CP)
    : t :=
  {| m_eviction_policy := eviction; m_storage_policy := storage;
     m_access_policy := access; m_capacity_policy := capacity |}.

Definition with_eviction (e : EP) (c : t) : t :=
  {| m_eviction_policy := e; m_storage_policy := m_storage_policy c;
     m_access_policy := m_access_policy c;
     m_capacity_policy := m_capacity_policy c |}.

Definition with_storage (s : SP) (c : t) : t :=
  {| m_eviction_policy := m_eviction_policy c; m_storage_policy := s;
     m_access_policy := m_access_policy c;
     m_capacity_policy := m_capacity_policy c |}.

Definition with_access (a : AP) (c : t) : t :=
  {| m_eviction_policy := m_eviction_policy c;
     m_storage_policy := m_storage_policy c;
     m_access_policy := a;
     m_capacity_policy := m_capacity_policy c |}.

Definition with_capacity (cp : CP) (c : t) : t :=
  {| m_eviction_policy := m_eviction_policy c;
     m_storage_policy := m_storage_policy c;
     m_access_policy := m_access_policy c;
     m_capacity_policy := cp |}.

(** What one pass through the body of the [for] loop of [evict_entries]
    does to the loop. *)
Inductive iteration :=
  | Continue (c : t)
  | Break (c : t)
  | Propagate (e : exception) (c : t).

(** The [catch (const std::runtime_error&)] clause: a [std::runtime_error]
    or an exception derived from it ends the loop, any other exception
    leaves the function. *)
Definition catch_runtime_error (e : exception) (c : t) : iteration :=
  if is_runtime_error e then Break c else Propagate e c.

(** The [try] block with its handler. *)
Definition evict_one (c : t) : iteration :=
  let '(selected, e) := ev_select_victim (m_eviction_policy c) in
  let c := with_eviction e c in
  match selected with
  | Throw ex => catch_runtime_error ex c
  | Ok victim_key =>
      let '(was_erased, s) := st_erase victim_key (m_storage_policy c) in
      let c := with_storage s c in
      if was_erased
      then Continue (with_eviction (ev_remove_key victim_key (m_eviction_policy c)) c)
      else
        catch_runtime_error
          (policy_error "Eviction policy selected non-existent key") c
  end.

(** [remaining] is [p_count - idx_for], the number of passes the loop
    counter still allows. *)
Fixpoint evict_loop (remaining : nat) (c : t) : result unit * t :=
  match remaining with
  | O => (Ok (), c)
  | S remaining' =>
      if st_empty (m_storage_policy c) then (Ok (), c)
      else
        match evict_one c with
        | Continue c' => evict_loop remaining' c'
        | Break c' => (Ok (), c')
        | Propagate ex c' => (Throw ex, c')
        end
  end.

Definition evict_entries (p_count : Z) (c : t) : result unit * t :=
  evict_loop (Z.to_nat p_count) c.

Definition evict_if_necessary_for_insertion (c : t) : result unit * t :=
  let current_size := st_size (m_storage_policy c) in
  let '(needed, cp) := cp_needs_eviction current_size (m_capacity_policy c) in
  let c := with_capacity cp c in
  if needed
  then evict_entries (cp_eviction_count current_size (m_capacity_policy c)) c
  else (Ok (), c).

Definition evict_if_necessary_for_capacity_change (c : t) : result unit * t :=
  let current_size := st_size (m_storage_policy c) in
  let '(needed, cp) := cp_needs_eviction current_size (m_capacity_policy c) in
  let c := with_capacity cp c in
  if needed
  then evict_entries (cp_eviction_count current_size (m_capacity_policy c)) c
  else (Ok (), c).

Definition insert_and_notify (notify : K → EP → EP) (p_key : K) (p_value : V)
    (c : t) : t :=
  let '(_, s) := st_insert p_key p_value (m_storage_policy c) in
  let c := with_storage s c in
  with_eviction (notify p_key (m_eviction_policy c)) c.

Definition put (p_key : K) (p_value : V) (c : t) : result unit * t :=
  let '(found, s) := st_contains p_key (m_storage_policy c) in
  let c := with_storage s c in
  let is_new_key := negb found in
  if is_new_key
  then
    match evict_if_necessary_for_insertion c with
    | (Ok (), c) => (Ok (), insert_and_notify ev_on_insert p_key p_value c)
    | (Throw ex, c) => (Throw ex, c)
    end
  else (Ok (), insert_and_notify ev_on_update p_key p_value c).

Definition get (p_key : K) (c : t) : result V * t :=
  let '(p_value, s) := st_find p_key (m_storage_policy c) in
  let c := with_storage s c in
  match p_value with
  | Some value =>
      let '(should_update_eviction, a) :=
        ac_on_access p_key (m_access_policy c) in
      let c := with_access a c in
      let c :=
        if should_update_eviction
        then with_eviction (ev_on_access p_key (m_eviction_policy c)) c
        else c in
      (Ok value, c)
  | None =>
      let '(_, a) := ac_on_miss p_key (m_access_policy c) in
      (Throw (out_of_range "Key not found in cache"), with_access a c)
  end.

Definition contains (p_key : K) (c : t) : bool * t :=
  let '(found, s) := st_contains p_key (m_storage_policy c) in
  (found, with_storage s c).

Definition size (c : t) : Z := st_size (m_storage_policy c).

Definition empty (c : t) : bool := st_empty (m_storage_policy c).

Definition capacity (c : t) : Z := cp_capacity (m_capacity_policy c).

Definition set_capacity (p_new_capacity : Z) (c : t) : result unit * t :=
  let c :=
    with_capacity (cp_set_capacity p_new_capacity (m_capacity_policy c)) c in
  evict_if_necessary_for_capacity_change c.

Definition clear (c : t) : t :=
  let c := with_storage (st_clear (m_storage_policy c)) c in
  with_eviction (ev_clear (m_eviction_policy c)) c.

Definition erase (p_key : K) (c : t) : bool * t :=
  let '(was_erased, s) := st_erase p_key (m_storage_policy c) in
  let c := with_storage s c in
  (was_erased,
   if was_erased
   then with_eviction (ev_remove_key p_key (m_eviction_policy c)) c
   else c).
End cache.
Arguments t EP SP AP CP : clear implicits.
End policy_based_cache.

(** ** The legacy template specialisations (cache.hpp, [cache<K, V, algorithm>])

    [back()], [front()] and [pop_back()] on an empty container and
    dereferencing [begin()] of an empty map are undefined behaviour; a
    member function that runs into one of them returns [None]. *)

Module legacy_lru.
Section cache.
Context {K V : Type} `{Countable K}.

Record t := {
  m_list : std_list.t K;
  m_map : gmap K (V * std_list.iterator);
  m_capacity : Z;
  next_node : std_list.iterator
}.

Definition make (p_capacity : Z) : t :=
  {| m_list := []; m_map := ∅; m_capacity := p_capacity; next_node := 0 |}.

(** The statements that follow the [if]/[else if] of [put]. *)
Definition push_entry (p_key : K) (p_value : V) (l : std_list.t K)
    (m : gmap K (V * std_list.iterator)) (c : t) : t :=
  {| m_list := std_list.push_front (next_node c) p_key l;
     m_map := <[p_key := (p_value, next_node c)]> m;
     m_capacity := m_capacity c;
     next_node := S (next_node c) |}.

Definition put (p_key : K) (p_value : V) (c : t) : option t :=
  match m_map c !! p_key with
  | Some (_, it) =>
      Some (push_entry p_key p_value (std_list.erase it (m_list c)) (m_map c) c)
  | None =>
      if bool_decide (m_capacity c ≤ SizeT.of_nat (size (m_map c)))%Z
      then
        match std_list.back (m_list c) with
        | Some victim =>
            Some (push_entry p_key p_value (removelast (m_list c))
                    (delete victim (m_map c)) c)
        | None => None
        end
      else Some (push_entry p_key p_value (m_list c) (m_map c) c)
  end.

Definition get (p_key : K) (c : t) : result V * t :=
  match m_map c !! p_key with
  | Some (value, it) =>
      (Ok value,
       {| m_list := std_list.splice_to_front it (m_list c);
          m_map := m_map c;
          m_capacity := m_capacity c;
          next_node := next_node c |})
  | None => (Throw (out_of_range "Key not found"), c)
  end.

Definition contains (p_key : K) (c : t) : bool :=
  bool_decide (is_Some (m_map c !! p_key)).

Definition size (c : t) : Z := SizeT.of_nat (base.size (m_map c)).

Definition empty (c : t) : bool := bool_decide (base.size (m_map c) = 0).

Definition capacity (c : t) : Z := m_capacity c.

Definition clear (c : t) : t :=
  {| m_list := []; m_map := ∅; m_capacity := m_capacity c;
     next_node := next_node c |}.

(** Every stored key has exactly one node in the list, and the iterator
    stored with its value denotes that node. *)
Definition wf (c : t) : Prop :=
  NoDup (std_list.iterators (m_list c))
  ∧ (∀ k it, (∃ v, m_map c !! k = Some (v, it)) ↔ (it, k) ∈ m_list c)
  ∧ (∀ it k, (it, k) ∈ m_list c → it < next_node c).

(** The stored keys from the most to the least recently used, and the
    values stored for them. *)
Definition recency (c : t) : list K := std_list.keys (m_list c).
Definition values (c : t) : gmap K V := fst <$> m_map c.

(** The two members that change the cache, and the cache a call leaves
    behind; [None] when it runs into undefined behaviour. *)
Inductive call :=
  | PutEntry (p_key : K) (p_value : V)
  | GetEntry (p_key : K).

Definition perform (c : call) (cache : t) : option t :=
  match c with
  | PutEntry k v => put k v cache
  | GetEntry k => Some (get k cache).2
  end.
End cache.
Arguments t K V {_ _}.
Arguments call K V : clear implicits.
End legacy_lru.

Module legacy_fifo.
Section cache.
Context {K V : Type} `{Countable K}.

(** [m_queue] is a [std::queue]: pushed at the back, popped at the front,
    which is the head of the list. *)
Record t := {
  m_map : gmap K V;
  m_queue : list K;
  m_capacity : Z
}.

Definition make (p_capacity : Z) : t :=
  {| m_map := ∅; m_queue := []; m_capacity := p_capacity |}.

Definition put (p_key : K) (p_value : V) (c : t) : option t :=
  match m_map c !! p_key with
  | Some _ =>
      Some {| m_map := <[p_key := p_value]> (m_map c);
              m_queue := m_queue c;
              m_capacity := m_capacity c |}
  | None =>
      '(m, q) ←
        (if bool_decide (m_capacity c ≤ SizeT.of_nat (size (m_map c)))%Z
         then
           match m_queue c with
           | front :: queue => Some (delete front (m_map c), queue)
           | [] => None
           end
         else Some (m_map c, m_queue c));
      Some {| m_map := <[p_key := p_value]> m;
              m_queue := q ++ [p_key];
              m_capacity := m_capacity c |}
  end.

(** [m_map.at(p_key)] throws [std::out_of_range] for a missing key, with a
    message the standard library chooses; no property depends on it. *)
Definition at_message : string := "unordered_map::at".

Definition get (p_key : K) (c : t) : result V :=
  match m_map c !! p_key with
  | Some value => Ok value
  | None => Throw (out_of_range at_message)
  end.

Definition contains (p_key : K) (c : t) : bool :=
  bool_decide (is_Some (m_map c !! p_key)).

Definition size (c : t) : Z := SizeT.of_nat (base.size (m_map c)).

Definition empty (c : t) : bool := bool_decide (m_map c = ∅).

Definition capacity (c : t) : Z := m_capacity c.

Definition clear (c : t) : t :=
  {| m_map := ∅; m_queue := []; m_capacity := m_capacity c |}.

(** The queue holds the stored keys, each of them once. *)
Definition wf (c : t) : Prop :=
  NoDup (m_queue c) ∧ ∀ k, k ∈ m_queue c ↔ is_Some (m_map c !! k).
End cache.
Arguments t K V {_ _}.
End legacy_fifo.

Module legacy_lfu.
Section cache.
Context {K V : Type} `{Countable K}.

Record t := {
  m_map : gmap K (V * Z);
  m_freq_map : gmap Z (list K);
  m_capacity : Z
}.

Definition make (p_capacity : Z) : t :=
  {| m_map := ∅; m_freq_map := ∅; m_capacity := p_capacity |}.

(** [m_freq_map[freq].remove(p_key)] and the erasure of the bucket when it
    is left empty; [std::list::remove] drops every element equal to the
    key. *)
Definition unlink (freq : Z) (p_key : K) (fm : gmap Z (list K))
    : gmap Z (list K) :=
  let bucket := filter (λ k, k ≠ p_key) (default [] (fm !! freq)) in
  if bool_decide (bucket = []) then delete freq fm else <[freq := bucket]> fm.

Definition link (freq : Z) (p_key : K) (fm : gmap Z (list K))
    : gmap Z (list K) :=
  <[freq := default [] (fm !! freq) ++ [p_key]]> fm.

Definition put (p_key : K) (p_value : V) (c : t) : option t :=
  if bool_decide (m_capacity c = 0%Z) then Some c
  else
    match m_map c !! p_key with
    | Some (_, freq) =>
        let freq' := SizeT.add freq 1%Z in
        Some {| m_map := <[p_key := (p_value, freq')]> (m_map c);
                m_freq_map := link freq' p_key (unlink freq p_key (m_freq_map c));
                m_capacity := m_capacity c |}
    | None =>
        let evicted :=
          if bool_decide (m_capacity c ≤ SizeT.of_nat (size (m_map c)))%Z
          then
            match std_map.entries (m_freq_map c) with
            | (least_freq, victim :: least_freq_list) :: _ =>
                Some (delete victim (m_map c),
                      if bool_decide (least_freq_list = [])
                      then delete least_freq (m_freq_map c)
                      else <[least_freq := least_freq_list]> (m_freq_map c))
            | _ => None
            end
          else Some (m_map c, m_freq_map c) in
        '(m, fm) ← evicted;
        Some {| m_map := <[p_key := (p_value, 1%Z)]> m;
                m_freq_map := link 1%Z p_key fm;
                m_capacity := m_capacity c |}
    end.

Definition get (p_key : K) (c : t) : result V * t :=
  match m_map c !! p_key with
  | None => (Throw (out_of_range "Key not found"), c)
  | Some (val, freq) =>
      let freq' := SizeT.add freq 1%Z in
      (Ok val,
       {| m_map := <[p_key := (val, freq')]> (m_map c);
          m_freq_map := link freq' p_key (unlink freq p_key (m_freq_map c));
          m_capacity := m_capacity c |})
  end.

Definition contains (p_key : K) (c : t) : bool :=
  bool_decide (is_Some (m_map c !! p_key)).

Definition size (c : t) : Z := SizeT.of_nat (base.size (m_map c)).

Definition capacity (c : t) : Z := m_capacity c.
End cache.
Arguments t K V {_ _}.
End legacy_lfu.

Module legacy_random.
Section cache.
Context {K V : Type} `{Countable K} {G : Type} `{libc.Rand G}.

Record t := {
  m_map : gmap K (V * Z);
  m_keys : list K;
  m_capacity : Z;
  generator : G
}.

Definition make (p_capacity now : Z) : t :=
  {| m_map := ∅; m_keys := []; m_capacity := p_capacity;
     generator := libc.srand (libc.to_unsigned_int now) |}.

Definition put (p_key : K) (p_value : V) (c : t) : t :=
  match m_map c !! p_key with
  | Some (_, index) =>
      {| m_map := <[p_key := (p_value, index)]> (m_map c);
         m_keys := m_keys c; m_capacity := m_capacity c;
         generator := generator c |}
  | None =>
      let c :=
        match m_keys c with
        | first :: _ =>
            if bool_decide (m_capacity c ≤ SizeT.of_nat (size (m_map c)))%Z
            then
              let '(drawn, g) := libc.rand (generator c) in
              let size := SizeT.of_nat (length (m_keys c)) in
              let random_index := (SizeT.wrap drawn mod size)%Z in
              let victim_key := nth (Z.to_nat random_index) (m_keys c) first in
              let last_key := List.last (m_keys c) first in
              let swapped := bool_decide (random_index < SizeT.sub size 1)%Z in
              {| m_map :=
                   delete victim_key
                     (if swapped
                      then alter (λ entry, (entry.1, random_index)) last_key
                             (m_map c)
                      else m_map c);
                 m_keys :=
                   removelast
                     (if swapped
                      then <[Z.to_nat random_index := last_key]> (m_keys c)
                      else m_keys c);
                 m_capacity := m_capacity c;
                 generator := g |}
            else c
        | [] => c
        end in
      let new_index := SizeT.of_nat (length (m_keys c)) in
      {| m_map := <[p_key := (p_value, new_index)]> (m_map c);
         m_keys := m_keys c ++ [p_key];
         m_capacity := m_capacity c;
         generator := generator c |}
  end.

Definition contains (p_key : K) (c : t) : bool :=
  bool_decide (is_Some (m_map c !! p_key)).

Definition size (c : t) : Z := SizeT.of_nat (base.size (m_map c)).
End cache.
Arguments t K V {_ _} G.
End legacy_random.


(** The entries a cache holds. *)
Definition cache_contents {K V EP SP AP CP : Type} `{StorageContents K V SP}
    (c : policy_based_cache.t EP SP AP CP) : gmap K V :=
  st_contents (policy_based_cache.m_storage_policy c).

(** Invariant 2 of section 3 of the specification: a key is present in
    storage iff the eviction policy tracks it. *)
Definition key_agreement {K V EP SP AP CP : Type} `{Countable K}
    `{!EvictionModel K EP, !StorageContents K V SP}
    (c : policy_based_cache.t EP SP AP CP) : Prop :=
  ev_wf (policy_based_cache.m_eviction_policy c)
  ∧ ev_tracked (policy_based_cache.m_eviction_policy c) = dom (cache_contents c).

(** Invariants 1 and 2 together, for the fixed capacity policy and a
    capacity that is not zero. *)
Definition within_capacity {K V EP SP AP : Type} `{Countable K}
    `{!EvictionModel K EP, !StorageContents K V SP}
    (c : policy_based_cache.t EP SP AP fixed_capacity_policy.t) : Prop :=
  let capacity :=
    fixed_capacity_policy.m_capacity (policy_based_cache.m_capacity_policy c) in
  key_agreement c
  ∧ (1 ≤ capacity < SizeT.modulus)%Z
  ∧ (Z.of_nat (size (cache_contents c)) ≤ capacity)%Z.

(** ** Sequences of public operations *)
Inductive operation (K V : Type) :=
  | Put (p_key : K) (p_value : V)
  | Get (p_key : K)
  | Contains (p_key : K)
  | Erase (p_key : K)
  | SetCapacity (p_new_capacity : Z)
  | ClearAll
  | Size
  | Capacity.
Arguments Put {K V} p_key p_value.
Arguments Get {K V} p_key.
Arguments Contains {K V} p_key.
Arguments Erase {K V} p_key.
Arguments SetCapacity {K V} p_new_capacity.
Arguments ClearAll {K V}.
Arguments Size {K V}.
Arguments Capacity {K V}.

Section operations.
Context {K V EP SP AP CP : Type}.
Context `{EvictionPolicy K EP, StoragePolicy K V SP,
          AccessPolicy K AP, CapacityPolicy CP}.

(** The cache an operation leaves behind, whether it returns or throws. *)
Definition perform (op : operation K V) (c : policy_based_cache.t EP SP AP CP)
    : policy_based_cache.t EP SP AP CP :=
  match op with
  | Put k v => (policy_based_cache.put k v c).2
  | Get k => (policy_based_cache.get k c).2
  | Contains k => (policy_based_cache.contains k c).2
  | Erase k => (policy_based_cache.erase k c).2
  | SetCapacity n => (policy_based_cache.set_capacity n c).2
  | ClearAll => policy_based_cache.clear c
  | Size | Capacity => c
  end.

Definition run (ops : list (operation K V))
    (c : policy_based_cache.t EP SP AP CP) : policy_based_cache.t EP SP AP CP :=
  foldl (λ c op, perform op c) c ops.

(** The capacities a caller passes are [std::size_t] values; [positive_capacity]
    singles out the operations that do not set the capacity to zero. *)
Definition positive_capacity (op : operation K V) : Prop :=
  match op with
  | SetCapacity n => (1 ≤ n < SizeT.modulus)%Z
  | _ => True
  end.
End operations.

(** The operations whose [set_capacity] argument satisfies [accepts]. *)
Definition accepted_capacity {K V : Type} (accepts : Z → Prop)
    (op : operation K V) : Prop :=
  match op with
  | SetCapacity n => accepts n
  | _ => True
  end.

(** Invariants 1 and 2 for a capacity policy that lets a cache grow to
    [limit] entries while it is in a state that satisfies [valid]. *)
Definition within_limit {K V EP SP AP CP : Type} `{Countable K}
    `{!EvictionModel K EP, !StorageContents K V SP}
    (limit : CP → Z) (valid : CP → Prop)
    (c : policy_based_cache.t EP SP AP CP) : Prop :=
  key_agreement c
  ∧ valid (policy_based_cache.m_capacity_policy c)
  ∧ (Z.of_nat (size (cache_contents c))
     ≤ limit (policy_based_cache.m_capacity_policy c))%Z.

(** ** Factory functions (cache.hpp, lines 928-959)

    The constructor of [policy_based_cache] default-constructs the eviction,
    storage and access policies and passes [p_capacity] to the capacity
    policy. *)
Section factories.
Context {K V : Type} `{Countable K}.

Definition make_lru_cache (p_capacity : Z)
    : policy_based_cache.t (lru_eviction_policy.t K) (hash_storage_policy.t K V)
        update_on_access_policy.t fixed_capacity_policy.t :=
  policy_based_cache.make lru_eviction_policy.make hash_storage_policy.make
    update_on_access_policy.make (fixed_capacity_policy.make p_capacity).

Definition make_fifo_cache (p_capacity : Z)
    : policy_based_cache.t (fifo_eviction_policy.t K) (hash_storage_policy.t K V)
        no_update_on_access_policy.t fixed_capacity_policy.t :=
  policy_based_cache.make fifo_eviction_policy.make hash_storage_policy.make
    no_update_on_access_policy.make (fixed_capacity_policy.make p_capacity).

Definition make_lfu_cache (p_capacity : Z)
    : policy_based_cache.t (lfu_eviction_policy.t K) (hash_storage_policy.t K V)
        update_on_access_policy.t fixed_capacity_policy.t :=
  policy_based_cache.make lfu_eviction_policy.make hash_storage_policy.make
    update_on_access_policy.make (fixed_capacity_policy.make p_capacity).

(** [make_high_performance_cache]: the storage policy is default-constructed,
    with its default reservation of 100. *)
Definition make_high_performance_cache (p_capacity : Z)
    : policy_based_cache.t (lru_eviction_policy.t K)
        (reserved_hash_storage_policy.t K V)
        update_on_access_policy.t fixed_capacity_policy.t :=
  policy_based_cache.make lru_eviction_policy.make
    (reserved_hash_storage_policy.make 100)
    update_on_access_policy.make (fixed_capacity_policy.make p_capacity).

(** [make_memory_efficient_cache]: the capacity policy is constructed from
    the memory limit, with its default estimate
    [sizeof(key_t) + sizeof(value_t)], here [item_size]. *)
Definition make_memory_efficient_cache (p_memory_limit item_size : Z)
    : policy_based_cache.t (lru_eviction_policy.t K) (compact_storage_policy.t K V)
        update_on_access_policy.t memory_capacity_policy.t :=
  policy_based_cache.make lru_eviction_policy.make compact_storage_policy.make
    update_on_access_policy.make
    (memory_capacity_policy.make p_memory_limit item_size).

(** [make_adaptive_cache]: the access policy is default-constructed, with
    its default threshold of 2; the bounds are set after construction. *)
Definition make_adaptive_cache (p_base_capacity p_min_capacity p_max_capacity : Z)
    : policy_based_cache.t (lru_eviction_policy.t K) (hash_storage_policy.t K V)
        (threshold_access_policy.t K) dynamic_capacity_policy.t :=
  policy_based_cache.make lru_eviction_policy.make hash_storage_policy.make
    (threshold_access_policy.make 2)
    (dynamic_capacity_policy.set_capacity_bounds p_min_capacity p_max_capacity
       (dynamic_capacity_policy.make p_base_capacity)).
End factories.

(** ** Sequencing calls on a cache

    A statement sequence [c.put(..); c.get(..); ...] threads the cache
    object through the calls; [and_then] discards the value a call returns
    and stops at the first exception that leaves a call. *)
Definition and_then {T R : Type} (step : T → result R * T)
    (r : result unit * T) : result unit * T :=
  match r with
  | (Ok (), c) =>
      match step c with
      | (Ok _, c') => (Ok (), c')
      | (Throw ex, c') => (Throw ex, c')
      end
  | (Throw ex, c) => (Throw ex, c)
  end.

Definition start {T : Type} (c : T) : result unit * T := (Ok (), c).

(** Scenario 2 of section 8 of the specification:
    [put(1,"a"); put(2,"b"); get(1); put(3,"c")] on an LRU cache of
    capacity 2. *)
Definition scenario_2
    : result unit *
      policy_based_cache.t (lru_eviction_policy.t Z) (hash_storage_policy.t Z string)
        update_on_access_policy.t fixed_capacity_policy.t :=
  and_then (policy_based_cache.put 3%Z "c")
    (and_then (policy_based_cache.get 1%Z)
       (and_then (policy_based_cache.put 2%Z "b")
          (and_then (policy_based_cache.put 1%Z "a")
             (start (make_lru_cache 2))))).

(** A cache whose eviction policy tracks a key that storage does not hold,
    reached through the public accessor [eviction_policy()]:
    [c.eviction_policy().on_insert(99); c.put(1, "a");] on an LRU cache of
    capacity 1.  The recency list is then [1, 99] and storage holds key 1. *)
Definition inconsistent_cache
    : policy_based_cache.t (lru_eviction_policy.t Z) (hash_storage_policy.t Z string)
        update_on_access_policy.t fixed_capacity_policy.t :=
  let c := make_lru_cache 1 in
  let c :=
    policy_based_cache.with_eviction
      (lru_eviction_policy.on_insert 99%Z (policy_based_cache.m_eviction_policy c))
      c in
  (policy_based_cache.put 1%Z "a" c).2.

(** ** Calls on an eviction policy

    The member functions of [eviction_policy_base] that can change the
    state of a policy, as the facade invokes them. *)
Inductive call (K : Type) :=
  | OnAccess (p_key : K)
  | OnInsert (p_key : K)
  | OnUpdate (p_key : K)
  | SelectVictim
  | RemoveKey (p_key : K)
  | Clear.
Arguments OnAccess {K} p_key.
Arguments OnInsert {K} p_key.
Arguments OnUpdate {K} p_key.
Arguments SelectVictim {K}.
Arguments RemoveKey {K} p_key.
Arguments Clear {K}.

Definition apply_call {K EP : Type} `{EvictionPolicy K EP}
    (c : call K) (p : EP) : EP :=
  match c with
  | OnAccess k => ev_on_access k p
  | OnInsert k => ev_on_insert k p
  | OnUpdate k => ev_on_update k p
  | SelectVictim => (ev_select_victim p).2
  | RemoveKey k => ev_remove_key k p
  | Clear => ev_clear p
  end.

(** Scenario 6 of section 8 of the specification, up to the second [put]
    of key 1: [put(1,"a"); put(2,"b")] on a FIFO cache of capacity 2. *)
Definition scenario_6_prefix
    : policy_based_cache.t (fifo_eviction_policy.t Z) (hash_storage_policy.t Z string)
        no_update_on_access_policy.t fixed_capacity_policy.t :=
  (policy_based_cache.put 2%Z "b"
     (policy_based_cache.put 1%Z "a" (make_fifo_cache 2)).2).2.

(** ** A cache with RANDOM eviction

    [policy_based_cache<K, V, random_eviction, hash_storage,
    no_update_on_access, fixed_capacity>(p_capacity)], constructed while the
    clock reads [now]; the constructor takes no seed. *)
Definition make_random_cache {K V G : Type} `{Countable K} `{libc.Rand G}
    (now p_capacity : Z)
    : policy_based_cache.t (random_eviction_policy.t K G) (hash_storage_policy.t K V)
        no_update_on_access_policy.t fixed_capacity_policy.t :=
  policy_based_cache.make (random_eviction_policy.make now)
    hash_storage_policy.make no_update_on_access_policy.make
    (fixed_capacity_policy.make p_capacity).

(** [put(1,"a"); put(2,"b"); put(3,"c")] on a RANDOM cache of capacity 2
    that runs on the generator of [libc.iso_c]. *)
Definition random_run (now : Z)
    : result unit *
      policy_based_cache.t (random_eviction_policy.t Z libc.iso_c.G)
        (hash_storage_policy.t Z string)
        no_update_on_access_policy.t fixed_capacity_policy.t :=
  and_then (policy_based_cache.put 3%Z "c")
    (and_then (policy_based_cache.put 2%Z "b")
       (and_then (policy_based_cache.put 1%Z "a")
          (start (make_random_cache now 2)))).

(** ** Histories of an LFU policy

    The states an LFU policy goes through when it is driven as the facade
    drives it: [on_insert] is called for a key the policy does not track
    ([put] calls it only for a key that storage does not hold), every other
    member at any time.  Next to the state, a history records when each
    tracked key entered the bucket it is in: [now] counts the calls made so
    far and [arrived] maps a key to the number of the call that inserted it
    or last raised its frequency.  Both are ghosts: no member function reads
    them. *)
Module lfu_history.
Section history.
Context {K : Type} `{Countable K}.
Implicit Types p : lfu_eviction_policy.t K.

Definition permitted (c : call K) p : Prop :=
  match c with
  | OnInsert k => lfu_eviction_policy.m_key_frequency p !! k = None
  | _ => True
  end.

Definition arrivals (c : call K) p (now : nat) (arrived : gmap K nat)
    : gmap K nat :=
  match c with
  | OnInsert k => <[k := now]> arrived
  | OnAccess k | OnUpdate k =>
      match lfu_eviction_policy.m_key_frequency p !! k with
      | Some _ => <[k := now]> arrived
      | None => arrived
      end
  | RemoveKey k => delete k arrived
  | Clear => ∅
  | SelectVictim => arrived
  end.

Inductive reachable : lfu_eviction_policy.t K → gmap K nat → nat → Prop :=
  | reachable_make : reachable lfu_eviction_policy.make ∅ 0
  | reachable_call p arrived now c :
      reachable p arrived now →
      permitted c p →
      reachable (apply_call c p) (arrivals c p now arrived) (S now).

(** When the key of a node arrived in its bucket. *)
Definition arrival (arrived : gmap K nat) (n : std_list.node K) : nat :=
  default 0 (arrived !! std_list.node_key n).

(** A key enters the bucket of frequency [f]: what [on_insert] does for
    [f = 1] and what [increment_frequency] does after it has taken the key
    out of its old bucket. *)
Definition attach (f : Z) (p_key : K) p : lfu_eviction_policy.t K :=
  {| lfu_eviction_policy.m_key_frequency :=
       <[p_key := f]> (lfu_eviction_policy.m_key_frequency p);
     lfu_eviction_policy.m_frequency_buckets :=
       lfu_eviction_policy.push_to_bucket f (lfu_eviction_policy.next_node p)
         p_key (lfu_eviction_policy.m_frequency_buckets p);
     lfu_eviction_policy.m_key_to_iterator :=
       <[p_key := lfu_eviction_policy.next_node p]>
         (lfu_eviction_policy.m_key_to_iterator p);
     lfu_eviction_policy.next_node := S (lfu_eviction_policy.next_node p) |}.

(** The agreement between the three containers of the policy
    (invariant 4 of section 3 of the specification), together with the
    order inside the buckets. *)
Record consistent p (arrived : gmap K nat) (now : nat) : Prop := {
  frequency_in_range k f :
    lfu_eviction_policy.m_key_frequency p !! k = Some f → SizeT.in_range f;
  tracked_has_node k f :
    lfu_eviction_policy.m_key_frequency p !! k = Some f →
    ∃ it bucket,
      lfu_eviction_policy.m_key_to_iterator p !! k = Some it
      ∧ lfu_eviction_policy.m_frequency_buckets p !! f = Some bucket
      ∧ (it, k) ∈ bucket;
  bucket_nonempty f bucket :
    lfu_eviction_policy.m_frequency_buckets p !! f = Some bucket →
    bucket ≠ [];
  bucket_nodes_distinct f bucket :
    lfu_eviction_policy.m_frequency_buckets p !! f = Some bucket →
    NoDup (std_list.iterators bucket);
  node_is_tracked f bucket it k :
    lfu_eviction_policy.m_frequency_buckets p !! f = Some bucket →
    (it, k) ∈ bucket →
    lfu_eviction_policy.m_key_frequency p !! k = Some f
    ∧ lfu_eviction_policy.m_key_to_iterator p !! k = Some it
    ∧ it < lfu_eviction_policy.next_node p;
  tracked_has_arrived k f :
    lfu_eviction_policy.m_key_frequency p !! k = Some f →
    ∃ t, arrived !! k = Some t ∧ t < now;
  bucket_by_arrival f bucket :
    lfu_eviction_policy.m_frequency_buckets p !! f = Some bucket →
    StronglySorted lt (arrival arrived <$> bucket)
}.
End history.
End lfu_history.

(** A short history: [on_insert(1); on_insert(2); on_access(1)]. *)
Definition lfu_example : lfu_eviction_policy.t Z :=
  apply_call (OnAccess 1%Z)
    (apply_call (OnInsert 2%Z)
       (apply_call (OnInsert 1%Z) lfu_eviction_policy.make)).

Definition lfu_example_arrived : gmap Z nat :=
  lfu_history.arrivals (OnAccess 1%Z)
    (apply_call (OnInsert 2%Z)
       (apply_call (OnInsert 1%Z) lfu_eviction_policy.make)) 2
    (lfu_history.arrivals (OnInsert 2%Z)
       (apply_call (OnInsert 1%Z) lfu_eviction_policy.make) 1
       (lfu_history.arrivals (OnInsert 1%Z) lfu_eviction_policy.make 0 ∅)).

(** Histories in which [on_insert], a public member without a guard, is
    called for a key the policy already tracks; the accessor
    [eviction_policy()] of the facade hands the policy out for such calls.
    [on_insert(5); on_insert(5); on_access(5); on_insert(6)]: *)
Definition lfu_inserted_twice : lfu_eviction_policy.t Z :=
  apply_call (OnInsert 6%Z)
    (apply_call (OnAccess 5%Z)
       (apply_call (OnInsert 5%Z)
          (apply_call (OnInsert 5%Z) lfu_eviction_policy.make))).

(** [on_insert(5); on_insert(5); remove_key(5); on_insert(7)]. *)
Definition lfu_stale_node : lfu_eviction_policy.t Z :=
  apply_call (OnInsert 7%Z)
    (apply_call (RemoveKey 5%Z)
       (apply_call (OnInsert 5%Z)
          (apply_call (OnInsert 5%Z) lfu_eviction_policy.make))).

(** [on_insert(7); on_access(7)], and [on_insert(7)] once more. *)
Definition lfu_accessed_once : lfu_eviction_policy.t Z :=
  apply_call (OnAccess 7%Z)
    (apply_call (OnInsert 7%Z) lfu_eviction_policy.make).

Definition lfu_inserted_again : lfu_eviction_policy.t Z :=
  apply_call (OnInsert 7%Z) lfu_accessed_once.

(** The model of the two frequency policies: the containers agree for some
    record of arrivals. *)
Module frequency_model.
Section model.
Context {K : Type} `{Countable K}.

Definition wf (p : lfu_eviction_policy.t K) : Prop :=
  ∃ arrived now, lfu_history.consistent p arrived now.

#[global] Instance lfu_model : EvictionModel K (lfu_eviction_policy.t K) := {
  ev_wf := wf;
  ev_tracked p := dom (lfu_eviction_policy.m_key_frequency p)
}.

#[global] Instance mfu_model : EvictionModel K (mfu_eviction_policy.t K) := {
  ev_wf p := wf (mfu_eviction_policy.state p);
  ev_tracked p := dom (mfu_eviction_policy.m_key_frequency p)
}.
End model.
End frequency_model.
(** * Properties *)

(** ** [std::size_t] arithmetic *)
Module SizeT_facts.
Local Open Scope Z_scope.

Lemma modulus_eq : SizeT.modulus = 18446744073709551616.
Proof. reflexivity. Qed.

Lemma max_eq : SizeT.max = 18446744073709551615.
Proof. reflexivity. Qed.

Lemma wrap_small z : SizeT.in_range z → SizeT.wrap z = z.
Proof. intros Hz. apply Z.mod_small, Hz. Qed.

Lemma wrap_in_range z : SizeT.in_range (SizeT.wrap z).
Proof. apply Z.mod_pos_bound. reflexivity. Qed.

Lemma of_nat_small n : Z.of_nat n < SizeT.modulus → SizeT.of_nat n = Z.of_nat n.
Proof. intros Hn. apply wrap_small. split; [lia | done]. Qed.

Lemma of_nat_0 : SizeT.of_nat 0 = 0.
Proof. reflexivity. Qed.

Lemma of_nat_in_range n : SizeT.in_range (SizeT.of_nat n).
Proof. apply wrap_in_range. Qed.
End SizeT_facts.

(** Removes the reductions modulo [2^64] whose argument is in range. *)
Ltac size_t_bounds :=
  unfold SizeT.in_range in *;
  rewrite ?SizeT_facts.modulus_eq, ?SizeT_facts.max_eq in *;
  lia.

Ltac unwrap :=
  unfold SizeT.add, SizeT.sub, SizeT.mul;
  repeat match goal with
  | |- context [SizeT.wrap ?z] =>
      rewrite (SizeT_facts.wrap_small z) by size_t_bounds
  end.

(** ** Soft capacity *)
Module soft_capacity_facts.
Import soft_capacity_policy.
Local Open Scope Z_scope.

Lemma least_enough_minimum m s : minimum_eviction_count m s (least_enough m s).
Proof.
  unfold minimum_eviction_count, enough, least_enough.
  split; [lia | intros k' [? ?]; lia].
Qed.

Lemma minimum_unique m s k :
  minimum_eviction_count m s k → k = least_enough m s.
Proof.
  intros [Hk Hmin]. destruct (least_enough_minimum m s) as [Hl Hlmin].
  specialize (Hmin _ Hl). specialize (Hlmin _ Hk). lia.
Qed.

Lemma eviction_count_cases p s :
  0 ≤ m_target_capacity p ≤ m_max_capacity p →
  0 ≤ s < SizeT.max →
  eviction_count s p =
    if decide (m_max_capacity p ≤ s) then s - m_target_capacity p + 1
    else if decide (m_target_capacity p < s) then 1 else 0.
Proof.
  intros Ht Hs. unfold eviction_count.
  case_bool_decide; [rewrite decide_True by done
                    | rewrite decide_False by done].
  - unwrap. done.
  - case_bool_decide; [rewrite decide_True by done
                      | rewrite decide_False by done]; done.
Qed.

(** C4, as stated, fails: at the hard maximum the policy drains down to the
    target, and between target and hard maximum it evicts one entry although
    none is needed. *)
Lemma soft_eviction_count_is_not_the_minimum :
  max_capacity burst = 15
  ∧ eviction_count 15 burst = 6
  ∧ ¬ minimum_eviction_count (max_capacity burst) 15 (eviction_count 15 burst)
  ∧ 12 + 1 ≤ max_capacity burst
  ∧ eviction_count 12 burst ≠ 0.
Proof.
  split; [reflexivity |]. split; [reflexivity |].
  split; [| split; [vm_compute; discriminate | vm_compute; discriminate]].
  intros Hmin. apply minimum_unique in Hmin. vm_compute in Hmin. discriminate.
Qed.

(** C4, amended: [eviction_count s] is [s - t + 1] at or above the hard
    maximum [m], [1] strictly between the target [t] and [m], and [0] up to
    the target; it is always enough to restore [size ≤ m], never less than
    the minimum, and [0] whenever [s ≤ t] and [s < m]. *)
Theorem soft_eviction_count_drains_to_target p s :
  0 ≤ m_target_capacity p ≤ m_max_capacity p →
  0 ≤ s < SizeT.max →
  eviction_count s p =
    (if decide (m_max_capacity p ≤ s) then s - m_target_capacity p + 1
     else if decide (m_target_capacity p < s) then 1 else 0)
  ∧ enough (m_max_capacity p) s (eviction_count s p)
  ∧ (∀ k, minimum_eviction_count (m_max_capacity p) s k →
          k ≤ eviction_count s p)
  ∧ (s ≤ m_target_capacity p → s < m_max_capacity p →
     eviction_count s p = 0).
Proof.
  intros Ht Hs. pose proof (eviction_count_cases p s Ht Hs) as Hc.
  split; [exact Hc |]. rewrite Hc. unfold enough.
  repeat split.
  - repeat case_decide; lia.
  - repeat case_decide; lia.
  - intros k Hk. apply minimum_unique in Hk. subst k. unfold least_enough.
    repeat case_decide; lia.
  - intros ? ?. repeat case_decide; lia.
Qed.

Lemma soft_eviction_count_drains_to_target_witness :
  eviction_count 15 burst = 6 ∧ enough 15 15 (eviction_count 15 burst).
Proof.
  assert (H1 : 0 ≤ m_target_capacity burst ≤ m_max_capacity burst)
    by (vm_compute; split; discriminate).
  assert (H2 : 0 ≤ 15 < SizeT.max) by (vm_compute; split; [discriminate | reflexivity]).
  destruct (soft_eviction_count_drains_to_target burst 15 H1 H2)
    as (Heq & Henough & _).
  split; [reflexivity | exact Henough].
Defined.
End soft_capacity_facts.

(** ** Storage policies *)
Module storage_laws.
Section laws.
Context {K V : Type} `{Countable K}.

#[global] Instance hash_storage_laws :
  StorageLaws K V (hash_storage_policy.t K V).
Proof. split; done. Qed.

#[global] Instance reserved_hash_storage_laws :
  StorageLaws K V (reserved_hash_storage_policy.t K V).
Proof. split; done. Qed.

#[global] Instance compact_storage_laws :
  StorageLaws K V (compact_storage_policy.t K V).
Proof. split; done. Qed.

Context {W : Type}
  `{!StoragePolicy K V W, !StorageContents K V W, !StorageLaws K V W}.

#[global] Instance debug_storage_laws :
  StorageLaws K V (debug_storage_policy.t W).
Proof.
  split; intros; simpl;
    unfold st_contents, debug_storage_policy.contents,
      debug_storage_policy.insert, debug_storage_policy.find,
      debug_storage_policy.erase, debug_storage_policy.contains,
      debug_storage_policy.clear, debug_storage_policy.size,
      debug_storage_policy.empty; simpl.
  - pose proof (st_insert_new k v (debug_storage_policy.m_wrapped_policy s)).
    by destruct (st_insert _ _ _).
  - pose proof (st_insert_contents k v (debug_storage_policy.m_wrapped_policy s)).
    by destruct (st_insert _ _ _).
  - pose proof (st_find_value k (debug_storage_policy.m_wrapped_policy s)).
    by destruct (st_find _ _).
  - pose proof (st_find_contents k (debug_storage_policy.m_wrapped_policy s)).
    by destruct (st_find _ _).
  - pose proof (st_erase_found k (debug_storage_policy.m_wrapped_policy s)).
    by destruct (st_erase _ _).
  - pose proof (st_erase_contents k (debug_storage_policy.m_wrapped_policy s)).
    by destruct (st_erase _ _).
  - pose proof (st_contains_found k (debug_storage_policy.m_wrapped_policy s)).
    by destruct (st_contains _ _).
  - pose proof (st_contains_contents k (debug_storage_policy.m_wrapped_policy s)).
    by destruct (st_contains _ _).
  - apply st_size_contents.
  - apply st_empty_contents.
  - apply st_clear_contents.
Qed.
End laws.
End storage_laws.

(** ** The facade, for any four policies *)
Module cache_facts.
Import policy_based_cache.
Section facts.
Context {K V EP SP AP CP : Type} `{Countable K}.
Context `{!EvictionPolicy K EP, !StoragePolicy K V SP,
          !StorageContents K V SP, !StorageLaws K V SP,
          !AccessPolicy K AP, !CapacityPolicy CP}.
Implicit Types c : policy_based_cache.t EP SP AP CP.

Lemma size_contents c : size c = SizeT.of_nat (base.size (cache_contents c)).
Proof. apply st_size_contents. Qed.

Lemma contains_contents k c :
  (contains k c).1 = bool_decide (is_Some (cache_contents c !! k)).
Proof.
  unfold contains, cache_contents.
  pose proof (st_contains_found k (m_storage_policy c)).
  by destruct (st_contains _ _).
Qed.

Lemma evict_one_propagates c ex c' :
  evict_one c = Propagate ex c' → is_runtime_error ex = false.
Proof.
  unfold evict_one.
  destruct (ev_select_victim _) as [[victim|ex'] e]; simpl.
  - by destruct (st_erase _ _) as [[] s].
  - unfold catch_runtime_error. destruct (is_runtime_error ex') eqn:E; [done|].
    by intros [= <- _].
Qed.

(** Whatever is thrown inside the [try] block of [evict_entries] and is a
    [std::runtime_error] stops the loop and goes no further. *)
Lemma evict_loop_no_runtime_error n c ex :
  (evict_loop n c).1 = Throw ex → is_runtime_error ex = false.
Proof.
  revert c. induction n as [|n IH]; intros c; simpl; [done|].
  destruct (st_empty _); [done|].
  destruct (evict_one c) as [c'|c'|ex' c'] eqn:E; simpl; [apply IH | done |].
  intros [= <-]. by eapply evict_one_propagates.
Qed.

Lemma evict_one_contents c :
  match evict_one c with
  | Continue c' | Break c' | Propagate _ c' =>
      cache_contents c' ⊆ cache_contents c
      ∧ m_capacity_policy c' = m_capacity_policy c
      ∧ m_access_policy c' = m_access_policy c
  end.
Proof.
  unfold evict_one, cache_contents.
  destruct (ev_select_victim _) as [[victim|ex] e]; simpl.
  - pose proof (st_erase_contents victim (m_storage_policy c)) as Hc.
    destruct (st_erase _ _) as [[] s]; simpl in *.
    + rewrite Hc. split; [apply delete_subseteq | done].
    + unfold catch_runtime_error; simpl. rewrite Hc.
      split; [apply delete_subseteq | done].
  - unfold catch_runtime_error. by destruct (is_runtime_error ex).
Qed.

Lemma evict_loop_contents n c :
  cache_contents (evict_loop n c).2 ⊆ cache_contents c
  ∧ m_capacity_policy (evict_loop n c).2 = m_capacity_policy c
  ∧ m_access_policy (evict_loop n c).2 = m_access_policy c.
Proof.
  revert c. induction n as [|n IH]; intros c; simpl; [done|].
  destruct (st_empty _); [done|].
  pose proof (evict_one_contents c) as Hone.
  destruct (evict_one c) as [c'|c'|ex c']; simpl; [|done..].
  destruct Hone as (Hs & Hc & Ha), (IH c') as (Hs' & Hc' & Ha').
  split; [by etrans | split; congruence].
Qed.

Lemma insert_and_notify_contents notify k v c :
  cache_contents (insert_and_notify notify k v c)
  = <[k := v]> (cache_contents c).
Proof.
  unfold insert_and_notify, cache_contents.
  pose proof (st_insert_contents k v (m_storage_policy c)).
  by destruct (st_insert _ _ _).
Qed.

Lemma insert_and_notify_capacity notify k v c :
  m_capacity_policy (insert_and_notify notify k v c) = m_capacity_policy c.
Proof. unfold insert_and_notify. by destruct (st_insert _ _ _). Qed.

Lemma put_ok_contents k v c c' :
  put k v c = (Ok (), c') → cache_contents c' !! k = Some v.
Proof.
  unfold put. destruct (st_contains _ _) as [found s]. simpl.
  destruct found; simpl.
  - intros [= <-]. rewrite insert_and_notify_contents. apply lookup_insert_eq.
  - destruct (evict_if_necessary_for_insertion _) as [[[]|ex] c1]; [|done].
    intros [= <-]. rewrite insert_and_notify_contents. apply lookup_insert_eq.
Qed.

(** No [policy_error], and no other [std::runtime_error], leaves [put]. *)
Lemma put_no_runtime_error k v c ex :
  (put k v c).1 = Throw ex → is_runtime_error ex = false.
Proof.
  unfold put. destruct (st_contains _ _) as [found s]. simpl.
  destruct found; simpl; [done|].
  destruct (evict_if_necessary_for_insertion _) as [[[]|ex'] c1] eqn:E; [done|].
  simpl. intros [= <-]. revert E.
  unfold evict_if_necessary_for_insertion.
  destruct (cp_needs_eviction _ _) as [[] cp]; simpl; [|done].
  unfold evict_entries. intros E.
  eapply evict_loop_no_runtime_error. by rewrite E.
Qed.
End facts.
End cache_facts.

(** ** FIFO eviction *)
Module fifo_facts.
Section facts.
Context {K : Type} `{Countable K}.
Import fifo_eviction_policy.

Lemma size_make : size (make (K:=K)) = 0%Z.
Proof. unfold size, make; simpl. apply map_fold_empty. Qed.

Lemma empty_size (p : t K) : empty p = true → size p = 0%Z.
Proof.
  unfold empty, size. intros He. apply bool_decide_eq_true in He.
  rewrite He. apply map_fold_empty.
Qed.

(** C10: once the only key has been inserted and removed, [size()] is 0
    and [empty()] is still false: the entry stays in [m_key_exists], marked
    [false].  The implication from [empty()] to [size() == 0] holds. *)
Theorem fifo_empty_disagrees_with_size (k : K) :
  let p := remove_key k (on_insert k make) in
  size p = 0%Z ∧ empty p = false ∧ m_key_exists p = {[k := false]}
  ∧ ∀ q : t K, empty q = true → size q = 0%Z.
Proof.
  assert (Hm : m_key_exists (remove_key k (on_insert k make)) = {[k := false]}).
  { unfold remove_key, on_insert, make; simpl.
    rewrite lookup_insert_eq; simpl. by rewrite insert_insert_eq. }
  simpl. repeat split.
  - unfold size. rewrite Hm. rewrite map_fold_singleton. done.
  - unfold empty. rewrite Hm. apply bool_decide_eq_false.
    apply map_non_empty_singleton.
  - exact Hm.
  - apply empty_size.
Qed.
End facts.
End fifo_facts.

(** ** The scenarios of section 8 *)
Module scenarios.

Lemma hash_contains {K V EP AP CP : Type} `{Countable K}
    `{EvictionPolicy K EP, AccessPolicy K AP, CapacityPolicy CP}
    (c : policy_based_cache.t EP (hash_storage_policy.t K V) AP CP) (k : K) :
  (policy_based_cache.contains k c).1 =
    bool_decide (is_Some (hash_storage_policy.m_storage
                            (policy_based_cache.m_storage_policy c) !! k)).
Proof. reflexivity. Qed.

(** C6: after [put(1,"a"); put(2,"b"); get(1); put(3,"c")] on an LRU cache
    of capacity 2, key 2 and only key 2 has been evicted: [get(2)] throws
    [std::out_of_range], [get(1)] returns "a" and [get(3)] returns "c". *)
Theorem lru_scenario_2_evicts_key_2 :
  ∃ c,
    scenario_2 = (Ok (), c)
    ∧ (policy_based_cache.get 2%Z c).1 = Throw (out_of_range "Key not found in cache")
    ∧ (policy_based_cache.get 1%Z c).1 = Ok "a"
    ∧ (policy_based_cache.get 3%Z c).1 = Ok "c"
    ∧ policy_based_cache.size c = 2%Z
    ∧ (∀ k, (policy_based_cache.contains k c).1 = true ↔ k = 1%Z ∨ k = 3%Z).
Proof.
  eexists. split; [vm_compute; reflexivity |].
  split; [vm_compute; reflexivity |].
  split; [vm_compute; reflexivity |].
  split; [vm_compute; reflexivity |].
  split; [vm_compute; reflexivity |].
  intros k. rewrite hash_contains, bool_decide_eq_true.
  match goal with
  | |- is_Some (?m !! _) ↔ _ =>
      assert (Hm : m = <[3%Z := "c"]> (<[1%Z := "a"]> ∅))
        by (vm_compute; reflexivity);
      rewrite Hm
  end.
  rewrite !lookup_insert, lookup_empty.
  repeat case_decide; subst; split; intros Hk;
    try done; try (by eexists); try lia; try (by destruct Hk as [? Hk]).
Qed.
End scenarios.

(** ** Capacity 0 and policy inconsistency *)
Module capacity_facts.
Import policy_based_cache cache_facts.

Section inconsistency.
Context {K V EP SP AP CP : Type} `{Countable K}.
Context `{!EvictionPolicy K EP, !StoragePolicy K V SP,
          !StorageContents K V SP, !StorageLaws K V SP,
          !AccessPolicy K AP, !CapacityPolicy CP}.
Implicit Types c : policy_based_cache.t EP SP AP CP.
Local Open Scope Z_scope.

(** The pass of the eviction loop in which the policy selects a key that
    storage does not hold: the [policy_error] thrown in the [else] branch is
    caught by the handler of the same [try] block, and the loop ends. *)
Lemma evict_one_missing_victim c victim e :
  ev_select_victim (m_eviction_policy c) = (Ok victim, e) →
  cache_contents c !! victim = None →
  ∃ c', evict_one c = Break c' ∧ cache_contents c' = cache_contents c
        ∧ m_capacity_policy c' = m_capacity_policy c.
Proof.
  intros Hsel Hmiss. unfold evict_one. rewrite Hsel. simpl.
  pose proof (st_erase_found victim (m_storage_policy c)) as Hf.
  pose proof (st_erase_contents victim (m_storage_policy c)) as Hc.
  unfold cache_contents in Hmiss.
  destruct (st_erase _ _) as [was_erased s]; simpl in *.
  rewrite Hmiss in Hf. rewrite bool_decide_eq_false_2 in Hf
    by (by intros [? ?]). subst was_erased.
  eexists. split; [reflexivity|]. unfold cache_contents; simpl.
  split; [|done]. rewrite Hc. by apply delete_id.
Qed.

(** C1: when the first victim the eviction policy selects inside [put] is a
    key that storage does not hold, [put] returns normally and the new
    entry is inserted; the [policy_error] does not reach the caller. *)
Theorem put_swallows_policy_inconsistency c k v victim e :
  cache_contents c !! k = None →
  (cp_needs_eviction (size c) (m_capacity_policy c)).1 = true →
  0 < cp_eviction_count (size c)
        (cp_needs_eviction (size c) (m_capacity_policy c)).2 →
  cache_contents c ≠ ∅ →
  ev_select_victim (m_eviction_policy c) = (Ok victim, e) →
  cache_contents c !! victim = None →
  ∃ c', put k v c = (Ok (), c')
        ∧ cache_contents c' = <[k := v]> (cache_contents c)
        ∧ (contains k c').1 = true
        ∧ ∀ p_message, (put k v c).1 ≠ Throw (policy_error p_message).
Proof.
  intros Hnew Hneeds Hcount Hne Hsel Hmiss.
  assert (Hnever : ∀ m, (put k v c).1 ≠ Throw (policy_error m)).
  { intros m Hthrow. by apply put_no_runtime_error in Hthrow. }
  unfold put in *.
  pose proof (st_contains_found k (m_storage_policy c)) as Hf.
  pose proof (st_contains_contents k (m_storage_policy c)) as Hc.
  unfold cache_contents in Hnew. rewrite Hnew in Hf.
  rewrite bool_decide_eq_false_2 in Hf by (by intros [? ?]).
  destruct (st_contains _ _) as [found s]; simpl in *. subst found. simpl in *.
  unfold evict_if_necessary_for_insertion in *. simpl in *.
  assert (Hsz : st_size s = size c).
  { unfold size. by rewrite !st_size_contents, Hc. }
  rewrite Hsz in *.
  destruct (cp_needs_eviction _ _) as [needed cp]; simpl in *. subst needed.
  unfold evict_entries in *.
  destruct (Z.to_nat _) as [|n] eqn:En; [lia|]. simpl in *.
  rewrite st_empty_contents, Hc, bool_decide_eq_false_2 in * by done.
  edestruct (evict_one_missing_victim
               (with_capacity cp (with_storage s c)) victim e)
    as (c1 & Hone & Hc1 & _); [done | |].
  { unfold cache_contents; simpl. by rewrite Hc. }
  rewrite Hone in *. simpl in *.
  eexists. split; [reflexivity|].
  assert (Hres : cache_contents (insert_and_notify ev_on_insert k v c1)
                 = <[k := v]> (cache_contents c)).
  { rewrite insert_and_notify_contents, Hc1. unfold cache_contents; simpl.
    by rewrite Hc. }
  split; [exact Hres|]. split; [|exact Hnever].
  rewrite contains_contents, Hres, lookup_insert_eq.
  by apply bool_decide_eq_true_2.
Qed.
End inconsistency.

Section fixed.
Context {K V EP SP AP : Type} `{Countable K}.
Context `{!EvictionPolicy K EP, !StoragePolicy K V SP,
          !StorageContents K V SP, !StorageLaws K V SP,
          !AccessPolicy K AP}.
Implicit Types c : policy_based_cache.t EP SP AP fixed_capacity_policy.t.
Local Open Scope Z_scope.

Lemma put_capacity k v c :
  m_capacity_policy (put k v c).2 = m_capacity_policy c.
Proof.
  unfold put. destruct (st_contains _ _) as [[] s]; simpl.
  - by rewrite insert_and_notify_capacity.
  - unfold evict_if_necessary_for_insertion; simpl.
    destruct (fixed_capacity_policy.needs_eviction _ _); simpl.
    + unfold evict_entries.
      match goal with |- context [evict_loop ?n ?c0] =>
        pose proof (evict_loop_contents n c0) as (_ & Hc & _);
        destruct (evict_loop n c0) as [[[]|ex] c1] end; simpl in *.
      * by rewrite insert_and_notify_capacity.
      * done.
    + by rewrite insert_and_notify_capacity.
Qed.

Lemma put_contents_bound k v c :
  (base.size (cache_contents (put k v c).2)
     ≤ S (base.size (cache_contents c)))%nat.
Proof.
  assert (Hins : ∀ notify c0,
    cache_contents c0 ⊆ cache_contents c →
    (base.size (cache_contents (insert_and_notify notify k v c0))
       ≤ S (base.size (cache_contents c)))%nat).
  { intros notify c0 Hsub. rewrite insert_and_notify_contents.
    apply map_subseteq_size in Hsub.
    destruct (cache_contents c0 !! k) eqn:E.
    - rewrite map_size_insert_Some by done. lia.
    - rewrite map_size_insert_None by done. lia. }
  unfold put.
  pose proof (st_contains_contents k (m_storage_policy c)) as Hs.
  destruct (st_contains _ _) as [[] s]; simpl in *.
  - apply Hins. unfold cache_contents; simpl. by rewrite Hs.
  - unfold evict_if_necessary_for_insertion; simpl.
    destruct (fixed_capacity_policy.needs_eviction _ _); simpl.
    + unfold evict_entries.
      match goal with |- context [evict_loop ?n ?c0] =>
        pose proof (evict_loop_contents n c0) as (Hsub & _);
        destruct (evict_loop n c0) as [[[]|ex] c1] end; simpl in *.
      * apply Hins. etrans; [exact Hsub|]. unfold cache_contents; simpl.
        by rewrite Hs.
      * apply map_subseteq_size in Hsub. unfold cache_contents in *; simpl in *.
        rewrite Hs in Hsub. lia.
    + apply Hins. unfold cache_contents; simpl. by rewrite Hs.
Qed.

(** C2: on a cache whose fixed capacity is 0, every [put] that returns
    leaves [size() ≥ 1 > 0 = capacity()]: the facade evicts before it
    inserts and never after. *)
Theorem put_at_capacity_zero_exceeds_capacity k v c c' :
  fixed_capacity_policy.m_capacity (m_capacity_policy c) = 0 →
  Z.of_nat (base.size (cache_contents c)) < SizeT.max →
  put k v c = (Ok (), c') →
  capacity c' = 0 ∧ 1 ≤ size c' ∧ ¬ size c' ≤ capacity c'.
Proof.
  intros Hcap Hsize Hput.
  assert (Hc : capacity c' = 0).
  { pose proof (put_capacity k v c) as Hpc. rewrite Hput in Hpc; simpl in Hpc.
    unfold capacity; simpl. unfold fixed_capacity_policy.capacity.
    by rewrite Hpc. }
  assert (Hk : cache_contents c' !! k = Some v) by by eapply put_ok_contents.
  assert (Hsz : (0 < base.size (cache_contents c'))%nat).
  { destruct (base.size (cache_contents c')) eqn:E; [|lia].
    apply map_size_empty_inv in E. rewrite E in Hk. done. }
  pose proof (put_contents_bound k v c) as Hb. rewrite Hput in Hb; simpl in Hb.
  rewrite Hc, size_contents, SizeT_facts.of_nat_small by size_t_bounds.
  lia.
Qed.

(** C3: [put] on a fresh cache of capacity 0 succeeds and keeps the entry:
    the eviction loop finds storage empty and does nothing, then the entry
    is inserted.  The legacy LFU cache returns before it touches anything,
    and the legacy LRU cache calls [back()] on its empty list. *)
Theorem put_at_capacity_zero_keeps_the_entry (e : EP) (s : SP) (a : AP)
    (k : K) (v : V) :
  st_contents s = ∅ →
  (∃ c', put k v (make e s a (fixed_capacity_policy.make 0)) = (Ok (), c')
         ∧ cache_contents c' = {[k := v]}
         ∧ size c' = 1
         ∧ (contains k c').1 = true
         ∧ capacity c' = 0)
  ∧ (legacy_lfu.put k v (legacy_lfu.make 0) = Some (legacy_lfu.make 0)
     ∧ legacy_lfu.size (legacy_lfu.make (K:=K) (V:=V) 0) = 0
     ∧ legacy_lfu.contains k (legacy_lfu.make (V:=V) 0) = false)
  ∧ legacy_lru.put k v (legacy_lru.make 0) = None.
Proof.
  intros Hempty. split; [|split; [|reflexivity]].
  - unfold put, make; simpl.
    pose proof (st_contains_found k s) as Hf.
    pose proof (st_contains_contents k s) as Hc.
    rewrite Hempty, lookup_empty, bool_decide_eq_false_2 in Hf
      by (by intros [? ?]).
    destruct (st_contains k s) as [found s1]; simpl in *. subst found; simpl.
    unfold evict_if_necessary_for_insertion; simpl.
    assert (Hs1 : st_size s1 = 0).
    { rewrite st_size_contents, Hc, Hempty, map_size_empty. reflexivity. }
    rewrite Hs1. simpl.
    change (fixed_capacity_policy.eviction_count 0 (fixed_capacity_policy.make 0))
      with 1.
    unfold evict_entries; simpl.
    rewrite st_empty_contents, Hc, Hempty, bool_decide_eq_true_2 by done.
    eexists. split; [reflexivity|].
    assert (Hres : ∀ c0 : policy_based_cache.t EP SP AP fixed_capacity_policy.t,
              cache_contents c0 = ∅ →
              cache_contents (insert_and_notify ev_on_insert k v c0)
              = {[k := v]}).
    { intros c0 Hc0. by rewrite insert_and_notify_contents, Hc0. }
    match goal with |- context [insert_and_notify _ _ _ ?c0] =>
      specialize (Hres c0) end.
    rewrite size_contents, contains_contents, Hres
      by (unfold cache_contents; simpl; by rewrite Hc).
    split; [done|]. split; [by rewrite map_size_singleton|].
    split; [by rewrite lookup_singleton_eq, bool_decide_eq_true_2|].
    unfold capacity. by rewrite insert_and_notify_capacity.
  - repeat split.
Qed.
End fixed.

Lemma put_swallows_policy_inconsistency_witness :
  ∃ c', put 2%Z "b" inconsistent_cache = (Ok (), c')
        ∧ cache_contents c' = <[2%Z := "b"]> (cache_contents inconsistent_cache)
        ∧ (contains 2%Z c').1 = true
        ∧ ∀ p_message,
            (put 2%Z "b" inconsistent_cache).1 ≠ Throw (policy_error p_message).
Proof.
  apply (put_swallows_policy_inconsistency inconsistent_cache 2%Z "b" 99%Z
           (m_eviction_policy inconsistent_cache)).
  - vm_compute; reflexivity.
  - vm_compute; reflexivity.
  - vm_compute; reflexivity.
  - intros Hempty. apply (f_equal (λ m : gmap Z string, m !! 1%Z)) in Hempty.
    vm_compute in Hempty. discriminate.
  - vm_compute; reflexivity.
  - vm_compute; reflexivity.
Defined.

Lemma put_at_capacity_zero_exceeds_capacity_witness :
  ∃ c', put 1%Z "a" (make_lru_cache 0) = (Ok (), c')
        ∧ capacity c' = 0%Z ∧ (1 ≤ size c')%Z ∧ ¬ (size c' ≤ capacity c')%Z.
Proof.
  eexists. split; [vm_compute; reflexivity|].
  apply (put_at_capacity_zero_exceeds_capacity 1%Z "a" (make_lru_cache 0)).
  - reflexivity.
  - vm_compute; reflexivity.
  - vm_compute; reflexivity.
Defined.

Lemma put_at_capacity_zero_keeps_the_entry_witness :
  ∃ c', put 1%Z "a" (make_lru_cache 0) = (Ok (), c')
        ∧ size c' = 1%Z ∧ (contains 1%Z c').1 = true ∧ capacity c' = 0%Z.
Proof.
  destruct (put_at_capacity_zero_keeps_the_entry
              (lru_eviction_policy.make (K:=Z))
              (hash_storage_policy.make (K:=Z) (V:=string))
              update_on_access_policy.make 1%Z "a" eq_refl)
    as ((c' & Hput & _ & Hsize & Hcontains & Hcap) & _).
  exists c'. done.
Defined.
End capacity_facts.

(** ** Overwriting an entry *)
Module update_facts.
Import policy_based_cache cache_facts.
Section facts.
Context {K V EP SP AP CP : Type} `{Countable K}.
Context `{!EvictionPolicy K EP, !StoragePolicy K V SP,
          !StorageContents K V SP, !StorageLaws K V SP,
          !AccessPolicy K AP, !CapacityPolicy CP}.
Implicit Types c : policy_based_cache.t EP SP AP CP.

Lemma insert_and_notify_eviction notify k v c :
  m_eviction_policy (insert_and_notify notify k v c)
  = notify k (m_eviction_policy c).
Proof. unfold insert_and_notify. by destruct (st_insert _ _ _). Qed.

Lemma put_present k v v0 c :
  cache_contents c !! k = Some v0 →
  ∃ c', put k v c = (Ok (), c')
        ∧ cache_contents c' = <[k := v]> (cache_contents c)
        ∧ m_eviction_policy c' = ev_on_update k (m_eviction_policy c)
        ∧ m_capacity_policy c' = m_capacity_policy c.
Proof.
  intros Hk. unfold put.
  pose proof (st_contains_found k (m_storage_policy c)) as Hf.
  pose proof (st_contains_contents k (m_storage_policy c)) as Hc.
  unfold cache_contents in Hk. rewrite Hk in Hf.
  rewrite bool_decide_eq_true_2 in Hf by by eexists.
  destruct (st_contains _ _) as [found s]; simpl in *. subst found; simpl.
  eexists. split; [reflexivity|].
  rewrite insert_and_notify_contents, insert_and_notify_eviction,
    insert_and_notify_capacity.
  unfold cache_contents; simpl. by rewrite Hc.
Qed.

Lemma get_present k v c :
  cache_contents c !! k = Some v → (get k c).1 = Ok v.
Proof.
  intros Hk. unfold get.
  pose proof (st_find_value k (m_storage_policy c)) as Hf.
  unfold cache_contents in Hk. rewrite Hk in Hf.
  destruct (st_find _ _) as [found s]; simpl in *. subst found.
  by destruct (ac_on_access _ _) as [[] a].
Qed.

(** C8: after [put(k,v1); put(k,v2)], [get(k)] returns [v2] and [size()]
    is what it was after the first [put]; the second [put] overwrites the
    stored value and calls [on_update] on the eviction policy, and nothing
    else: no victim is selected and the capacity policy is not consulted. *)
Theorem put_put_overwrites k v1 v2 c c1 :
  put k v1 c = (Ok (), c1) →
  ∃ c2, put k v2 c1 = (Ok (), c2)
        ∧ (get k c2).1 = Ok v2
        ∧ size c2 = size c1
        ∧ cache_contents c2 = <[k := v2]> (cache_contents c1)
        ∧ m_eviction_policy c2 = ev_on_update k (m_eviction_policy c1)
        ∧ m_capacity_policy c2 = m_capacity_policy c1.
Proof.
  intros Hput1. apply put_ok_contents in Hput1.
  destruct (put_present k v2 v1 c1 Hput1) as (c2 & Hput2 & Hc & He & Hcp).
  exists c2. split; [done|].
  split; [apply get_present; rewrite Hc; apply lookup_insert_eq|].
  split; [|done].
  rewrite !size_contents, Hc. f_equal.
  by rewrite map_size_insert_Some.
Qed.
End facts.

(** For FIFO, [on_update] leaves the insertion queue as it is. *)
Lemma fifo_on_update_keeps_order {K : Type} `{Countable K}
    (k : K) (p : fifo_eviction_policy.t K) :
  ev_on_update k p = p.
Proof. reflexivity. Qed.

Lemma put_put_overwrites_witness :
  ∃ c2, put 2%Z "b2" scenario_6_prefix = (Ok (), c2)
        ∧ (get 2%Z c2).1 = Ok "b2"
        ∧ size c2 = size scenario_6_prefix
        ∧ m_eviction_policy c2 = m_eviction_policy scenario_6_prefix.
Proof.
  assert (Hfirst : put 2%Z "b" (put 1%Z "a" (make_fifo_cache 2)).2
                   = (Ok (), scenario_6_prefix)) by (vm_compute; reflexivity).
  destruct (put_put_overwrites 2%Z "b" "b2" _ _ Hfirst)
    as (c2 & Hput & Hget & Hsize & _ & Hev & _).
  exists c2. by rewrite Hev.
Defined.
End update_facts.

(** ** RANDOM eviction *)
Module random_facts.

(** C5: [random_eviction_policy] has no member that takes a seed; its
    constructor seeds the process-wide generator from the clock.  Two runs
    of the same operations on caches constructed one second apart evict
    different keys. *)
Theorem random_victims_follow_the_clock :
  ∃ c c',
    random_run 1700000000 = (Ok (), c)
    ∧ random_run 1700000001 = (Ok (), c')
    ∧ cache_contents c = {[1%Z := "a"; 3%Z := "c"]}
    ∧ cache_contents c' = {[2%Z := "b"; 3%Z := "c"]}
    ∧ cache_contents c ≠ cache_contents c'.
Proof.
  do 2 eexists.
  split; [vm_compute; reflexivity|]. split; [vm_compute; reflexivity|].
  split; [vm_compute; reflexivity|]. split; [vm_compute; reflexivity|].
  intros Heq. apply (f_equal (λ m : gmap Z string, m !! 1%Z)) in Heq.
  vm_compute in Heq. discriminate.
Qed.
End random_facts.

(** ** Frequency counters of LFU and MFU *)
Module frequency_facts.
Section facts.
Context {K : Type} `{Countable K}.
Implicit Types p : lfu_eviction_policy.t K.
Local Open Scope Z_scope.

Lemma on_insert_frequency k p :
  lfu_eviction_policy.m_key_frequency (lfu_eviction_policy.on_insert k p) !! k
  = Some 1.
Proof. simpl. apply lookup_insert_eq. Qed.

Lemma on_insert_frequency_ne k j p :
  k ≠ j →
  lfu_eviction_policy.m_key_frequency (lfu_eviction_policy.on_insert k p) !! j
  = lfu_eviction_policy.m_key_frequency p !! j.
Proof. intros Hne. simpl. by apply lookup_insert_ne. Qed.

Lemma increment_frequency_tracked k f p :
  lfu_eviction_policy.m_key_frequency p !! k = Some f →
  lfu_eviction_policy.m_key_frequency
    (lfu_eviction_policy.increment_frequency k p) !! k
  = Some (SizeT.add f 1).
Proof.
  intros Hf. unfold lfu_eviction_policy.increment_frequency. rewrite Hf. simpl.
  apply lookup_insert_eq.
Qed.

Lemma increment_frequency_ne k j p :
  k ≠ j →
  lfu_eviction_policy.m_key_frequency
    (lfu_eviction_policy.increment_frequency k p) !! j
  = lfu_eviction_policy.m_key_frequency p !! j.
Proof.
  intros Hne. unfold lfu_eviction_policy.increment_frequency.
  destruct (lfu_eviction_policy.m_key_frequency p !! k); [|done].
  simpl. by apply lookup_insert_ne.
Qed.

Lemma remove_key_frequency k j p :
  lfu_eviction_policy.m_key_frequency (lfu_eviction_policy.remove_key k p) !! j
  = if decide (k = j) then None
    else lfu_eviction_policy.m_key_frequency p !! j.
Proof.
  unfold lfu_eviction_policy.remove_key.
  destruct (lfu_eviction_policy.m_key_frequency p !! k) eqn:Ek.
  - destruct (lfu_eviction_policy.m_frequency_buckets p !! z);
      [destruct (lfu_eviction_policy.m_key_to_iterator p !! k)|];
      simpl; apply lookup_delete.
  - case_decide; [by subst|done].
Qed.

(** A counter that has reached [SIZE_MAX] wraps around to 0 on the next
    [on_access]. *)
Lemma frequency_counter_wraps_at_size_max k p :
  lfu_eviction_policy.m_key_frequency p !! k = Some SizeT.max →
  lfu_eviction_policy.m_key_frequency (lfu_eviction_policy.on_access k p) !! k
  = Some 0.
Proof.
  intros Hf. unfold lfu_eviction_policy.on_access.
  by rewrite (increment_frequency_tracked k SizeT.max p Hf).
Qed.

(** C9, amended: a counter starts at 1; [on_access] and [on_update] add one
    to the counter of their key; a call other than [on_insert] of the key
    itself does not lower the counter of a key that is tracked before and
    after it, as long as the counter is below [SIZE_MAX].  MFU keeps the
    same counters as LFU. *)
Theorem frequency_counter_never_decreases (c : call K) k f p :
  lfu_eviction_policy.m_key_frequency p !! k = Some f →
  0 ≤ f < SizeT.max →
  c ≠ OnInsert k →
  (∀ q, lfu_eviction_policy.m_key_frequency
          (lfu_eviction_policy.on_insert k q) !! k = Some 1)
  ∧ (∀ f', lfu_eviction_policy.m_key_frequency (apply_call c p) !! k = Some f' →
           f ≤ f')
  ∧ (c = OnAccess k ∨ c = OnUpdate k →
     lfu_eviction_policy.m_key_frequency (apply_call c p) !! k = Some (f + 1))
  ∧ mfu_eviction_policy.m_key_frequency
      (apply_call c {| mfu_eviction_policy.state := p |})
    = lfu_eviction_policy.m_key_frequency (apply_call c p).
Proof.
  intros Hf Hrange Hdiscipline.
  assert (Hinc : SizeT.add f 1 = f + 1) by (unwrap; done).
  split; [intros q; apply on_insert_frequency|].
  split; [|split].
  - intros f'. destruct c as [j|j|j| |j|]; simpl.
    + unfold lfu_eviction_policy.on_access.
      destruct (decide (j = k)) as [->|Hne].
      * rewrite (increment_frequency_tracked k f p Hf), Hinc.
        intros [= <-]. lia.
      * rewrite increment_frequency_ne, Hf by done. intros [= <-]. lia.
    + destruct (decide (j = k)) as [->|Hne]; [done|].
      rewrite lookup_insert_ne, Hf by done. intros [= <-]. lia.
    + unfold lfu_eviction_policy.on_update.
      destruct (decide (j = k)) as [->|Hne].
      * rewrite (increment_frequency_tracked k f p Hf), Hinc.
        intros [= <-]. lia.
      * rewrite increment_frequency_ne, Hf by done. intros [= <-]. lia.
    + rewrite Hf. intros [= <-]. lia.
    + rewrite remove_key_frequency. case_decide; [done|].
      rewrite Hf. intros [= <-]. lia.
    + by rewrite lookup_empty.
  - intros [-> | ->]; simpl;
      unfold lfu_eviction_policy.on_access, lfu_eviction_policy.on_update;
      by rewrite (increment_frequency_tracked k f p Hf), Hinc.
  - by destruct c.
Qed.
End facts.

Lemma frequency_counter_never_decreases_witness :
  let p := lfu_eviction_policy.on_insert 7%Z lfu_eviction_policy.make in
  lfu_eviction_policy.m_key_frequency (apply_call (OnAccess 7%Z) p) !! 7%Z
  = Some 2%Z.
Proof.
  intros p.
  assert (Hf : lfu_eviction_policy.m_key_frequency p !! 7%Z = Some 1%Z)
    by (vm_compute; reflexivity).
  assert (Hr : (0 ≤ 1 < SizeT.max)%Z)
    by (vm_compute; split; [discriminate | reflexivity]).
  assert (Hd : OnAccess 7%Z ≠ OnInsert 7%Z) by discriminate.
  destruct (frequency_counter_never_decreases (OnAccess 7%Z) 7%Z 1%Z p Hf Hr Hd)
    as (_ & _ & Hstrict & _).
  apply Hstrict. by left.
Defined.

(** C9, as stated, fails: [on_insert] is public and writes 1 without looking
    at the counter of its key.  After [on_insert(7); on_access(7)] the
    counter of key 7 is 2, and a second [on_insert(7)] lowers it to 1 while
    the key stays tracked; MFU does the same. *)
Lemma frequency_counter_drops_on_a_second_on_insert :
  lfu_eviction_policy.m_key_frequency lfu_accessed_once !! 7%Z = Some 2%Z
  ∧ lfu_inserted_again = lfu_eviction_policy.on_insert 7%Z lfu_accessed_once
  ∧ lfu_eviction_policy.m_key_frequency lfu_inserted_again !! 7%Z = Some 1%Z
  ∧ mfu_eviction_policy.m_key_frequency
      (mfu_eviction_policy.on_insert 7%Z
         {| mfu_eviction_policy.state := lfu_accessed_once |}) !! 7%Z
    = Some 1%Z.
Proof.
  split; [vm_compute; reflexivity|]. split; [reflexivity|].
  split; vm_compute; reflexivity.
Qed.
End frequency_facts.

(** ** [std::list] and [std::map] *)
Module std_list_facts.
Section facts.
Context {K : Type}.
Implicit Types l : std_list.t K.

Lemma elem_of_erase it l n :
  n ∈ std_list.erase it l ↔ n ∈ l ∧ std_list.node_iterator n ≠ it.
Proof. unfold std_list.erase. rewrite list_elem_of_filter. tauto. Qed.

Lemma iterators_erase_NoDup it l :
  NoDup (std_list.iterators l) → NoDup (std_list.iterators (std_list.erase it l)).
Proof.
  unfold std_list.iterators. intros Hnd.
  eapply sublist_NoDup; [exact Hnd|]. apply fmap_sublist, sublist_filter.
Qed.

Lemma iterator_determines_key it k k' l :
  NoDup (std_list.iterators l) → (it, k) ∈ l → (it, k') ∈ l → k = k'.
Proof.
  unfold std_list.iterators. intros Hnd Hk Hk'.
  apply list_elem_of_lookup in Hk as [i Hi], Hk' as [j Hj].
  assert (i = j) as ->.
  { apply (NoDup_lookup _ i j it Hnd);
      rewrite list_lookup_fmap; [rewrite Hi|rewrite Hj]; done. }
  congruence.
Qed.

Lemma sorted_erase (f : std_list.node K → nat) it l :
  StronglySorted lt (f <$> l) →
  StronglySorted lt (f <$> std_list.erase it l).
Proof.
  unfold std_list.erase.
  induction l as [|n l IH]; simpl; [done|].
  intros Hs. apply StronglySorted_inv in Hs as [Hs Hall].
  rewrite filter_cons. case_decide; [|by apply IH].
  simpl. constructor; [by apply IH|].
  rewrite Forall_fmap in *. rewrite Forall_forall in *.
  intros x Hx. apply Hall. apply list_elem_of_filter in Hx. tauto.
Qed.

Lemma sorted_push_back (f : std_list.node K → nat) fresh k l :
  StronglySorted lt (f <$> l) →
  (∀ n, n ∈ l → f n < f (fresh, k)) →
  StronglySorted lt (f <$> std_list.push_back fresh k l).
Proof.
  intros Hs Hlt. unfold std_list.push_back. rewrite fmap_app.
  apply StronglySorted_app_2; [|done|].
  - intros x1 x2 Hx1 Hx2. simpl in Hx2. apply list_elem_of_singleton in Hx2 as ->.
    apply list_elem_of_fmap in Hx1 as (n & -> & Hn). by apply Hlt.
  - simpl. repeat constructor.
Qed.

Lemma elem_of_push_back fresh k l n :
  n ∈ std_list.push_back fresh k l ↔ n ∈ l ∨ n = (fresh, k).
Proof.
  unfold std_list.push_back. rewrite elem_of_app, list_elem_of_singleton. tauto.
Qed.

Lemma iterators_push_back_NoDup fresh k l :
  NoDup (std_list.iterators l) →
  (∀ n, n ∈ l → std_list.node_iterator n ≠ fresh) →
  NoDup (std_list.iterators (std_list.push_back fresh k l)).
Proof.
  unfold std_list.iterators, std_list.push_back. intros Hnd Hfresh.
  rewrite fmap_app. apply NoDup_app. split; [done|]. split.
  - intros it Hit. simpl. rewrite list_elem_of_singleton. intros ->.
    apply list_elem_of_fmap in Hit as (n & Hn & Hin). by eapply Hfresh.
  - simpl. apply NoDup_singleton.
Qed.
End facts.
End std_list_facts.

Module std_map_facts.
Section facts.
Context {T : Type}.
Implicit Types m : gmap Z T.

#[global] Instance key_le_transitive : Transitive (std_map.key_le (T:=T)).
Proof. intros x y z. unfold std_map.key_le. lia. Qed.

#[global] Instance key_le_total : Total (std_map.key_le (T:=T)).
Proof. intros x y. unfold std_map.key_le. lia. Qed.

Lemma elem_of_entries m f b : (f, b) ∈ std_map.entries m ↔ m !! f = Some b.
Proof.
  unfold std_map.entries. rewrite merge_sort_Permutation.
  apply elem_of_map_to_list.
Qed.

Lemma entries_sorted m : StronglySorted std_map.key_le (std_map.entries m).
Proof. apply StronglySorted_merge_sort; apply _. Qed.

Lemma entries_nil m : std_map.entries m = [] → m = ∅.
Proof.
  unfold std_map.entries. intros Hnil.
  apply map_to_list_empty_iff. apply Permutation_nil_r.
  rewrite <- Hnil. by rewrite merge_sort_Permutation.
Qed.

(** [begin()] points at the entry with the least key. *)
Lemma entries_head_least m f b rest g b' :
  std_map.entries m = (f, b) :: rest → m !! g = Some b' → (f ≤ g)%Z.
Proof.
  intros Hhead Hg. apply elem_of_entries in Hg.
  pose proof (entries_sorted m) as Hs. rewrite Hhead in Hs, Hg.
  apply StronglySorted_inv in Hs as [_ Hall].
  apply elem_of_cons in Hg as [[= -> ->]|Hg]; [done|].
  rewrite Forall_forall in Hall. by apply (Hall _ Hg).
Qed.
End facts.
End std_map_facts.

(** ** LFU eviction *)
Module lfu_facts.
Import lfu_eviction_policy lfu_history std_list_facts.
Section facts.
Context {K : Type} `{Countable K}.
Implicit Types p : lfu_eviction_policy.t K.
Implicit Types buckets : gmap Z (list (nat * K)).

Lemma lookup_push_to_bucket f fresh k buckets g :
  push_to_bucket f fresh k buckets !! g
  = if decide (f = g)
    then Some (std_list.push_back fresh k (default [] (buckets !! f)))
    else buckets !! g.
Proof. unfold push_to_bucket. by rewrite lookup_insert. Qed.

Lemma lookup_erase_from_bucket f it bucket buckets g :
  erase_from_bucket f it bucket buckets !! g
  = if decide (f = g)
    then (if decide (std_list.erase it bucket = []) then None
          else Some (std_list.erase it bucket))
    else buckets !! g.
Proof.
  unfold erase_from_bucket. case_bool_decide.
  - rewrite lookup_delete. case_decide; [by rewrite decide_True|done].
  - rewrite lookup_insert. case_decide; [by rewrite decide_False|done].
Qed.

(** [increment_frequency] takes the key out, as [remove_key] does, and puts
    it back one bucket up. *)
Lemma increment_frequency_attach k f p :
  m_key_frequency p !! k = Some f →
  increment_frequency k p = attach (SizeT.add f 1) k (remove_key k p).
Proof.
  intros Hf. unfold increment_frequency, remove_key, attach. rewrite Hf.
  destruct (m_frequency_buckets p !! f) as [bucket|];
    [destruct (m_key_to_iterator p !! k) as [it|]|]; simpl;
    by rewrite !insert_delete_eq.
Qed.

Lemma on_insert_attach k p : on_insert k p = attach 1 k p.
Proof. reflexivity. Qed.

Lemma consistent_make : consistent (make (K:=K)) ∅ 0.
Proof. split; simpl; intros *; by rewrite ?lookup_empty. Qed.

Lemma consistent_clear p arrived now : consistent (clear p) arrived now.
Proof. split; simpl; intros *; by rewrite ?lookup_empty. Qed.

(** The ghosts only matter on the tracked keys. *)
Lemma consistent_ghosts p arrived arrived' now now' :
  consistent p arrived now →
  (∀ k, is_Some (m_key_frequency p !! k) → arrived' !! k = arrived !! k) →
  now ≤ now' →
  consistent p arrived' now'.
Proof.
  intros [Hrange Htracked Hnonempty Hdistinct Hnode Harrived Hsorted] Hsame Hnow.
  split; try done.
  - intros k f Hf. destruct (Harrived k f Hf) as (t & Ht & Hlt).
    exists t. rewrite Hsame by (by eexists). split; [done|lia].
  - intros f bucket Hb.
    erewrite list_fmap_ext; [by eapply Hsorted|].
    intros i [it k] Hi. unfold arrival; simpl.
    apply list_elem_of_lookup_2 in Hi.
    destruct (Hnode f bucket it k Hb Hi) as (Hf & _).
    rewrite Hsame; [done | by eexists].
Qed.

Lemma consistent_remove_key k p arrived now :
  consistent p arrived now → consistent (remove_key k p) arrived now.
Proof.
  intros Hc. unfold remove_key.
  destruct (m_key_frequency p !! k) as [f|] eqn:Hf; [|done].
  destruct Hc as [Hrange Htracked Hnonempty Hdistinct Hnode Harrived Hsorted].
  destruct (Htracked k f Hf) as (it & bucket & Hit & Hbucket & Hin).
  rewrite Hbucket, Hit.
  assert (Hother : ∀ it' k', (it', k') ∈ bucket → k' ≠ k → it' ≠ it).
  { intros it' k' Hin' Hne ->. apply Hne.
    by eapply iterator_determines_key; [apply (Hdistinct f)|..]. }
  assert (Hself : ∀ it', (it', k) ∈ bucket → it' = it).
  { intros it' Hin'. destruct (Hnode f bucket it' k Hbucket Hin') as (_ & Hit' & _).
    congruence. }
  split; simpl.
  - intros k' f'. rewrite lookup_delete. case_decide; [done|]. apply Hrange.
  - intros k' f'. rewrite lookup_delete. case_decide as Hk; [done|]. intros Hf'.
    destruct (Htracked k' f' Hf') as (it' & bucket' & Hit' & Hbucket' & Hin').
    rewrite lookup_delete_ne by done.
    rewrite lookup_erase_from_bucket.
    destruct (decide (f = f')) as [<-|Hff].
    + simplify_eq.
      assert (Hin2 : (it', k') ∈ std_list.erase it bucket).
      { apply elem_of_erase. split; [done|]. simpl. by eapply Hother. }
      rewrite decide_False by (intros He; rewrite He in Hin2; by apply not_elem_of_nil in Hin2).
      eauto.
    + eauto.
  - intros f' bucket'. rewrite lookup_erase_from_bucket.
    repeat case_decide; try done; [by intros [= <-] | apply Hnonempty].
  - intros f' bucket'. rewrite lookup_erase_from_bucket.
    repeat case_decide; try done.
    + intros [= <-]. apply iterators_erase_NoDup. by eapply Hdistinct.
    + apply Hdistinct.
  - intros f' bucket' it' k'. rewrite lookup_erase_from_bucket.
    assert (Hkeep : ∀ g b, m_frequency_buckets p !! g = Some b →
              (it', k') ∈ b → k' ≠ k →
              delete k (m_key_frequency p) !! k' = Some g
              ∧ delete k (m_key_to_iterator p) !! k' = Some it'
              ∧ it' < next_node p).
    { intros g b Hb Hin' Hne. rewrite !lookup_delete_ne by done. by eapply Hnode. }
    repeat case_decide; try done.
    + intros [= <-] Hin'. apply elem_of_erase in Hin' as [Hin' Hne]. simpl in Hne.
      subst f'. eapply Hkeep; [done..|]. intros ->. by apply Hne, Hself.
    + intros Hb Hin'. eapply Hkeep; [done..|]. intros ->.
      destruct (Hnode f' bucket' it' k Hb Hin') as (Hf' & _). congruence.
  - intros k' f'. rewrite lookup_delete. case_decide; [done|]. apply Harrived.
  - intros f' bucket'. rewrite lookup_erase_from_bucket.
    repeat case_decide; try done.
    + intros [= <-]. apply sorted_erase. by eapply Hsorted.
    + apply Hsorted.
Qed.

Lemma arrival_insert_ne k now arrived (n : nat * K) :
  std_list.node_key n ≠ k → arrival (<[k := now]> arrived) n = arrival arrived n.
Proof. intros Hne. unfold arrival. by rewrite lookup_insert_ne. Qed.

Lemma consistent_attach f k p arrived now :
  consistent p arrived now →
  m_key_frequency p !! k = None →
  SizeT.in_range f →
  consistent (attach f k p) (<[k := now]> arrived) (S now).
Proof.
  intros [Hrange Htracked Hnonempty Hdistinct Hnode Harrived Hsorted] Hnew Hf.
  set (b0 := default [] (m_frequency_buckets p !! f)).
  assert (Hb0 : ∀ n, n ∈ b0 → m_frequency_buckets p !! f = Some b0).
  { unfold b0. intros n. destruct (m_frequency_buckets p !! f); simpl; [done|].
    by intros ?%not_elem_of_nil. }
  assert (Hold : ∀ g b it' k', m_frequency_buckets p !! g = Some b →
            (it', k') ∈ b →
            k' ≠ k ∧ m_key_frequency p !! k' = Some g
            ∧ m_key_to_iterator p !! k' = Some it' ∧ it' < next_node p
            ∧ arrival (<[k := now]> arrived) (it', k') = arrival arrived (it', k')
            ∧ arrival arrived (it', k') < now).
  { intros g b it' k' Hb Hin. destruct (Hnode g b it' k' Hb Hin) as (Hg & Hit & Hlt).
    assert (k' ≠ k) by congruence.
    destruct (Harrived k' g Hg) as (t & Ht & Htlt).
    repeat split; try done.
    - by apply arrival_insert_ne.
    - unfold arrival; simpl. by rewrite Ht. }
  assert (Hext : ∀ g b, m_frequency_buckets p !! g = Some b →
            arrival (<[k := now]> arrived) <$> b = arrival arrived <$> b).
  { intros g b Hb. apply list_fmap_ext. intros i [it' k'] Hi.
    apply list_elem_of_lookup_2 in Hi. by apply (Hold g b it' k' Hb Hi). }
  assert (Hsorted0 : StronglySorted lt (arrival (<[k := now]> arrived) <$> b0)).
  { unfold b0. destruct (m_frequency_buckets p !! f) as [b|] eqn:Hb; simpl.
    - rewrite (Hext f b Hb). by eapply Hsorted.
    - constructor. }
  assert (Hdistinct0 : NoDup (std_list.iterators b0)).
  { unfold b0. destruct (m_frequency_buckets p !! f) as [b|] eqn:Hb; simpl.
    - by eapply Hdistinct.
    - constructor. }
  split; simpl.
  - intros k' f'. rewrite lookup_insert. case_decide; [by intros [= <-]|].
    apply Hrange.
  - intros k' f'. rewrite !lookup_insert. case_decide as Hk.
    + intros [= <-]. subst k'. eexists _, _. split; [done|].
      rewrite lookup_push_to_bucket, decide_True by done.
      split; [done|]. apply elem_of_push_back. by right.
    + intros Hf'. destruct (Htracked k' f' Hf') as (it' & b & Hit' & Hb & Hin).
      exists it'. rewrite lookup_push_to_bucket.
      destruct (decide (f = f')) as [<-|].
      * eexists. split; [done|]. split; [done|].
        apply elem_of_push_back. left. fold b0. unfold b0. by rewrite Hb.
      * eauto.
  - intros g b. rewrite lookup_push_to_bucket. case_decide; [|apply Hnonempty].
    intros [= <-]. unfold std_list.push_back. intros Hnil.
    by apply app_nil in Hnil as [_ ?].
  - intros g b. rewrite lookup_push_to_bucket. case_decide; [|apply Hdistinct].
    intros [= <-]. apply iterators_push_back_NoDup; [done|].
    intros [it' k'] Hin. simpl.
    destruct (Hold f b0 it' k' (Hb0 _ Hin) Hin) as (_ & _ & _ & Hlt & _). lia.
  - intros g b it' k'. rewrite lookup_push_to_bucket, !lookup_insert.
    case_decide as Hg.
    + intros [= <-]. subst g. intros [Hin|[= -> ->]]%elem_of_push_back.
      * destruct (Hold f b0 it' k' (Hb0 _ Hin) Hin) as (Hne & ? & ? & ? & _).
        rewrite !decide_False by done. split; [done|]. split; [done|lia].
      * rewrite !decide_True by done. split; [done|]. split; [done|lia].
    + intros Hb Hin.
      destruct (Hold g b it' k' Hb Hin) as (Hne & ? & ? & ? & _).
      rewrite !decide_False by done. split; [done|]. split; [done|lia].
  - intros k' f'. rewrite !lookup_insert. case_decide.
    + intros _. exists now. split; [done|lia].
    + intros Hf'. destruct (Harrived k' f' Hf') as (t & Ht & Hlt).
      exists t. split; [done|lia].
  - intros g b. rewrite lookup_push_to_bucket. case_decide.
    + intros [= <-]. apply sorted_push_back; [done|].
      intros [it' k'] Hin.
      destruct (Hold f b0 it' k' (Hb0 _ Hin) Hin) as (_ & _ & _ & _ & -> & Hlt).
      unfold arrival at 2; simpl. by rewrite lookup_insert_eq.
    + intros Hb. rewrite (Hext g b Hb). by eapply Hsorted.
Qed.

Lemma consistent_increment_frequency k p arrived now :
  consistent p arrived now →
  consistent (increment_frequency k p)
    (match m_key_frequency p !! k with
     | Some _ => <[k := now]> arrived
     | None => arrived
     end) (S now).
Proof.
  intros Hc. destruct (m_key_frequency p !! k) as [f|] eqn:Hf.
  - rewrite (increment_frequency_attach k f p Hf).
    apply consistent_attach.
    + by apply consistent_remove_key.
    + unfold remove_key. rewrite Hf.
      destruct (m_frequency_buckets p !! f);
        [destruct (m_key_to_iterator p !! k)|]; simpl; apply lookup_delete_eq.
    + apply Z.mod_pos_bound. reflexivity.
  - unfold increment_frequency. rewrite Hf.
    eapply consistent_ghosts; [exact Hc|done|lia].
Qed.

(** Every state of a history is consistent. *)
Lemma reachable_consistent p arrived now :
  reachable p arrived now → consistent p arrived now.
Proof.
  induction 1 as [|p arrived now c Hreach IH Hperm]; [apply consistent_make|].
  destruct c as [k|k|k| |k|]; simpl in *.
  - by apply consistent_increment_frequency.
  - rewrite on_insert_attach. apply consistent_attach; [done..|].
    split; [done|reflexivity].
  - by apply consistent_increment_frequency.
  - eapply consistent_ghosts; [exact IH|done|lia].
  - eapply consistent_ghosts; [by apply consistent_remove_key| |lia].
    intros k' [f Hf]. unfold remove_key in Hf.
    destruct (decide (k' = k)) as [->|]; [|by rewrite lookup_delete_ne].
    destruct (m_key_frequency p !! k) as [g|] eqn:Hg.
    + destruct (m_frequency_buckets p !! g);
        [destruct (m_key_to_iterator p !! k)|]; simpl in Hf;
        by rewrite lookup_delete_eq in Hf.
    + congruence.
  - apply consistent_clear.
Qed.
End facts.

End lfu_facts.

Module lfu_victim.
Import lfu_eviction_policy lfu_history std_list_facts lfu_facts std_map_facts.
Section facts.
Context {K : Type} `{Countable K}.
Implicit Types p : lfu_eviction_policy.t K.

(** What [select_victim] returns in a consistent state. *)
Lemma select_victim_consistent p arrived now :
  consistent p arrived now →
  m_key_frequency p ≠ ∅ →
  ∃ f it victim rest t,
    head (std_map.entries (m_frequency_buckets p))
      = Some (f, (it, victim) :: rest)
    ∧ (∀ g bucket, m_frequency_buckets p !! g = Some bucket → (f ≤ g)%Z)
    ∧ select_victim p = Ok victim
    ∧ m_key_frequency p !! victim = Some f
    ∧ (∀ k g, m_key_frequency p !! k = Some g → (f ≤ g)%Z)
    ∧ arrived !! victim = Some t
    ∧ StronglySorted lt (arrival arrived <$> (it, victim) :: rest)
    ∧ (∀ k, k ≠ victim → m_key_frequency p !! k = Some f →
            ∃ it' t', (it', k) ∈ rest ∧ arrived !! k = Some t' ∧ t < t').
Proof.
  intros Hconsistent Hne.
  destruct Hconsistent
    as [Hrange Htracked Hnonempty Hdistinct Hnode Harrived Hsorted].
  apply map_choose in Hne as (k0 & f0 & Hk0).
  destruct (Htracked k0 f0 Hk0) as (it0 & b0 & _ & Hb0 & _).
  destruct (std_map.entries (m_frequency_buckets p)) as [|[f b] entries] eqn:He.
  { apply entries_nil in He. rewrite He in Hb0. by rewrite lookup_empty in Hb0. }
  assert (Hb : m_frequency_buckets p !! f = Some b).
  { apply elem_of_entries. rewrite He. by left. }
  destruct b as [|[it victim] rest]; [by apply Hnonempty in Hb|].
  destruct (Hnode f _ it victim Hb) as (Hf & Hit & _); [by left|].
  destruct (Harrived victim f Hf) as (t & Ht & _).
  assert (Hleast : ∀ g bucket, m_frequency_buckets p !! g = Some bucket → (f ≤ g)%Z).
  { intros g bucket Hg. by eapply entries_head_least. }
  exists f, it, victim, rest, t. split; [done|]. split; [done|].
  split.
  { unfold select_victim. rewrite bool_decide_eq_false_2.
    - by rewrite He.
    - intros Hempty. by rewrite Hempty, lookup_empty in Hb. }
  split; [done|]. split.
  { intros k g Hg. destruct (Htracked k g Hg) as (? & bucket & _ & Hbucket & _).
    by eapply Hleast. }
  split; [done|]. split; [by eapply Hsorted|].
  intros k Hk Hkf.
  destruct (Htracked k f Hkf) as (it' & bucket & _ & Hbucket & Hin).
  rewrite Hb in Hbucket. injection Hbucket as <-.
  apply elem_of_cons in Hin as [[= -> ->]|Hin]; [done|].
  destruct (Harrived k f Hkf) as (t' & Ht' & _).
  exists it', t'. split; [done|]. split; [done|].
  pose proof (Hsorted f _ Hb) as Hs. simpl in Hs.
  apply StronglySorted_inv in Hs as [_ Hall].
  rewrite Forall_fmap, Forall_forall in Hall. specialize (Hall _ Hin).
  unfold arrival in Hall; simpl in Hall. by rewrite Ht, Ht' in Hall.
Qed.

(** C7, amended: in every state of a history in which [on_insert] is called
    only for a key that is not tracked, and in which a key is tracked,
    [select_victim] returns the head of the bucket with the least frequency;
    the bucket is ordered by arrival, so that its head arrived first; the
    victim has the least frequency of all tracked keys and, among the keys
    of that frequency, is the one that was inserted or promoted longest
    ago. *)
Theorem lfu_victim_is_oldest_of_the_coldest p arrived now :
  reachable p arrived now →
  m_key_frequency p ≠ ∅ →
  ∃ f it victim rest t,
    head (std_map.entries (m_frequency_buckets p))
      = Some (f, (it, victim) :: rest)
    ∧ (∀ g bucket, m_frequency_buckets p !! g = Some bucket → (f ≤ g)%Z)
    ∧ select_victim p = Ok victim
    ∧ m_key_frequency p !! victim = Some f
    ∧ (∀ k g, m_key_frequency p !! k = Some g → (f ≤ g)%Z)
    ∧ arrived !! victim = Some t
    ∧ StronglySorted lt (arrival arrived <$> (it, victim) :: rest)
    ∧ (∀ k, k ≠ victim → m_key_frequency p !! k = Some f →
            ∃ it' t', (it', k) ∈ rest ∧ arrived !! k = Some t' ∧ t < t').
Proof.
  intros Hreach. apply (select_victim_consistent p arrived now).
  by apply reachable_consistent.
Qed.
End facts.

Lemma lfu_victim_is_oldest_of_the_coldest_witness :
  select_victim lfu_example = Ok 2%Z.
Proof.
  assert (Hreach : reachable lfu_example lfu_example_arrived 3).
  { repeat (eapply (reachable_call _ _ _ _); [|]); try apply reachable_make;
      vm_compute; done. }
  assert (Hne : m_key_frequency lfu_example ≠ ∅).
  { intros Hempty. apply (f_equal (λ m : gmap Z Z, m !! 1%Z)) in Hempty.
    vm_compute in Hempty. discriminate. }
  destruct (lfu_victim_is_oldest_of_the_coldest _ _ _ Hreach Hne)
    as (f & it & victim & rest & t & Hhead & _ & Hselect & _).
  vm_compute in Hhead. injection Hhead as <- <- <- <-. exact Hselect.
Defined.

(** C7, as stated, fails in states the public members reach: [on_insert]
    has no guard against a key that is tracked already and leaves the node
    of the first insertion in bucket 1.  After
    [on_insert(5); on_insert(5); on_access(5); on_insert(6)] the victim is
    key 5, whose frequency is 2, although key 6 has frequency 1; after
    [on_insert(5); on_insert(5); remove_key(5); on_insert(7)] the victim is
    key 5, which is not tracked, although key 7 is. *)
Lemma lfu_victim_after_a_second_on_insert :
  select_victim lfu_inserted_twice = Ok 5%Z
  ∧ m_key_frequency lfu_inserted_twice !! 5%Z = Some 2%Z
  ∧ m_key_frequency lfu_inserted_twice !! 6%Z = Some 1%Z
  ∧ select_victim lfu_stale_node = Ok 5%Z
  ∧ m_key_frequency lfu_stale_node !! 5%Z = None
  ∧ m_key_frequency lfu_stale_node !! 7%Z = Some 1%Z.
Proof. repeat split; vm_compute; reflexivity. Qed.
End lfu_victim.

(** ** LRU and MRU keep their list and their iterator map in step *)

Module lru_tracking.
Import lru_eviction_policy std_list_facts.
Section facts.
Context {K : Type} `{Countable K}.
Implicit Types p : lru_eviction_policy.t K.
Implicit Types l : list (nat * K).

Lemma lru_lookup_node_elem_of it k l :
  NoDup (std_list.iterators l) → (it, k) ∈ l →
  std_list.lookup_node it l = Some (it, k).
Proof.
  intros Hnd Hin. unfold std_list.lookup_node.
  destruct (list_find _ l) as [[i [it' k']]|] eqn:Hfind; simpl.
  - apply list_find_Some in Hfind as (Hi & Hit & _). simpl in Hit. subst it'.
    f_equal. f_equal. apply list_elem_of_lookup_2 in Hi.
    by eapply iterator_determines_key.
  - apply list_find_None in Hfind. rewrite Forall_forall in Hfind.
    by destruct (Hfind _ Hin).
Qed.

Lemma lru_elem_of_splice_to_front it k l n :
  NoDup (std_list.iterators l) → (it, k) ∈ l →
  n ∈ std_list.splice_to_front it l ↔ n ∈ l.
Proof.
  intros Hnd Hin. unfold std_list.splice_to_front.
  rewrite (lru_lookup_node_elem_of it k l Hnd Hin).
  rewrite elem_of_cons, elem_of_erase. split.
  - intros [->|[? _]]; done.
  - intros Hn. destruct n as [it' k']. simpl.
    destruct (decide (it' = it)) as [->|]; [left|by right].
    f_equal. by eapply iterator_determines_key.
Qed.

Lemma lru_iterators_splice_to_front_NoDup it k l :
  NoDup (std_list.iterators l) → (it, k) ∈ l →
  NoDup (std_list.iterators (std_list.splice_to_front it l)).
Proof.
  intros Hnd Hin. unfold std_list.splice_to_front.
  rewrite (lru_lookup_node_elem_of it k l Hnd Hin).
  unfold std_list.iterators. simpl. constructor.
  - intros Hit. apply list_elem_of_fmap in Hit as (n & Hn & Hin').
    apply elem_of_erase in Hin' as [_ Hne]. by rewrite <- Hn in Hne.
  - by apply iterators_erase_NoDup.
Qed.

Lemma lru_wf_make : wf (make (K:=K)).
Proof.
  split; [constructor|]. split.
  - intros k it. simpl. rewrite lookup_empty. split; [done|].
    by intros ?%not_elem_of_nil.
  - intros it k. simpl. by intros ?%not_elem_of_nil.
Qed.

Lemma lru_wf_clear p : wf (clear p).
Proof.
  split; [constructor|]. split.
  - intros k it. simpl. rewrite lookup_empty. split; [done|].
    by intros ?%not_elem_of_nil.
  - intros it k. simpl. by intros ?%not_elem_of_nil.
Qed.

Lemma lru_wf_on_insert k p :
  wf p → m_key_to_iterator p !! k = None → wf (on_insert k p).
Proof.
  intros (Hnd & Hiff & Hlt) Hnew. split; [|split]; simpl.
  - unfold std_list.push_front, std_list.iterators. simpl. constructor; [|done].
    intros Hin. apply list_elem_of_fmap in Hin as ([it k'] & Hit & Hin).
    simpl in Hit. subst it. apply Hlt in Hin. lia.
  - intros k' it. unfold std_list.push_front. rewrite elem_of_cons, lookup_insert.
    case_decide as Hk.
    + subst k'. split; [intros [= <-]; by left|].
      intros [[= ->]|Hin]; [done|]. apply Hiff in Hin. congruence.
    + rewrite Hiff. split; [by right|]. intros [[= _ ->]|Hin]; done.
  - intros it k'. unfold std_list.push_front. rewrite elem_of_cons.
    intros [[= -> ->]|Hin]; [lia|]. apply Hlt in Hin. lia.
Qed.

Lemma lru_wf_on_access k p : wf p → wf (on_access k p).
Proof.
  intros (Hnd & Hiff & Hlt). unfold on_access.
  destruct (m_key_to_iterator p !! k) as [it|] eqn:Hit; [|done].
  assert (Hin : (it, k) ∈ m_access_list p) by by apply Hiff.
  split; [|split]; simpl.
  - by eapply lru_iterators_splice_to_front_NoDup.
  - intros k' it'. by rewrite (lru_elem_of_splice_to_front it k).
  - intros it' k'. rewrite (lru_elem_of_splice_to_front it k) by done. apply Hlt.
Qed.

Lemma lru_wf_remove_key k p : wf p → wf (remove_key k p).
Proof.
  intros (Hnd & Hiff & Hlt). unfold remove_key.
  destruct (m_key_to_iterator p !! k) as [it|] eqn:Hit; [|done].
  assert (Hin : (it, k) ∈ m_access_list p) by by apply Hiff.
  split; [|split]; simpl.
  - by apply iterators_erase_NoDup.
  - intros k' it'. rewrite elem_of_erase, lookup_delete. simpl.
    case_decide as Hk.
    + subst k'. split; [done|]. intros [Hin' Hne]. apply Hiff in Hin'. congruence.
    + rewrite Hiff. split; [|tauto]. intros Hin'. split; [done|]. intros ->.
      apply Hk. by eapply iterator_determines_key.
  - intros it' k'. rewrite elem_of_erase. intros [Hin' _]. by eapply Hlt.
Qed.

Lemma lru_tracked_remove_key k p :
  dom (m_key_to_iterator (remove_key k p)) = dom (m_key_to_iterator p) ∖ {[k]}.
Proof.
  unfold remove_key. destruct (m_key_to_iterator p !! k) as [it|] eqn:Hit; simpl.
  - by rewrite dom_delete_L.
  - apply not_elem_of_dom in Hit. symmetry.
    by apply difference_disjoint_L, disjoint_singleton_r.
Qed.

Lemma lru_tracked_on_access k p :
  dom (m_key_to_iterator (on_access k p)) = dom (m_key_to_iterator p).
Proof. unfold on_access. by destruct (m_key_to_iterator p !! k). Qed.

Lemma lru_tracked_empty p :
  wf p → m_access_list p = [] → dom (m_key_to_iterator p) = ∅.
Proof.
  intros (_ & Hiff & _) Hnil. apply dom_empty_iff_L, map_empty. intros k.
  destruct (m_key_to_iterator p !! k) as [it|] eqn:Hit; [|done].
  apply Hiff in Hit. rewrite Hnil in Hit. by apply not_elem_of_nil in Hit.
Qed.

Lemma lru_node_tracked it k p :
  wf p → (it, k) ∈ m_access_list p → k ∈ dom (m_key_to_iterator p).
Proof. intros (_ & Hiff & _) Hin. apply elem_of_dom. exists it. by apply Hiff. Qed.

#[global] Instance lru_laws : EvictionLaws K (lru_eviction_policy.t K).
Proof.
  split; simpl.
  - intros k e Hwf Hnew _. split.
    + apply lru_wf_on_insert; [done|]. by apply not_elem_of_dom.
    + by rewrite dom_insert_L.
  - intros k e Hwf. split; [by apply lru_wf_on_access | apply lru_tracked_on_access].
  - intros k e Hwf. split; [by apply lru_wf_on_access | apply lru_tracked_on_access].
  - intros k e Hwf. split; [by apply lru_wf_remove_key | apply lru_tracked_remove_key].
  - intros e. split; [apply lru_wf_clear | simpl; apply dom_empty_L].
  - intros e Hwf. unfold select_victim, std_list.back.
    destruct (list.last (m_access_list e)) as [[it victim]|] eqn:Hlast; simpl.
    + apply last_Some in Hlast as [l' Hl'].
      assert (Hin : (it, victim) ∈ m_access_list e).
      { rewrite Hl'. apply elem_of_app. right. by left. }
      split; [by eapply lru_node_tracked|].
      split; [by apply lru_wf_remove_key | apply lru_tracked_remove_key].
    + apply last_None in Hlast. split; [by apply lru_tracked_empty|].
      split; [done|]. split; [done|by apply lru_tracked_empty].
Qed.

#[global] Instance mru_laws : EvictionLaws K (mru_eviction_policy.t K).
Proof.
  split; simpl.
  - intros k [e] Hwf Hnew _. simpl in *. split.
    + apply lru_wf_on_insert; [done|]. by apply not_elem_of_dom.
    + unfold mru_eviction_policy.m_key_to_iterator; simpl. by rewrite dom_insert_L.
  - intros k [e] Hwf. split; [by apply lru_wf_on_access | apply lru_tracked_on_access].
  - intros k [e] Hwf. split; [by apply lru_wf_on_access | apply lru_tracked_on_access].
  - intros k [e] Hwf. split; [by apply lru_wf_remove_key | apply lru_tracked_remove_key].
  - intros [e]. split; [apply lru_wf_clear | simpl; apply dom_empty_L].
  - intros [e] Hwf. unfold mru_eviction_policy.select_victim, std_list.front.
    unfold mru_eviction_policy.m_access_list; simpl in *.
    destruct (m_access_list e) as [|[it victim] l'] eqn:Hl; simpl.
    + split; [by apply lru_tracked_empty|].
      split; [done|]. split; [done|by apply lru_tracked_empty].
    + assert (Hin : (it, victim) ∈ m_access_list e) by (rewrite Hl; by left).
      split; [by eapply lru_node_tracked|].
      split; [by apply lru_wf_remove_key | apply lru_tracked_remove_key].
Qed.
End facts.
End lru_tracking.

(** ** FIFO tracks the keys its existence map marks as present *)

Module fifo_tracking.
Import fifo_eviction_policy.
Section facts.
Context {K : Type} `{Countable K}.
Implicit Types p : fifo_eviction_policy.t K.

Lemma fifo_elem_of_tracked k p : k ∈ tracked p ↔ m_key_exists p !! k = Some true.
Proof.
  unfold tracked. rewrite elem_of_dom. split.
  - intros [b Hb]. apply map_lookup_filter_Some in Hb as [Hb Htrue].
    simpl in Htrue. by subst b.
  - intros Hk. exists true. by apply map_lookup_filter_Some.
Qed.

Lemma fifo_pop_until_existing_spec (exists_ : gmap K bool) queue :
  match pop_until_existing exists_ queue with
  | (Ok k, rest) =>
      exists_ !! k = Some true
      ∧ ∃ skipped, queue = skipped ++ k :: rest
                   ∧ ∀ j, j ∈ skipped → exists_ !! j ≠ Some true
  | (Throw ex, rest) =>
      rest = [] ∧ is_runtime_error ex = true
      ∧ ∀ j, j ∈ queue → exists_ !! j ≠ Some true
  end.
Proof.
  induction queue as [|candidate queue IH]; simpl.
  - split; [done|]. split; [done|]. by intros j ?%not_elem_of_nil.
  - destruct (exists_ !! candidate) as [[]|] eqn:Hc.
    + split; [done|]. exists []. split; [done|]. by intros j ?%not_elem_of_nil.
    + destruct (pop_until_existing exists_ queue) as [[k|ex] rest].
      * destruct IH as (Hk & skipped & -> & Hskipped). split; [done|].
        exists (candidate :: skipped). split; [done|].
        intros j [->|Hj]%elem_of_cons; [congruence|by apply Hskipped].
      * destruct IH as (-> & Hex & Hall). split; [done|]. split; [done|].
        intros j [->|Hj]%elem_of_cons; [congruence|by apply Hall].
    + destruct (pop_until_existing exists_ queue) as [[k|ex] rest].
      * destruct IH as (Hk & skipped & -> & Hskipped). split; [done|].
        exists (candidate :: skipped). split; [done|].
        intros j [->|Hj]%elem_of_cons; [congruence|by apply Hskipped].
      * destruct IH as (-> & Hex & Hall). split; [done|]. split; [done|].
        intros j [->|Hj]%elem_of_cons; [congruence|by apply Hall].
Qed.

Lemma fifo_tracked_remove_key k p : tracked (remove_key k p) = tracked p ∖ {[k]}.
Proof.
  apply set_eq. intros j.
  rewrite elem_of_difference, elem_of_singleton, !fifo_elem_of_tracked.
  unfold remove_key. destruct (m_key_exists p !! k) as [b|] eqn:Hk; simpl.
  - rewrite lookup_insert. case_decide as Hkj.
    + subst j. split; [done|]. by intros [_ ?].
    + split; [|tauto]. intros Hj. split; [done|]. congruence.
  - split; [|tauto]. intros Hj. split; [done|]. congruence.
Qed.

Lemma fifo_wf_remove_key_queue k (exists_ : gmap K bool) (queue' : list K) :
  (∀ j, exists_ !! j = Some true → j ≠ k → j ∈ queue') →
  wf (remove_key k {| m_insertion_queue := queue'; m_key_exists := exists_ |}).
Proof.
  intros Hq j. unfold remove_key; simpl.
  destruct (exists_ !! k) as [b|] eqn:Hk; simpl.
  - rewrite lookup_insert. case_decide; [done|]. intros Hj. by apply Hq.
  - intros Hj. apply Hq; [done|]. congruence.
Qed.

#[global] Instance fifo_laws : EvictionLaws K (fifo_eviction_policy.t K).
Proof.
  split; simpl.
  - intros k e Hwf Hnew _. split.
    + intros j. simpl. rewrite lookup_insert, elem_of_app, list_elem_of_singleton.
      case_decide; [by right|]. intros Hj. left. by apply Hwf.
    + apply set_eq. intros j.
      rewrite elem_of_union, elem_of_singleton, !fifo_elem_of_tracked. simpl.
      rewrite lookup_insert. case_decide as Hkj.
      * subst j. split; [by left|done].
      * split; [by right|]. by intros [?|?].
  - done.
  - done.
  - intros k [queue exists_] Hwf. split; [|apply fifo_tracked_remove_key].
    apply fifo_wf_remove_key_queue. intros j Hj _. by apply Hwf.
  - intros e. split; [by intros j; simpl; rewrite lookup_empty|].
    apply set_eq. intros j. rewrite fifo_elem_of_tracked. simpl.
    rewrite lookup_empty. split; [done|]. by intros ?%not_elem_of_empty.
  - intros [queue exists_] Hwf. unfold select_victim; simpl.
    pose proof (fifo_pop_until_existing_spec exists_ queue) as Hpop.
    destruct (pop_until_existing exists_ queue) as [[victim|ex] rest].
    + destruct Hpop as (Hvictim & skipped & -> & Hskipped).
      split; [by apply fifo_elem_of_tracked|].
      split; [|by rewrite fifo_tracked_remove_key].
      apply fifo_wf_remove_key_queue. intros j Hj Hne.
      specialize (Hwf j Hj). simpl in Hwf.
      apply elem_of_app in Hwf as [Hin|[->|Hin]%elem_of_cons]; try done.
      by apply Hskipped in Hin.
    + destruct Hpop as (-> & Hex & Hall).
      assert (Hnone : ∀ j, exists_ !! j ≠ Some true).
      { intros j Hj. apply (Hall j); [|done]. by apply (Hwf j). }
      assert (Hempty : ∀ q, tracked {| m_insertion_queue := q;
                                       m_key_exists := exists_ |} = ∅).
      { intros q. apply set_eq. intros j. rewrite fifo_elem_of_tracked. simpl.
        split; [by intros ?%Hnone|by intros ?%not_elem_of_empty]. }
      split; [apply Hempty|]. split; [done|]. split; [|apply Hempty].
      intros j Hj. by apply Hnone in Hj.
Qed.
End facts.
End fifo_tracking.

(** ** LFU and MFU track the keys of their frequency map *)

Module frequency_tracking.
Import lfu_eviction_policy lfu_history lfu_facts lfu_victim std_map_facts.
Section facts.
Context {K : Type} `{Countable K}.
Implicit Types p : lfu_eviction_policy.t K.

Lemma lfu_tracked_increment_frequency k p :
  dom (m_key_frequency (increment_frequency k p)) = dom (m_key_frequency p).
Proof.
  unfold increment_frequency.
  destruct (m_key_frequency p !! k) as [f|] eqn:Hk; [|done]. simpl.
  rewrite dom_insert_L. apply subseteq_union_1_L, singleton_subseteq_l.
  by apply elem_of_dom.
Qed.

Lemma lfu_tracked_remove_key k p :
  dom (m_key_frequency (remove_key k p)) = dom (m_key_frequency p) ∖ {[k]}.
Proof.
  unfold remove_key. destruct (m_key_frequency p !! k) as [f|] eqn:Hk.
  - destruct (m_frequency_buckets p !! f);
      [destruct (m_key_to_iterator p !! k)|]; simpl; by rewrite dom_delete_L.
  - apply not_elem_of_dom in Hk. symmetry.
    by apply difference_disjoint_L, disjoint_singleton_r.
Qed.

Lemma lfu_wf_on_insert k p :
  frequency_model.wf p → m_key_frequency p !! k = None →
  frequency_model.wf (on_insert k p).
Proof.
  intros (arrived & now & Hc) Hnew. exists (<[k := now]> arrived), (S now).
  rewrite on_insert_attach. apply consistent_attach; [done..|].
  split; [done|reflexivity].
Qed.

Lemma lfu_wf_increment_frequency k p :
  frequency_model.wf p → frequency_model.wf (increment_frequency k p).
Proof.
  intros (arrived & now & Hc). eexists _, _.
  by apply consistent_increment_frequency.
Qed.

Lemma lfu_wf_remove_key k p :
  frequency_model.wf p → frequency_model.wf (remove_key k p).
Proof.
  intros (arrived & now & Hc). exists arrived, now.
  by apply consistent_remove_key.
Qed.

Lemma lfu_wf_clear p : frequency_model.wf (clear p).
Proof. exists ∅, 0. apply consistent_clear. Qed.

(** Without tracked keys there are no buckets. *)
Lemma lfu_buckets_empty p arrived now :
  consistent p arrived now → m_key_frequency p = ∅ →
  m_frequency_buckets p = ∅.
Proof.
  intros [Hrange Htracked Hnonempty Hdistinct Hnode Harrived Hsorted] Hempty.
  apply map_empty. intros f.
  destruct (m_frequency_buckets p !! f) as [[|[it k] bucket]|] eqn:Hf; [..|done].
  - by apply Hnonempty in Hf.
  - destruct (Hnode f _ it k Hf) as (Hk & _); [by left|].
    by rewrite Hempty, lookup_empty in Hk.
Qed.

#[global] Instance lfu_laws : EvictionLaws K (lfu_eviction_policy.t K).
Proof.
  split; simpl.
  - intros k e Hwf Hnew _. split.
    + apply lfu_wf_on_insert; [done|]. by apply not_elem_of_dom.
    + by rewrite dom_insert_L.
  - intros k e Hwf.
    split; [by apply lfu_wf_increment_frequency | apply lfu_tracked_increment_frequency].
  - intros k e Hwf.
    split; [by apply lfu_wf_increment_frequency | apply lfu_tracked_increment_frequency].
  - intros k e Hwf. split; [by apply lfu_wf_remove_key | apply lfu_tracked_remove_key].
  - intros e. split; [apply lfu_wf_clear | simpl; apply dom_empty_L].
  - intros e Hwf. destruct (decide (m_key_frequency e = ∅)) as [Hempty|Hne].
    + destruct Hwf as (arrived & now & Hc).
      unfold select_victim.
      rewrite (lfu_buckets_empty e arrived now Hc Hempty), bool_decide_eq_true_2
        by done.
      rewrite Hempty, dom_empty_L. repeat split; try done.
      by exists arrived, now.
    + destruct Hwf as (arrived & now & Hc).
      destruct (select_victim_consistent e arrived now Hc Hne)
        as (f & it & victim & rest & t & _ & _ & -> & Hf & _).
      split; [by apply elem_of_dom|].
      split; [apply lfu_wf_remove_key; by exists arrived, now
             |apply lfu_tracked_remove_key].
Qed.

(** MFU *)
Lemma lfu_first_nonempty_head (entries : list (Z * list (nat * K))) :
  (∀ f bucket, (f, bucket) ∈ entries → bucket ≠ []) →
  entries ≠ [] →
  ∃ f n bucket, (f, n :: bucket) ∈ entries ∧ first_nonempty entries = Some n.
Proof.
  intros Hall Hne. destruct entries as [|[f [|n bucket]] entries]; [done|..].
  - by destruct (Hall f []); [left|].
  - exists f, n, bucket. split; [by left|done].
Qed.

#[global] Instance mfu_laws : EvictionLaws K (mfu_eviction_policy.t K).
Proof.
  split; simpl.
  - intros k [e] Hwf Hnew _. simpl in *. split.
    + apply lfu_wf_on_insert; [done|]. by apply not_elem_of_dom.
    + unfold mfu_eviction_policy.m_key_frequency; simpl. by rewrite dom_insert_L.
  - intros k [e] Hwf.
    split; [by apply lfu_wf_increment_frequency | apply lfu_tracked_increment_frequency].
  - intros k [e] Hwf.
    split; [by apply lfu_wf_increment_frequency | apply lfu_tracked_increment_frequency].
  - intros k [e] Hwf. split; [by apply lfu_wf_remove_key | apply lfu_tracked_remove_key].
  - intros [e]. split; [apply lfu_wf_clear | simpl; apply dom_empty_L].
  - intros [e] Hwf. simpl in Hwf. destruct Hwf as (arrived & now & Hc).
    unfold mfu_eviction_policy.select_victim,
      mfu_eviction_policy.m_frequency_buckets,
      mfu_eviction_policy.m_key_frequency; simpl.
    destruct (decide (m_key_frequency e = ∅)) as [Hempty|Hne].
    + rewrite (lfu_buckets_empty e arrived now Hc Hempty), bool_decide_eq_true_2
        by done.
      rewrite Hempty, dom_empty_L. repeat split; try done.
      by exists arrived, now.
    + destruct Hc as [Hrange Htracked Hnonempty Hdistinct Hnode Harrived Hsorted].
      apply map_choose in Hne as (k0 & f0 & Hk0).
      destruct (Htracked k0 f0 Hk0) as (it0 & b0 & _ & Hb0 & _).
      rewrite bool_decide_eq_false_2
        by (intros Hempty; by rewrite Hempty, lookup_empty in Hb0).
      destruct (lfu_first_nonempty_head (std_map.rentries (m_frequency_buckets e)))
        as (f & [it victim] & bucket & Hin & ->).
      { intros f bucket Hin. unfold std_map.rentries in Hin.
        apply elem_of_reverse, elem_of_entries in Hin. by eapply Hnonempty. }
      { intros Hnil. unfold std_map.rentries in Hnil.
        apply (f_equal reverse) in Hnil. rewrite reverse_involutive in Hnil.
        apply entries_nil in Hnil. by rewrite Hnil, lookup_empty in Hb0. }
      unfold std_map.rentries in Hin.
      apply elem_of_reverse, elem_of_entries in Hin.
      destruct (Hnode f _ it victim Hin) as (Hf & _); [by left|].
      simpl. split; [by apply elem_of_dom|].
      split; [|apply lfu_tracked_remove_key].
      apply lfu_wf_remove_key. exists arrived, now. by split.
Qed.
End facts.
End frequency_tracking.

(** ** RANDOM keeps its key vector and its index map in step *)

Module random_tracking.
Import random_eviction_policy.
Section facts.
Context {K : Type} `{Countable K} {G : Type} `{!libc.Rand G}.
Implicit Types p : random_eviction_policy.t K G.
Local Open Scope Z_scope.

Lemma random_wf_index_lt k i p :
  wf p → m_key_to_index p !! k = Some i →
  0 ≤ i ∧ (Z.to_nat i < length (m_keys p))%nat
  ∧ m_keys p !! Z.to_nat i = Some k.
Proof.
  intros (_ & Hiff & _) Hk. apply Hiff in Hk as [Hi Hk].
  split; [done|]. split; [|done]. by eapply lookup_lt_Some.
Qed.

Lemma random_elem_of_tracked k p :
  wf p → k ∈ dom (m_key_to_index p) ↔ k ∈ m_keys p.
Proof.
  intros (_ & Hiff & _). rewrite elem_of_dom, list_elem_of_lookup. split.
  - intros [i Hi]. apply Hiff in Hi as [_ Hi]. eauto.
  - intros [n Hn]. exists (Z.of_nat n). apply Hiff.
    split; [lia|]. by rewrite Nat2Z.id.
Qed.

Lemma random_size_tracked p :
  wf p → base.size (dom (m_key_to_index p)) = length (m_keys p).
Proof.
  intros Hwf.
  assert (Heq : dom (m_key_to_index p) = list_to_set (m_keys p)).
  { apply set_eq. intros k. rewrite elem_of_list_to_set. by apply random_elem_of_tracked. }
  rewrite Heq. apply size_list_to_set. by destruct Hwf.
Qed.

Lemma random_wf_on_insert k p :
  wf p → m_key_to_index p !! k = None →
  Z.of_nat (length (m_keys p)) < SizeT.max →
  wf (on_insert k p).
Proof.
  intros Hwf Hnew Hlen.
  assert (Hnotin : k ∉ m_keys p).
  { rewrite <- random_elem_of_tracked by done. by apply not_elem_of_dom. }
  destruct Hwf as (Hnd & Hiff & Hmax).
  assert (Hidx : SizeT.of_nat (length (m_keys p)) = Z.of_nat (length (m_keys p))).
  { apply SizeT_facts.of_nat_small. size_t_bounds. }
  split; [|split]; simpl.
  - apply NoDup_app. split; [done|]. split; [|apply NoDup_singleton].
    intros j Hj ->%list_elem_of_singleton. done.
  - intros j i. rewrite Hidx, lookup_insert. case_decide as Hkj.
    + subst j. split.
      * intros [= <-]. split; [lia|]. rewrite Nat2Z.id.
        by rewrite lookup_app_r, Nat.sub_diag.
      * intros [Hi Hlookup]. f_equal.
        apply lookup_app_Some in Hlookup as [Hl|[Hge Hl]].
        { by apply list_elem_of_lookup_2 in Hl. }
        apply list_lookup_singleton_Some in Hl as [Hz _]. lia.
    + rewrite Hiff. split; intros [Hi Hlookup]; (split; [done|]).
      * by apply lookup_app_l_Some.
      * apply lookup_app_Some in Hlookup as [Hl|[Hge Hl]]; [done|].
        apply list_lookup_singleton_Some in Hl as [_ ?]. done.
  - rewrite length_app. simpl. size_t_bounds.
Qed.

(** The keys that [remove_key] leaves in the vector, by position. *)
Lemma random_removelast_lookup (l : list K) n :
  removelast l !! n = if decide (S n < length l)%nat then l !! n else None.
Proof.
  rewrite removelast_firstn_len, lookup_take.
  destruct l as [|x l]; simpl; [by repeat case_decide|].
  repeat case_decide; try done; lia.
Qed.

Lemma random_wf_remove_key k p : wf p → wf (remove_key k p).
Proof.
  intros Hwf. unfold remove_key.
  destruct (m_key_to_index p !! k) as [i|] eqn:Hk; [|done].
  destruct (random_wf_index_lt k i p Hwf Hk) as (Hi & Hlt & Hik).
  destruct Hwf as (Hnd & Hiff & Hmax).
  set (len := length (m_keys p)) in *.
  assert (Hlast : SizeT.sub (SizeT.of_nat len) 1 = Z.of_nat len - 1).
  { unfold SizeT.of_nat. unwrap. done. }
  rewrite Hlast.
  case_bool_decide as Hswap.
  - destruct (m_keys p !! Z.to_nat (Z.of_nat len - 1)) as [last_key|] eqn:Hlk;
      [|apply lookup_ge_None in Hlk; lia].
    assert (Hlen1 : Z.to_nat (Z.of_nat len - 1) = (len - 1)%nat) by lia.
    rewrite Hlen1 in Hlk.
    assert (Hne : last_key ≠ k).
    { intros ->. assert (Z.to_nat i = (len - 1)%nat)
        by (by eapply NoDup_lookup). lia. }
    assert (Hkeys : ∀ n, removelast (<[Z.to_nat i := last_key]> (m_keys p)) !! n
              = if decide (S n < len)%nat
                then (if decide (n = Z.to_nat i) then Some last_key
                      else m_keys p !! n)
                else None).
    { intros n. rewrite random_removelast_lookup, length_insert. fold len.
      case_decide; [|done]. rewrite list_lookup_insert.
      repeat case_decide; try done; lia. }
    split; [|split]; simpl.
    + apply NoDup_alt. intros n1 n2 x. rewrite !Hkeys. intros Hx1 Hx2.
      destruct (decide (S n1 < len)%nat); [|done].
      destruct (decide (S n2 < len)%nat); [|done].
      destruct (decide (n1 = Z.to_nat i)) as [->|];
        destruct (decide (n2 = Z.to_nat i)) as [->|]; try done.
      * injection Hx1 as <-.
        assert (n2 = (len - 1)%nat) by (by eapply NoDup_lookup). lia.
      * injection Hx2 as <-.
        assert (n1 = (len - 1)%nat) by (by eapply NoDup_lookup). lia.
      * by eapply NoDup_lookup.
    + intros j ij. rewrite lookup_delete, Hkeys.
      destruct (decide (k = j)) as [<-|Hkj].
      * split; [done|]. intros [Hij Hlookup].
        repeat case_decide; simplify_eq.
        assert (Z.to_nat ij = Z.to_nat i) by (by eapply NoDup_lookup). done.
      * rewrite lookup_insert. destruct (decide (last_key = j)) as [<-|Hlj].
        { split.
          - intros [= <-]. split; [done|].
            rewrite decide_True by lia. by rewrite decide_True.
          - intros [Hij Hlookup]. repeat case_decide; simplify_eq.
            + f_equal. lia.
            + assert (Z.to_nat ij = (len - 1)%nat) by (by eapply NoDup_lookup).
              lia. }
        rewrite Hiff. split; intros [Hij Hlookup]; (split; [done|]).
        { assert (Z.to_nat ij ≠ Z.to_nat i).
          { intros Heq. rewrite Heq in Hlookup. congruence. }
          assert (Z.to_nat ij ≠ (len - 1)%nat).
          { intros Heq. rewrite Heq in Hlookup. congruence. }
          apply lookup_lt_Some in Hlookup as Hlt'. fold len in Hlt'.
          rewrite decide_True by lia. by rewrite decide_False. }
        { repeat case_decide; simplify_eq. done. }
    + rewrite removelast_firstn_len, length_take, length_insert. fold len.
      size_t_bounds.
  - assert (Hil : Z.to_nat i = (len - 1)%nat).
    { lia. }
    split; [|split]; simpl.
    + rewrite removelast_firstn_len. eapply sublist_NoDup; [exact Hnd|].
      apply sublist_take.
    + intros j ij. rewrite lookup_delete, random_removelast_lookup. fold len.
      destruct (decide (k = j)) as [<-|Hkj].
      * split; [done|]. intros [Hij Hlookup]. case_decide; [|done].
        assert (Z.to_nat ij = Z.to_nat i) by (by eapply NoDup_lookup). lia.
      * rewrite Hiff. split; intros [Hij Hlookup]; (split; [done|]).
        { assert (Z.to_nat ij ≠ Z.to_nat i).
          { intros Heq. rewrite Heq in Hlookup. congruence. }
          apply lookup_lt_Some in Hlookup as Hlt'. fold len in Hlt'.
          by rewrite decide_True by lia. }
        { by case_decide. }
    + rewrite removelast_firstn_len, length_take. fold len. size_t_bounds.
Qed.

Lemma random_tracked_remove_key k p :
  wf p →
  dom (m_key_to_index (remove_key k p)) = dom (m_key_to_index p) ∖ {[k]}.
Proof.
  intros Hwf. unfold remove_key.
  destruct (m_key_to_index p !! k) as [i|] eqn:Hk.
  - destruct (random_wf_index_lt k i p Hwf Hk) as (Hi & Hlt & Hik).
    case_bool_decide.
    + destruct (m_keys p !! Z.to_nat (SizeT.sub _ _)) as [last_key|] eqn:Hlk; simpl.
      * rewrite dom_delete_L, dom_insert_L.
        assert (last_key ∈ dom (m_key_to_index p)).
        { apply random_elem_of_tracked; [done|]. by eapply list_elem_of_lookup_2. }
        f_equal. by apply subseteq_union_1_L, singleton_subseteq_l.
      * by rewrite dom_delete_L.
    + simpl. by rewrite dom_delete_L.
  - apply not_elem_of_dom in Hk. symmetry.
    by apply difference_disjoint_L, disjoint_singleton_r.
Qed.

#[global] Instance random_laws : EvictionLaws K (random_eviction_policy.t K G).
Proof.
  split; simpl.
  - intros k e Hwf Hnew Hsize. rewrite random_size_tracked in Hsize by done.
    split; [|apply dom_insert_L].
    apply random_wf_on_insert; [done| |done]. by apply not_elem_of_dom.
  - done.
  - done.
  - intros k e Hwf. split; [by apply random_wf_remove_key|by apply random_tracked_remove_key].
  - intros e. split; [|apply dom_empty_L].
    split; [apply NoDup_nil_2|]. split; [|simpl; size_t_bounds].
    intros k i. simpl. rewrite lookup_empty, lookup_nil. split; [done|].
    by intros [_ ?].
  - intros e Hwf. unfold select_victim.
    destruct (m_keys e) as [|first rest] eqn:Hkeys.
    + assert (Hempty : dom (m_key_to_index e) = ∅).
      { apply set_eq. intros k. rewrite random_elem_of_tracked, Hkeys by done.
        split; [by intros ?%not_elem_of_nil|by intros ?%not_elem_of_empty]. }
      done.
    + destruct (libc.rand (generator e)) as [drawn g].
      set (e' := {| m_keys := first :: rest;
                    m_key_to_index := m_key_to_index e;
                    m_random_initialized := m_random_initialized e;
                    generator := g |}).
      assert (Hwf' : wf e').
      { destruct Hwf as (Hnd & Hiff & Hmax). rewrite Hkeys in *. done. }
      split; [|split; [by apply random_wf_remove_key|by apply (random_tracked_remove_key _ e')]].
      apply random_elem_of_tracked; [done|]. rewrite Hkeys.
      assert (Hlen : SizeT.of_nat (length (first :: rest))
                     = Z.of_nat (length (first :: rest))).
      { apply SizeT_facts.of_nat_small. destruct Hwf as (_ & _ & Hmax).
        rewrite Hkeys in Hmax. size_t_bounds. }
      rewrite Hlen.
      assert (Hrange : 0 ≤ SizeT.wrap drawn mod Z.of_nat (length (first :: rest))
                       < Z.of_nat (length (first :: rest))).
      { apply Z.mod_pos_bound. simpl. lia. }
      set (n := Z.to_nat (SizeT.wrap drawn mod Z.of_nat (length (first :: rest)))).
      destruct (lookup_lt_is_Some_2 (first :: rest) n) as [x Hx]; [lia|].
      rewrite (nth_lookup_Some _ _ first x Hx).
      by eapply list_elem_of_lookup_2.
Qed.
End facts.
End random_tracking.

(** ** The storage and the eviction policy of a cache hold the same keys *)

Module agreement_facts.
Import policy_based_cache cache_facts update_facts.
Section facts.
Context {K V EP SP AP CP : Type} `{Countable K}.
Context `{!EvictionPolicy K EP, !EvictionModel K EP, !EvictionLaws K EP,
          !StoragePolicy K V SP, !StorageContents K V SP, !StorageLaws K V SP,
          !AccessPolicy K AP, !CapacityPolicy CP}.
Implicit Types c : policy_based_cache.t EP SP AP CP.

Lemma key_agreement_with_capacity cp c :
  key_agreement (with_capacity cp c) ↔ key_agreement c.
Proof. done. Qed.

Lemma key_agreement_with_access a c :
  key_agreement (with_access a c) ↔ key_agreement c.
Proof. done. Qed.

Lemma key_agreement_with_storage s c :
  st_contents s = cache_contents c →
  key_agreement (with_storage s c) ↔ key_agreement c.
Proof. intros Hs. unfold key_agreement, cache_contents; simpl. by rewrite Hs. Qed.

(** With key agreement, a pass of the eviction loop over a non-empty cache
    evicts one entry. *)
Lemma evict_one_agreement c :
  key_agreement c → cache_contents c ≠ ∅ →
  ∃ c' victim,
    evict_one c = Continue c'
    ∧ key_agreement c'
    ∧ is_Some (cache_contents c !! victim)
    ∧ cache_contents c' = delete victim (cache_contents c)
    ∧ m_capacity_policy c' = m_capacity_policy c.
Proof.
  intros [Hwf Htracked] Hne. unfold evict_one.
  pose proof (ev_select_victim_spec (m_eviction_policy c) Hwf) as Hsel.
  destruct (ev_select_victim _) as [[victim|ex] e]; simpl.
  - destruct Hsel as (Hin & Hwf' & Htracked').
    rewrite Htracked in Hin. apply elem_of_dom in Hin.
    pose proof (st_erase_found victim (m_storage_policy c)) as Hf.
    pose proof (st_erase_contents victim (m_storage_policy c)) as Hc.
    rewrite bool_decide_eq_true_2 in Hf by done.
    destruct (st_erase _ _) as [was_erased s]; simpl in *. subst was_erased.
    eexists _, victim. split; [reflexivity|].
    split; [|by repeat split].
    split; simpl; [done|]. unfold cache_contents; simpl.
    rewrite Htracked', Hc, Htracked, dom_delete_L. done.
  - destruct Hsel as (Hempty & _). rewrite Htracked in Hempty.
    apply dom_empty_inv_L in Hempty. done.
Qed.

Lemma evict_loop_agreement n c :
  key_agreement c →
  ∃ c', evict_loop n c = (Ok (), c')
        ∧ key_agreement c'
        ∧ cache_contents c' ⊆ cache_contents c
        ∧ base.size (cache_contents c') = base.size (cache_contents c) - n
        ∧ m_capacity_policy c' = m_capacity_policy c.
Proof.
  revert c. induction n as [|n IH]; intros c Hagree; simpl.
  { exists c. split; [done|]. split; [done|]. split; [done|]. split; [lia|done]. }
  rewrite st_empty_contents. case_bool_decide as Hempty.
  { exists c. split; [done|]. split; [done|]. split; [done|]. split; [|done].
    unfold cache_contents. rewrite Hempty, map_size_empty. lia. }
  destruct (evict_one_agreement c Hagree Hempty)
    as (c1 & victim & -> & Hagree1 & Hin & Hc1 & Hcp1).
  destruct (IH c1 Hagree1) as (c' & -> & Hagree' & Hsub & Hsize & Hcp).
  exists c'. split; [done|]. split; [done|].
  split; [|split; [|congruence]].
  - etrans; [exact Hsub|]. rewrite Hc1. apply delete_subseteq.
  - rewrite Hsize, Hc1, map_size_delete_Some by done.
    destruct Hin as [v Hv].
    assert (base.size (cache_contents c) ≠ 0); [|lia].
    intros Hz. apply map_size_empty_inv in Hz. by rewrite Hz in Hv.
Qed.

Lemma insert_and_notify_agreement k v c :
  key_agreement c → cache_contents c !! k = None →
  (Z.of_nat (base.size (cache_contents c)) < SizeT.max)%Z →
  key_agreement (insert_and_notify ev_on_insert k v c).
Proof.
  intros [Hwf Htracked] Hnew Hsize.
  assert (Hfresh : k ∉ ev_tracked (m_eviction_policy c)).
  { rewrite Htracked. by apply not_elem_of_dom. }
  destruct (ev_on_insert_spec k _ Hwf Hfresh) as [Hwf' Htracked'].
  { by rewrite Htracked, size_dom. }
  split.
  - by rewrite insert_and_notify_eviction.
  - rewrite insert_and_notify_eviction, insert_and_notify_contents, dom_insert_L.
    by rewrite Htracked', Htracked.
Qed.

Lemma update_and_notify_agreement k v c :
  key_agreement c → is_Some (cache_contents c !! k) →
  key_agreement (insert_and_notify ev_on_update k v c).
Proof.
  intros [Hwf Htracked] Hold. split.
  - rewrite insert_and_notify_eviction. by apply ev_on_update_spec.
  - rewrite insert_and_notify_eviction, insert_and_notify_contents, dom_insert_L.
    rewrite (proj2 (ev_on_update_spec k _ Hwf)), Htracked.
    apply elem_of_dom in Hold. symmetry.
    by apply subseteq_union_1_L, singleton_subseteq_l.
Qed.

Lemma evict_if_necessary_agreement c :
  key_agreement c →
  ∃ c', evict_if_necessary_for_insertion c = (Ok (), c')
        ∧ key_agreement c'
        ∧ cache_contents c' ⊆ cache_contents c.
Proof.
  intros Hagree. unfold evict_if_necessary_for_insertion.
  destruct (cp_needs_eviction _ _) as [[] cp]; simpl.
  - unfold evict_entries.
    edestruct (evict_loop_agreement
                 (Z.to_nat (cp_eviction_count (st_size (m_storage_policy c)) cp))
                 (with_capacity cp c)) as (c' & Hloop & Hagree' & Hsub & _);
      [done|].
    simpl in Hloop. rewrite Hloop. eauto.
  - eauto.
Qed.

Lemma put_agreement k v c :
  key_agreement c →
  (Z.of_nat (base.size (cache_contents c)) < SizeT.max)%Z →
  (put k v c).1 = Ok () ∧ key_agreement (put k v c).2.
Proof.
  intros Hagree Hsize. unfold put.
  pose proof (st_contains_found k (m_storage_policy c)) as Hf.
  pose proof (st_contains_contents k (m_storage_policy c)) as Hc.
  destruct (st_contains _ _) as [found s]; simpl in *.
  assert (Hagree1 : key_agreement (with_storage s c))
    by by apply key_agreement_with_storage.
  destruct found; simpl.
  - split; [done|]. apply update_and_notify_agreement; [done|].
    symmetry in Hf. apply bool_decide_eq_true in Hf.
    unfold cache_contents; simpl. by rewrite Hc.
  - destruct (evict_if_necessary_agreement _ Hagree1) as (c' & -> & Hagree' & Hsub).
    split; [done|]. simpl. apply insert_and_notify_agreement; [done| |].
    + symmetry in Hf. apply bool_decide_eq_false in Hf.
      eapply lookup_weaken_None; [|exact Hsub].
      unfold cache_contents; simpl. rewrite Hc.
      by apply eq_None_not_Some.
    + apply map_subseteq_size in Hsub. unfold cache_contents in *; simpl in *.
      rewrite Hc in Hsub. lia.
Qed.

Lemma get_agreement k c : key_agreement c → key_agreement (get k c).2.
Proof.
  intros Hagree. unfold get.
  pose proof (st_find_contents k (m_storage_policy c)) as Hc.
  destruct (st_find _ _) as [[value|] s]; simpl in *.
  - destruct (ac_on_access _ _) as [[] a]; simpl;
      [|by apply key_agreement_with_storage].
    assert (Hagree1 : key_agreement (with_storage s c))
      by by apply key_agreement_with_storage.
    destruct Hagree1 as [Hwf Htracked]. split; simpl.
    + by apply ev_on_access_spec.
    + by rewrite (proj2 (ev_on_access_spec k _ Hwf)).
  - destruct (ac_on_miss _ _) as [? a]; simpl.
    by apply key_agreement_with_storage.
Qed.

Lemma contains_agreement k c :
  key_agreement c → key_agreement (contains k c).2.
Proof.
  intros Hagree. unfold contains.
  pose proof (st_contains_contents k (m_storage_policy c)) as Hc.
  destruct (st_contains _ _) as [found s]; simpl in *.
  by apply key_agreement_with_storage.
Qed.

Lemma erase_agreement k c : key_agreement c → key_agreement (erase k c).2.
Proof.
  intros [Hwf Htracked]. unfold erase.
  pose proof (st_erase_found k (m_storage_policy c)) as Hf.
  pose proof (st_erase_contents k (m_storage_policy c)) as Hc.
  destruct (st_erase _ _) as [was_erased s]; simpl in *.
  destruct was_erased; simpl.
  - split; simpl; [by apply ev_remove_key_spec|].
    unfold cache_contents; simpl.
    by rewrite (proj2 (ev_remove_key_spec k _ Hwf)), Hc, dom_delete_L, Htracked.
  - split; simpl; [done|]. unfold cache_contents; simpl. rewrite Hc, Htracked.
    symmetry in Hf. apply bool_decide_eq_false in Hf.
    rewrite delete_id; [done|]. by apply eq_None_not_Some.
Qed.

Lemma clear_agreement c : key_agreement (clear c).
Proof.
  split; simpl; [apply ev_clear_spec|]. unfold cache_contents; simpl.
  by rewrite (proj2 (ev_clear_spec _)), st_clear_contents, dom_empty_L.
Qed.

Lemma set_capacity_agreement n c :
  key_agreement c →
  (set_capacity n c).1 = Ok () ∧ key_agreement (set_capacity n c).2.
Proof.
  intros Hagree. unfold set_capacity.
  destruct (evict_if_necessary_agreement
              (with_capacity (cp_set_capacity n (m_capacity_policy c)) c))
    as (c' & Heq & Hagree' & _); [done|].
  unfold evict_if_necessary_for_capacity_change.
  unfold evict_if_necessary_for_insertion in Heq. by rewrite Heq.
Qed.

(** X2: the storage policy and the eviction policy keep the same keys through
    every public operation on a cache that holds fewer than [SIZE_MAX] entries,
    whatever the capacity policy answers. *)
Lemma perform_agreement (op : operation K V) c :
  key_agreement c →
  (Z.of_nat (base.size (cache_contents c)) < SizeT.max)%Z →
  key_agreement (perform op c).
Proof.
  intros Hagree Hsize. destruct op; simpl; try done.
  - by apply put_agreement.
  - by apply get_agreement.
  - by apply contains_agreement.
  - by apply erase_agreement.
  - by apply set_capacity_agreement.
  - apply clear_agreement.
Qed.
End facts.

Local Open Scope Z_scope.

Lemma perform_agreement_witness :
  key_agreement (perform (Put 1 "a") (make_lru_cache (K:=Z) (V:=string) 0)).
Proof.
  apply (agreement_facts.perform_agreement (Put 1 "a") (make_lru_cache 0)).
  - split; [apply lru_tracking.lru_wf_make|reflexivity].
  - vm_compute. done.
Defined.
End agreement_facts.

(** ** A fixed capacity of at least one bounds the size of the cache *)

Module bound_facts.
Import policy_based_cache cache_facts update_facts agreement_facts.
Section facts.
Context {K V EP SP AP : Type} `{Countable K}.
Context `{!EvictionPolicy K EP, !EvictionModel K EP, !EvictionLaws K EP,
          !StoragePolicy K V SP, !StorageContents K V SP, !StorageLaws K V SP,
          !AccessPolicy K AP}.
Implicit Types c : policy_based_cache.t EP SP AP fixed_capacity_policy.t.
Local Open Scope Z_scope.

Lemma size_in_range c :
  Z.of_nat (base.size (cache_contents c)) < SizeT.modulus →
  size c = Z.of_nat (base.size (cache_contents c)).
Proof.
  intros Hlt. rewrite size_contents. by apply SizeT_facts.of_nat_small.
Qed.

Lemma put_within k v c :
  within_capacity c → within_capacity (put k v c).2.
Proof.
  intros (Hagree & Hcap & Hsize). unfold put.
  pose proof (st_contains_found k (m_storage_policy c)) as Hf.
  pose proof (st_contains_contents k (m_storage_policy c)) as Hc.
  destruct (st_contains _ _) as [found s]; simpl in *.
  assert (Hagree1 : key_agreement (with_storage s c))
    by by apply key_agreement_with_storage.
  assert (Hc1 : cache_contents (with_storage s c) = cache_contents c)
    by (unfold cache_contents; simpl; by rewrite Hc).
  assert (Hc2 : ∀ cp, cache_contents (with_capacity cp (with_storage s c))
                      = cache_contents c)
    by (intros cp; unfold cache_contents; simpl; by rewrite Hc).
  destruct found; simpl.
  - symmetry in Hf. apply bool_decide_eq_true in Hf as [v0 Hv0].
    split; [apply update_and_notify_agreement; [done|by rewrite Hc1]|].
    rewrite insert_and_notify_capacity, insert_and_notify_contents, Hc1. simpl.
    split; [done|]. by erewrite map_size_insert_Some.
  - symmetry in Hf. apply bool_decide_eq_false in Hf.
    apply eq_None_not_Some in Hf.
    unfold evict_if_necessary_for_insertion; simpl.
    assert (Hs : st_size s = Z.of_nat (base.size (cache_contents c))).
    { rewrite st_size_contents, Hc. apply SizeT_facts.of_nat_small.
      unfold cache_contents in *. lia. }
    rewrite Hs. unfold fixed_capacity_policy.needs_eviction,
      fixed_capacity_policy.eviction_count.
    case_bool_decide as Hfull; simpl.
    + assert (Hone : SizeT.add (SizeT.sub (Z.of_nat (base.size (cache_contents c)))
                        (fixed_capacity_policy.m_capacity (m_capacity_policy c))) 1
                     = 1).
      { unwrap. lia. }
      rewrite Hone. unfold evict_entries.
      destruct (evict_loop_agreement (Z.to_nat 1)
                  (with_capacity (m_capacity_policy c) (with_storage s c)) Hagree1)
        as (c' & -> & Hagree' & Hsub & Hsize' & Hcp').
      rewrite Hc2 in Hsub, Hsize'. simpl.
      assert (Hnew : cache_contents c' !! k = None).
      { by eapply lookup_weaken_None; [|exact Hsub]. }
      split; [apply insert_and_notify_agreement; [done..|]
             |rewrite insert_and_notify_capacity, insert_and_notify_contents,
                Hcp', map_size_insert_None by done; simpl; split; [done|]];
        size_t_bounds.
    + assert (Hnew : cache_contents (with_capacity (m_capacity_policy c)
                                       (with_storage s c)) !! k = None).
      { by rewrite Hc2. }
      split; [apply insert_and_notify_agreement; [done..|]
             |rewrite insert_and_notify_capacity, insert_and_notify_contents,
                map_size_insert_None by done; simpl; split; [done|]];
        rewrite ?Hc2; size_t_bounds.
Qed.

Lemma set_capacity_within n c :
  within_capacity c → 1 ≤ n < SizeT.modulus →
  within_capacity (set_capacity n c).2.
Proof.
  intros (Hagree & Hcap & Hsize) Hn.
  split; [by apply set_capacity_agreement|].
  unfold set_capacity, evict_if_necessary_for_capacity_change; simpl.
  assert (Hs : st_size (m_storage_policy c)
               = Z.of_nat (base.size (cache_contents c))).
  { rewrite st_size_contents. apply SizeT_facts.of_nat_small. lia. }
  rewrite Hs. unfold fixed_capacity_policy.needs_eviction,
    fixed_capacity_policy.eviction_count,
    fixed_capacity_policy.set_capacity; simpl.
  case_bool_decide as Hfull; simpl;
    [|split; [done|unfold cache_contents in *; simpl; lia]].
  assert (Hcount : SizeT.add (SizeT.sub (Z.of_nat (base.size (cache_contents c))) n) 1
                   = Z.of_nat (base.size (cache_contents c)) - n + 1).
  { unwrap. done. }
  rewrite Hcount. unfold evict_entries.
  match goal with |- context [evict_loop ?m ?c0] =>
    destruct (evict_loop_agreement m c0) as (c' & -> & Hagree' & Hsub & Hsize' & Hcp')
  end; [done|].
  simpl. rewrite Hcp'. simpl. split; [done|].
  rewrite Hsize'. unfold cache_contents; simpl. unfold cache_contents in *. lia.
Qed.

Lemma perform_within (op : operation K V) c :
  positive_capacity op → within_capacity c → within_capacity (perform op c).
Proof.
  intros Hop Hwithin. destruct op as [k v|k|k|k|n| | |]; simpl in *; try done.
  - by apply put_within.
  - destruct Hwithin as (Hagree & Hcap & Hsize).
    split; [by apply get_agreement|]. unfold get.
    pose proof (st_find_contents k (m_storage_policy c)) as Hc.
    destruct (st_find _ _) as [[value|] s]; simpl in *.
    + destruct (ac_on_access _ _) as [[] a]; simpl;
        unfold cache_contents; simpl; by rewrite Hc.
    + destruct (ac_on_miss _ _) as [? a]; simpl.
      unfold cache_contents; simpl; by rewrite Hc.
  - destruct Hwithin as (Hagree & Hcap & Hsize).
    split; [by apply contains_agreement|]. unfold contains.
    pose proof (st_contains_contents k (m_storage_policy c)) as Hc.
    destruct (st_contains _ _) as [found s]; simpl in *.
    unfold cache_contents; simpl; by rewrite Hc.
  - destruct Hwithin as (Hagree & Hcap & Hsize).
    split; [by apply erase_agreement|]. unfold erase.
    pose proof (st_erase_contents k (m_storage_policy c)) as Hc.
    destruct (st_erase _ _) as [was_erased s]; simpl in *.
    assert (Hle : (base.size (delete k (cache_contents c))
                   ≤ base.size (cache_contents c))%nat)
      by apply map_subseteq_size, delete_subseteq.
    destruct was_erased; simpl; unfold cache_contents in *; simpl;
      rewrite Hc; (split; [done|lia]).
  - by apply set_capacity_within.
  - destruct Hwithin as (Hagree & Hcap & Hsize).
    split; [apply clear_agreement|]. simpl. split; [done|].
    unfold cache_contents; simpl. rewrite st_clear_contents, map_size_empty. lia.
Qed.

Lemma run_within (ops : list (operation K V)) c :
  Forall positive_capacity ops → within_capacity c →
  within_capacity (run ops c).
Proof.
  revert c. induction ops as [|op ops IH]; intros c Hops Hwithin; [done|].
  apply Forall_cons in Hops as [Hop Hops].
  simpl. apply IH; [done|]. by apply perform_within.
Qed.

(** A cache that is constructed with a capacity of at least one starts
    within its capacity. *)
Lemma fresh_within_capacity (e : EP) (s : SP) (a : AP) n :
  ev_wf e → ev_tracked e = ∅ → st_contents s = ∅ →
  1 ≤ n < SizeT.modulus →
  within_capacity (make e s a (fixed_capacity_policy.make n)).
Proof.
  intros Hwf Htracked Hempty Hn. split; [|split]; simpl.
  - split; simpl; [done|]. unfold cache_contents; simpl.
    by rewrite Htracked, Hempty, dom_empty_L.
  - done.
  - unfold cache_contents; simpl. rewrite Hempty, map_size_empty. lia.
Qed.

Lemma within_capacity_size c : within_capacity c → size c ≤ capacity c.
Proof.
  intros (Hagree & Hcap & Hsize). rewrite size_in_range by lia. done.
Qed.

(** X1: on a cache constructed with a capacity of at least 1 whose capacity is
    never set to 0, [size() ≤ capacity()] and key agreement hold after every
    sequence of public operations. *)
Lemma size_bounded_by_positive_capacity (e : EP) (s : SP) (a : AP) n
    (ops : list (operation K V)) :
  ev_wf e → ev_tracked e = ∅ → st_contents s = ∅ →
  1 ≤ n < SizeT.modulus →
  Forall positive_capacity ops →
  let c := run ops (make e s a (fixed_capacity_policy.make n)) in
  size c ≤ capacity c ∧ key_agreement c.
Proof.
  intros Hwf Htracked Hempty Hn Hops c.
  assert (Hwithin : within_capacity c).
  { apply run_within; [done|]. by apply fresh_within_capacity. }
  split; [by apply within_capacity_size|]. by destruct Hwithin.
Qed.
End facts.

Local Open Scope Z_scope.

Lemma size_bounded_by_positive_capacity_witness :
  let c := run [Put 1 "a"; Put 2 "b"; Get 1; Put 3 "c"; SetCapacity 1]
               (make_lru_cache (K:=Z) (V:=string) 2) in
  size c ≤ capacity c ∧ key_agreement c.
Proof.
  apply (bound_facts.size_bounded_by_positive_capacity
           lru_eviction_policy.make hash_storage_policy.make
           update_on_access_policy.make 2).
  - apply lru_tracking.lru_wf_make.
  - reflexivity.
  - reflexivity.
  - vm_compute. split; [by intros ?|done].
  - repeat constructor; vm_compute; by intros ?.
Defined.
End bound_facts.

(** ** The factory caches stay within a capacity of at least one *)

Module factory_bounds.
Import policy_based_cache.
Section facts.
Context {K V : Type} `{Countable K}.
Implicit Types ops : list (operation K V).
Local Open Scope Z_scope.

(** The three factories of cache.hpp, called with a capacity of at least
    one, give caches on which [size() ≤ capacity()] holds after every
    sequence of public operations that never sets the capacity to 0. *)
Lemma make_lru_cache_bounded n ops :
  1 ≤ n < SizeT.modulus → Forall positive_capacity ops →
  let c := run ops (make_lru_cache n) in size c ≤ capacity c.
Proof.
  intros Hn Hops. apply bound_facts.within_capacity_size.
  apply bound_facts.run_within; [done|].
  apply bound_facts.fresh_within_capacity; try done.
  apply lru_tracking.lru_wf_make.
Qed.

Lemma make_fifo_cache_bounded n ops :
  1 ≤ n < SizeT.modulus → Forall positive_capacity ops →
  let c := run ops (make_fifo_cache n) in size c ≤ capacity c.
Proof.
  intros Hn Hops. apply bound_facts.within_capacity_size.
  apply bound_facts.run_within; [done|].
  by apply bound_facts.fresh_within_capacity.
Qed.

Lemma make_lfu_cache_bounded n ops :
  1 ≤ n < SizeT.modulus → Forall positive_capacity ops →
  let c := run ops (make_lfu_cache n) in size c ≤ capacity c.
Proof.
  intros Hn Hops. apply bound_facts.within_capacity_size.
  apply bound_facts.run_within; [done|].
  apply bound_facts.fresh_within_capacity; try done.
  exists ∅, 0%nat. apply lfu_facts.consistent_make.
Qed.
End facts.
End factory_bounds.

(** ** The public operations, one at a time *)

Module facade_facts.
Import policy_based_cache cache_facts update_facts agreement_facts.

Section storage.
Context {K V EP SP AP CP : Type} `{Countable K}.
Context `{!EvictionPolicy K EP, !StoragePolicy K V SP,
          !StorageContents K V SP, !StorageLaws K V SP,
          !AccessPolicy K AP, !CapacityPolicy CP}.
Implicit Types c : policy_based_cache.t EP SP AP CP.

(** X4: [get] returns the stored value or throws [std::out_of_range]; it never
    changes what is stored nor the capacity policy, and a miss leaves the
    eviction policy as it was. *)
Theorem get_reads_without_writing k c :
  (get k c).1
  = match cache_contents c !! k with
    | Some v => Ok v
    | None => Throw (out_of_range "Key not found in cache")
    end
  ∧ cache_contents (get k c).2 = cache_contents c
  ∧ m_capacity_policy (get k c).2 = m_capacity_policy c
  ∧ (cache_contents c !! k = None →
     m_eviction_policy (get k c).2 = m_eviction_policy c).
Proof.
  unfold get, cache_contents.
  pose proof (st_find_value k (m_storage_policy c)) as Hv.
  pose proof (st_find_contents k (m_storage_policy c)) as Hc.
  destruct (st_find _ _) as [found s]; simpl in *. rewrite <- Hv.
  destruct found as [value|].
  - destruct (ac_on_access _ _) as [[] a]; simpl; by rewrite Hc.
  - destruct (ac_on_miss _ _) as [? a]; simpl. by rewrite Hc.
Qed.

(** X5: [erase] reports whether the key was stored, removes that entry and no
    other, and calls [remove_key] on the eviction policy only when it removed
    something. *)
Theorem erase_removes_exactly_the_key k c :
  (erase k c).1 = bool_decide (is_Some (cache_contents c !! k))
  ∧ cache_contents (erase k c).2 = delete k (cache_contents c)
  ∧ (contains k (erase k c).2).1 = false
  ∧ m_eviction_policy (erase k c).2
    = (if (erase k c).1 then ev_remove_key k (m_eviction_policy c)
       else m_eviction_policy c)
  ∧ m_capacity_policy (erase k c).2 = m_capacity_policy c.
Proof.
  assert (Hc : cache_contents (erase k c).2 = delete k (cache_contents c)).
  { unfold erase, cache_contents.
    pose proof (st_erase_contents k (m_storage_policy c)) as Hc.
    by destruct (st_erase _ _) as [[] s]. }
  split; [|split; [done|split]].
  - unfold erase, cache_contents.
    pose proof (st_erase_found k (m_storage_policy c)) as Hf.
    by destruct (st_erase _ _) as [[] s].
  - rewrite contains_contents, Hc, lookup_delete_eq.
    apply bool_decide_eq_false_2. by intros [? ?].
  - unfold erase. by destruct (st_erase _ _) as [[] s].
Qed.
End storage.

Section lawful.
Context {K V EP SP AP CP : Type} `{Countable K}.
Context `{!EvictionPolicy K EP, !EvictionModel K EP, !EvictionLaws K EP,
          !StoragePolicy K V SP, !StorageContents K V SP, !StorageLaws K V SP,
          !AccessPolicy K AP, !CapacityPolicy CP}.
Implicit Types c : policy_based_cache.t EP SP AP CP.

(** X3: whatever the capacity policy, [put] returns normally and the entry it
    wrote is the one [get] and [contains] find next. *)
Theorem put_then_get_returns_the_value k v c :
  key_agreement c →
  (Z.of_nat (base.size (cache_contents c)) < SizeT.max)%Z →
  ∃ c', put k v c = (Ok (), c')
        ∧ (get k c').1 = Ok v
        ∧ (contains k c').1 = true
        ∧ key_agreement c'.
Proof.
  intros Hagree Hsize.
  destruct (put_agreement k v c Hagree Hsize) as [Hok Hagree'].
  destruct (put k v c) as [r c'] eqn:Hput; simpl in *. subst r.
  exists c'. split; [done|].
  pose proof (put_ok_contents k v c c' Hput) as Hk.
  split; [by apply get_present|]. split; [|done].
  rewrite contains_contents, Hk. by apply bool_decide_eq_true_2.
Qed.

(** X6: [clear] leaves an empty cache whose storage and eviction policy agree,
    whatever state they were in, and keeps the capacity. *)
Theorem clear_empties_the_cache c :
  empty (clear c) = true
  ∧ size (clear c) = 0%Z
  ∧ key_agreement (clear c)
  ∧ capacity (clear c) = capacity c
  ∧ ∀ k, (get k (clear c)).1 = Throw (out_of_range "Key not found in cache").
Proof.
  assert (Hc : cache_contents (clear c) = ∅).
  { unfold cache_contents; simpl. apply st_clear_contents. }
  split; [|split; [|split; [apply clear_agreement|split; [done|]]]].
  - unfold empty. rewrite st_empty_contents. by apply bool_decide_eq_true_2.
  - rewrite size_contents, Hc, map_size_empty. done.
  - intros k. unfold get.
    pose proof (st_find_value k (m_storage_policy (clear c))) as Hv.
    fold (cache_contents (clear c)) in Hv. rewrite Hc, lookup_empty in Hv.
    destruct (st_find _ _) as [found s]; simpl in *. subst found.
    by destruct (ac_on_miss _ _).
Qed.
End lawful.

Local Open Scope Z_scope.

Lemma put_then_get_returns_the_value_witness :
  ∃ c', put 1 "a" (make_lru_cache (K:=Z) (V:=string) 2) = (Ok (), c')
        ∧ (get 1 c').1 = Ok "a"
        ∧ (contains 1 c').1 = true
        ∧ key_agreement c'.
Proof.
  apply (facade_facts.put_then_get_returns_the_value 1 "a" (make_lru_cache 2)).
  - split; [apply lru_tracking.lru_wf_make|reflexivity].
  - vm_compute. done.
Defined.

Lemma get_reads_without_writing_witness :
  (get 7 (make_fifo_cache (K:=Z) (V:=string) 2)).1
  = Throw (out_of_range "Key not found in cache").
Proof.
  exact (proj1 (facade_facts.get_reads_without_writing 7 (make_fifo_cache 2))).
Defined.

Lemma erase_removes_exactly_the_key_witness :
  (erase 7 (make_fifo_cache (K:=Z) (V:=string) 2)).1 = false.
Proof.
  exact (proj1 (facade_facts.erase_removes_exactly_the_key 7 (make_fifo_cache 2))).
Defined.

Lemma clear_empties_the_cache_witness :
  empty (clear (put 1 "a" (make_lfu_cache (K:=Z) (V:=string) 2)).2) = true.
Proof.
  exact (proj1 (facade_facts.clear_empties_the_cache
                  (put 1 "a" (make_lfu_cache 2)).2)).
Defined.
End facade_facts.

(** ** How much a full cache evicts *)

Module eviction_amount.
Import policy_based_cache cache_facts update_facts agreement_facts bound_facts.
Section facts.
Context {K V EP SP AP : Type} `{Countable K}.
Context `{!EvictionPolicy K EP, !EvictionModel K EP, !EvictionLaws K EP,
          !StoragePolicy K V SP, !StorageContents K V SP, !StorageLaws K V SP,
          !AccessPolicy K AP}.
Implicit Types c : policy_based_cache.t EP SP AP fixed_capacity_policy.t.
Local Open Scope Z_scope.



End facts.

Local Open Scope Z_scope.


End eviction_amount.

(** ** The eviction count of the fixed and the dynamic capacity policy *)

Module hard_capacity_facts.
Local Open Scope Z_scope.

(** X9: for the fixed and the dynamic capacity policy, [eviction_count] is the
    least number of evictions after which one more entry fits, and it is not
    zero exactly when [needs_eviction] holds. *)
Theorem hard_eviction_count_is_the_minimum s :
  0 ≤ s < SizeT.max →
  (∀ p, 0 ≤ fixed_capacity_policy.m_capacity p →
        soft_capacity_policy.minimum_eviction_count
          (fixed_capacity_policy.capacity p) s
          (fixed_capacity_policy.eviction_count s p)
        ∧ (fixed_capacity_policy.needs_eviction s p = true
           ↔ 0 < fixed_capacity_policy.eviction_count s p))
  ∧ (∀ p, 0 ≤ dynamic_capacity_policy.m_current_capacity p →
          soft_capacity_policy.minimum_eviction_count
            (dynamic_capacity_policy.capacity p) s
            (dynamic_capacity_policy.eviction_count s p)
          ∧ (dynamic_capacity_policy.needs_eviction s p = true
             ↔ 0 < dynamic_capacity_policy.eviction_count s p)).
Proof.
  intros Hs. split; intros p Hp.
  - unfold fixed_capacity_policy.eviction_count,
      fixed_capacity_policy.needs_eviction, fixed_capacity_policy.capacity,
      soft_capacity_policy.minimum_eviction_count, soft_capacity_policy.enough.
    case_bool_decide.
    + unwrap. split; [split; [lia|intros k' ?; lia]|]. split; [lia|done].
    + split; [split; [lia|intros k' ?; lia]|]. split; [done|lia].
  - unfold dynamic_capacity_policy.eviction_count,
      dynamic_capacity_policy.needs_eviction, dynamic_capacity_policy.capacity,
      soft_capacity_policy.minimum_eviction_count, soft_capacity_policy.enough.
    case_bool_decide.
    + unwrap. split; [split; [lia|intros k' ?; lia]|]. split; [lia|done].
    + split; [split; [lia|intros k' ?; lia]|]. split; [done|lia].
Qed.

Local Open Scope Z_scope.

Lemma hard_eviction_count_is_the_minimum_witness :
  soft_capacity_policy.minimum_eviction_count 2 5
    (fixed_capacity_policy.eviction_count 5 (fixed_capacity_policy.make 2)).
Proof.
  refine (proj1 (proj1 (hard_capacity_facts.hard_eviction_count_is_the_minimum 5 _)
                   (fixed_capacity_policy.make 2) _)).
  - vm_compute. split; [by intros ?|done].
  - vm_compute. by intros ?.
Defined.
End hard_capacity_facts.

(** ** The size limit of a capacity policy *)

Module limit_facts.
Import policy_based_cache cache_facts update_facts agreement_facts.

Section limit.
Context {K V EP SP AP CP : Type} `{Countable K}.
Context `{!EvictionPolicy K EP, !EvictionModel K EP, !EvictionLaws K EP,
          !StoragePolicy K V SP, !StorageContents K V SP, !StorageLaws K V SP,
          !AccessPolicy K AP, !CapacityPolicy CP}.
Implicit Types c : policy_based_cache.t EP SP AP CP.
Local Open Scope Z_scope.

(** What the size bound needs from a capacity policy: a limit of at least
    one and at most [ceiling], the largest size the arithmetic of the
    policy is exact for; when [needs_eviction] answers yes, an
    [eviction_count] that makes room for one entry below the limit; when it
    answers no, room for one entry; and a [set_capacity] that keeps all
    this for the arguments it accepts. *)
Variable limit : CP → Z.
Variable valid : CP → Prop.
Variable accepts : Z → Prop.
Variable ceiling : Z.

Hypothesis ceiling_range : ceiling < SizeT.max.
Hypothesis limit_range : ∀ cp, valid cp → 1 ≤ limit cp ≤ ceiling.
Hypothesis needs_eviction_spec : ∀ s cp,
  valid cp → 0 ≤ s ≤ ceiling →
  valid (cp_needs_eviction s cp).2
  ∧ limit (cp_needs_eviction s cp).2 = limit cp
  ∧ if (cp_needs_eviction s cp).1
    then s - limit cp + 1 ≤ cp_eviction_count s (cp_needs_eviction s cp).2
    else s < limit cp.
Hypothesis set_capacity_spec : ∀ n cp,
  valid cp → accepts n → valid (cp_set_capacity n cp).

Lemma storage_size_in_range c :
  within_limit limit valid c →
  st_size (m_storage_policy c) = Z.of_nat (base.size (cache_contents c))
  ∧ 0 ≤ Z.of_nat (base.size (cache_contents c)) ≤ ceiling.
Proof.
  clear needs_eviction_spec set_capacity_spec.
  intros (_ & Hvalid & Hsize). apply limit_range in Hvalid.
  split; [|lia]. rewrite st_size_contents.
  apply SizeT_facts.of_nat_small. size_t_bounds.
Qed.

(** The eviction that precedes an insertion or follows a change of
    capacity leaves room for one entry. *)
Lemma evict_if_necessary_within c :
  key_agreement c → valid (m_capacity_policy c) →
  0 ≤ Z.of_nat (base.size (cache_contents c)) ≤ ceiling →
  st_size (m_storage_policy c) = Z.of_nat (base.size (cache_contents c)) →
  ∃ c', evict_if_necessary_for_insertion c = (Ok (), c')
        ∧ key_agreement c'
        ∧ valid (m_capacity_policy c')
        ∧ cache_contents c' ⊆ cache_contents c
        ∧ Z.of_nat (base.size (cache_contents c')) < limit (m_capacity_policy c').
Proof.
  intros Hagree Hvalid Hrange Hs. unfold evict_if_necessary_for_insertion.
  rewrite Hs.
  destruct (needs_eviction_spec _ _ Hvalid Hrange) as (Hvalid' & Hlimit & Hneeded).
  pose proof (limit_range _ Hvalid) as Hone.
  destruct (cp_needs_eviction _ _) as [needed cp]; simpl in *.
  destruct needed.
  - unfold evict_entries.
    destruct (evict_loop_agreement
                (Z.to_nat (cp_eviction_count
                             (Z.of_nat (base.size (cache_contents c))) cp))
                (with_capacity cp c))
      as (c' & Hloop & Hagree' & Hsub & Hsize' & Hcp'); [done|].
    simpl in Hloop. rewrite Hloop. exists c'.
    split; [done|]. split; [done|]. rewrite Hcp'. simpl.
    split; [done|]. split; [done|].
    assert (Hsize0 : base.size (cache_contents c')
              = (base.size (cache_contents c)
                 - Z.to_nat (cp_eviction_count
                               (Z.of_nat (base.size (cache_contents c))) cp))%nat)
      by exact Hsize'.
    lia.
  - eexists. split; [reflexivity|]. simpl. split; [done|]. split; [done|].
    split; [done|]. unfold cache_contents in *; simpl. lia.
Qed.

Lemma put_within_limit k v c :
  within_limit limit valid c → within_limit limit valid (put k v c).2.
Proof.
  intros Hwithin.
  destruct (storage_size_in_range c Hwithin) as [Hs Hrange].
  destruct Hwithin as (Hagree & Hvalid & Hsize). unfold put.
  pose proof (st_contains_found k (m_storage_policy c)) as Hf.
  pose proof (st_contains_contents k (m_storage_policy c)) as Hc.
  destruct (st_contains _ _) as [found s]; simpl in *.
  assert (Hagree1 : key_agreement (with_storage s c))
    by by apply key_agreement_with_storage.
  assert (Hc1 : cache_contents (with_storage s c) = cache_contents c)
    by (unfold cache_contents; simpl; by rewrite Hc).
  destruct found; simpl.
  - symmetry in Hf. apply bool_decide_eq_true in Hf as [v0 Hv0].
    split; [apply update_and_notify_agreement; [done|by rewrite Hc1]|].
    rewrite insert_and_notify_capacity, insert_and_notify_contents, Hc1. simpl.
    split; [done|]. by erewrite map_size_insert_Some.
  - symmetry in Hf. apply bool_decide_eq_false in Hf.
    apply eq_None_not_Some in Hf.
    destruct (evict_if_necessary_within (with_storage s c))
      as (c' & -> & Hagree' & Hvalid' & Hsub & Hroom); [done|done|by rewrite Hc1| |].
    { rewrite Hc1, <- Hs. simpl. rewrite !st_size_contents. by rewrite Hc. }
    simpl. rewrite Hc1 in Hsub.
    assert (Hnew : cache_contents c' !! k = None).
    { by eapply lookup_weaken_None; [|exact Hsub]. }
    pose proof (limit_range _ Hvalid') as Hone.
    split; [apply insert_and_notify_agreement; [done..|lia]|].
    rewrite insert_and_notify_capacity, insert_and_notify_contents,
      map_size_insert_None by done.
    split; [done|lia].
Qed.

Lemma set_capacity_within_limit n c :
  within_limit limit valid c → accepts n →
  within_limit limit valid (set_capacity n c).2.
Proof.
  intros Hwithin Hn.
  destruct (storage_size_in_range c Hwithin) as [Hs Hrange].
  destruct Hwithin as (Hagree & Hvalid & Hsize).
  unfold set_capacity, evict_if_necessary_for_capacity_change.
  destruct (evict_if_necessary_within
              (with_capacity (cp_set_capacity n (m_capacity_policy c)) c))
    as (c' & Heq & Hagree' & Hvalid' & Hsub & Hroom);
    [done|by apply set_capacity_spec|done|done|].
  unfold evict_if_necessary_for_insertion in Heq. rewrite Heq. simpl.
  split; [done|]. split; [done|lia].
Qed.

Lemma perform_within_limit (op : operation K V) c :
  accepted_capacity accepts op →
  within_limit limit valid c → within_limit limit valid (perform op c).
Proof.
  intros Hop Hwithin. destruct op as [k v|k|k|k|n| | |]; simpl in *; try done.
  - by apply put_within_limit.
  - destruct Hwithin as (Hagree & Hvalid & Hsize).
    split; [by apply get_agreement|]. unfold get.
    pose proof (st_find_contents k (m_storage_policy c)) as Hc.
    destruct (st_find _ _) as [[value|] s]; simpl in *.
    + destruct (ac_on_access _ _) as [[] a]; simpl;
        unfold cache_contents; simpl; by rewrite Hc.
    + destruct (ac_on_miss _ _) as [? a]; simpl.
      unfold cache_contents; simpl; by rewrite Hc.
  - destruct Hwithin as (Hagree & Hvalid & Hsize).
    split; [by apply contains_agreement|]. unfold contains.
    pose proof (st_contains_contents k (m_storage_policy c)) as Hc.
    destruct (st_contains _ _) as [found s]; simpl in *.
    unfold cache_contents; simpl; by rewrite Hc.
  - destruct Hwithin as (Hagree & Hvalid & Hsize).
    split; [by apply erase_agreement|]. unfold erase.
    pose proof (st_erase_contents k (m_storage_policy c)) as Hc.
    destruct (st_erase _ _) as [was_erased s]; simpl in *.
    assert (Hle : (base.size (delete k (cache_contents c))
                   ≤ base.size (cache_contents c))%nat)
      by apply map_subseteq_size, delete_subseteq.
    destruct was_erased; simpl; unfold cache_contents in *; simpl;
      rewrite Hc; (split; [done|lia]).
  - by apply set_capacity_within_limit.
  - destruct Hwithin as (Hagree & Hvalid & Hsize).
    split; [apply clear_agreement|]. simpl. split; [done|].
    unfold cache_contents; simpl. rewrite st_clear_contents, map_size_empty.
    apply limit_range in Hvalid. lia.
Qed.

Lemma run_within_limit (ops : list (operation K V)) c :
  Forall (accepted_capacity accepts) ops →
  within_limit limit valid c → within_limit limit valid (run ops c).
Proof.
  revert c. induction ops as [|op ops IH]; intros c Hops Hwithin; [done|].
  apply Forall_cons in Hops as [Hop Hops].
  simpl. apply IH; [done|]. by apply perform_within_limit.
Qed.

Lemma fresh_within_limit (e : EP) (s : SP) (a : AP) (cp : CP) :
  ev_wf e → ev_tracked e = ∅ → st_contents s = ∅ → valid cp →
  within_limit limit valid (make e s a cp).
Proof.
  intros Hwf Htracked Hempty Hvalid. split; [|split]; simpl.
  - split; simpl; [done|]. unfold cache_contents; simpl.
    by rewrite Htracked, Hempty, dom_empty_L.
  - done.
  - unfold cache_contents; simpl. rewrite Hempty, map_size_empty.
    apply limit_range in Hvalid. lia.
Qed.
End limit.
End limit_facts.

(** ** The dynamic, the soft and the memory capacity policy *)

Module dynamic_capacity_facts.
Import policy_based_cache cache_facts limit_facts dynamic_capacity_policy.
Local Open Scope Z_scope.

Lemma bounded_range p : bounded p → 1 ≤ m_current_capacity p ≤ SizeT.max - 1.
Proof. unfold bounded. lia. Qed.

Lemma bounded_needs_eviction s p :
  bounded p → 0 ≤ s ≤ SizeT.max - 1 →
  bounded (cp_needs_eviction s p).2
  ∧ m_current_capacity (cp_needs_eviction s p).2 = m_current_capacity p
  ∧ if (cp_needs_eviction s p).1
    then s - m_current_capacity p + 1
         ≤ cp_eviction_count s (cp_needs_eviction s p).2
    else s < m_current_capacity p.
Proof.
  intros Hb Hs. simpl. split; [done|]. split; [done|].
  unfold needs_eviction, eviction_count. unfold bounded in Hb.
  case_bool_decide; [|lia]. unwrap. lia.
Qed.

Lemma bounded_set_capacity n p : bounded p → bounded (set_capacity n p).
Proof. unfold bounded, set_capacity; simpl. lia. Qed.

(** X10: [set_capacity_bounds] clamps: the lower bound becomes at least one, the
    upper bound at least the lower bound, and the current capacity moves between
    the two; [set_capacity] then keeps the capacity there whatever it is asked
    for, so that [capacity()] never returns 0 again. *)
Theorem capacity_stays_between_the_bounds lo hi p (requests : list Z) :
  Z.max (Z.max 1 lo) hi < SizeT.max →
  let p' := foldl (λ q n, set_capacity n q) (set_capacity_bounds lo hi p)
                  requests in
  m_min_capacity p' = Z.max 1 lo
  ∧ m_max_capacity p' = Z.max (Z.max 1 lo) hi
  ∧ m_min_capacity p' ≤ capacity p' ≤ m_max_capacity p'
  ∧ (∀ n, last requests = Some n →
          capacity p' = Z.max (Z.max 1 lo) (Z.min n (Z.max (Z.max 1 lo) hi))).
Proof.
  intros Hhi p'. subst p'.
  induction requests as [|n requests IH] using rev_ind.
  - simpl. split; [done|]. split; [done|]. split; [unfold capacity; simpl; lia|].
    by intros n Hn.
  - rewrite foldl_app. cbn [foldl].
    set (q := foldl _ _ requests) in *.
    destruct IH as (Hmin & Hmax & Hcap & _).
    unfold capacity, set_capacity; cbn [m_min_capacity m_max_capacity
                                         m_current_capacity].
    rewrite Hmin, Hmax. split; [done|]. split; [done|]. split; [lia|].
    intros n'. rewrite last_snoc. by intros [= ->].
Qed.

Section cache.
Context {K V EP SP AP : Type} `{Countable K}.
Context `{!EvictionPolicy K EP, !EvictionModel K EP, !EvictionLaws K EP,
          !StoragePolicy K V SP, !StorageContents K V SP, !StorageLaws K V SP,
          !AccessPolicy K AP}.

(** X11: a cache composed with the dynamic capacity policy, once its bounds have
    been set, holds at most [capacity()] entries after every sequence of public
    operations, [set_capacity(0)] included. *)
Theorem dynamic_capacity_bounds_the_size (e : EP) (s : SP) (a : AP) base lo hi
    (ops : list (operation K V)) :
  ev_wf e → ev_tracked e = ∅ → st_contents s = ∅ →
  Z.max (Z.max 1 lo) hi < SizeT.max →
  let c := run ops (policy_based_cache.make e s a
                      (set_capacity_bounds lo hi
                         (dynamic_capacity_policy.make base))) in
  policy_based_cache.size c ≤ policy_based_cache.capacity c
  ∧ 1 ≤ policy_based_cache.capacity c
  ∧ key_agreement c.
Proof.
  intros Hwf Htracked Hempty Hhi c.
  assert (Hwithin : within_limit m_current_capacity bounded c).
  { apply (run_within_limit m_current_capacity bounded (λ _, True)
             (SizeT.max - 1)).
    - lia.
    - apply bounded_range.
    - apply bounded_needs_eviction.
    - intros n cp Hb _. by apply bounded_set_capacity.
    - apply Forall_forall. intros op _. by destruct op.
    - apply (fresh_within_limit _ _ (SizeT.max - 1));
        [apply bounded_range|done|done|done|].
      unfold bounded, set_capacity_bounds; simpl. lia. }
  destruct Hwithin as (Hagree & Hb & Hsize).
  apply bounded_range in Hb as Hrange.
  split; [|split; [exact (proj1 Hrange)|done]]. rewrite size_contents.
  rewrite SizeT_facts.of_nat_small by size_t_bounds. done.
Qed.
End cache.

Local Open Scope Z_scope.

Lemma capacity_stays_between_the_bounds_witness :
  dynamic_capacity_policy.capacity
    (foldl (λ q n, dynamic_capacity_policy.set_capacity n q)
       (dynamic_capacity_policy.set_capacity_bounds 0 50
          (dynamic_capacity_policy.make 100)) [0; 7; 0]) = 1.
Proof.
  refine (proj2 (proj2 (proj2
    (dynamic_capacity_facts.capacity_stays_between_the_bounds 0 50
       (dynamic_capacity_policy.make 100) [0; 7; 0] _))) 0 _).
  - vm_compute. done.
  - reflexivity.
Defined.

Lemma dynamic_capacity_bounds_the_size_witness :
  let c := run [Put 1 "a"; SetCapacity 0; Put 2 "b"; Put 3 "c"]
               (make_adaptive_cache (K:=Z) (V:=string) 100 0 50) in
  policy_based_cache.size c ≤ policy_based_cache.capacity c
  ∧ 1 ≤ policy_based_cache.capacity c ∧ key_agreement c.
Proof.
  apply (dynamic_capacity_facts.dynamic_capacity_bounds_the_size
           lru_eviction_policy.make hash_storage_policy.make
           (threshold_access_policy.make 2) 100 0 50).
  - apply lru_tracking.lru_wf_make.
  - reflexivity.
  - reflexivity.
  - vm_compute. done.
Defined.
End dynamic_capacity_facts.

Module soft_capacity_bound.
Import policy_based_cache cache_facts update_facts agreement_facts limit_facts
  soft_capacity_policy.
Local Open Scope Z_scope.

Lemma sound_range scaled p :
  sound scaled p → 1 ≤ m_max_capacity p ≤ SizeT.max - 1.
Proof. unfold sound. lia. Qed.

Lemma sound_needs_eviction scaled s p :
  sound scaled p → 0 ≤ s ≤ SizeT.max - 1 →
  sound scaled (cp_needs_eviction s p).2
  ∧ m_max_capacity (cp_needs_eviction s p).2 = m_max_capacity p
  ∧ if (cp_needs_eviction s p).1
    then s - m_max_capacity p + 1
         ≤ cp_eviction_count s (cp_needs_eviction s p).2
    else s < m_max_capacity p.
Proof.
  intros Hsound Hs. simpl. split; [done|]. split; [done|].
  unfold needs_eviction, eviction_count. destruct Hsound as (_ & Ht & Hm).
  case_bool_decide; [|lia]. unwrap. lia.
Qed.

Lemma sound_set_capacity scaled n p :
  sound scaled p → admissible scaled n → sound scaled (set_capacity n p).
Proof.
  intros (Hscaled & _) [Hn Hm]. unfold sound, set_capacity; simpl.
  rewrite Hscaled. done.
Qed.

Lemma sound_make scaled t : admissible scaled t → sound scaled (make t scaled).
Proof. intros [Ht Hm]. unfold sound, make; simpl. done. Qed.

Section cache.
Context {K V EP SP AP : Type} `{Countable K}.
Context `{!EvictionPolicy K EP, !EvictionModel K EP, !EvictionLaws K EP,
          !StoragePolicy K V SP, !StorageContents K V SP, !StorageLaws K V SP,
          !AccessPolicy K AP}.
Implicit Types c : policy_based_cache.t EP SP AP soft_capacity_policy.t.

(** X12: a cache composed with the soft capacity policy holds at most
    [max_capacity()] entries after every sequence of public operations; it may
    hold more than [capacity()], the target. *)
Theorem soft_capacity_bounds_the_size (e : EP) (s : SP) (a : AP) t scaled
    (ops : list (operation K V)) :
  ev_wf e → ev_tracked e = ∅ → st_contents s = ∅ →
  admissible scaled t →
  Forall (accepted_capacity (admissible scaled)) ops →
  let c := run ops (policy_based_cache.make e s a (make t scaled)) in
  policy_based_cache.size c ≤ max_capacity (m_capacity_policy c)
  ∧ key_agreement c.
Proof.
  intros Hwf Htracked Hempty Ht Hops c.
  assert (Hwithin : within_limit m_max_capacity (sound scaled) c).
  { apply (run_within_limit m_max_capacity (sound scaled) (admissible scaled)
             (SizeT.max - 1)).
    - lia.
    - apply sound_range.
    - apply sound_needs_eviction.
    - apply sound_set_capacity.
    - done.
    - apply (fresh_within_limit _ _ (SizeT.max - 1));
        [apply sound_range|done|done|done|by apply sound_make]. }
  destruct Hwithin as (Hagree & Hsound & Hsize).
  apply sound_range in Hsound as Hrange.
  split; [|done]. rewrite size_contents.
  rewrite SizeT_facts.of_nat_small by size_t_bounds. done.
Qed.

End cache.

Local Open Scope Z_scope.

Lemma soft_capacity_bounds_the_size_witness :
  let c := run [Put 1 "a"; Put 2 "b"; Put 3 "c"; SetCapacity 1; Put 4 "d"]
               (policy_based_cache.make (lru_eviction_policy.make (K:=Z))
                  (hash_storage_policy.make (K:=Z) (V:=string))
                  update_on_access_policy.make
                  (soft_capacity_policy.make 2 soft_capacity_policy.half_again)) in
  policy_based_cache.size c
  ≤ soft_capacity_policy.max_capacity (policy_based_cache.m_capacity_policy c)
  ∧ key_agreement c.
Proof.
  apply (soft_capacity_bound.soft_capacity_bounds_the_size
           lru_eviction_policy.make hash_storage_policy.make
           update_on_access_policy.make 2 soft_capacity_policy.half_again).
  - apply lru_tracking.lru_wf_make.
  - reflexivity.
  - reflexivity.
  - vm_compute. repeat split; by intros ?.
  - repeat constructor; vm_compute; by intros ?.
Defined.

End soft_capacity_bound.

Module memory_capacity_facts.
Import policy_based_cache cache_facts limit_facts memory_capacity_policy.
Local Open Scope Z_scope.

(** The number of entries the budget has room for, rounded up. *)
Lemma budget_quotient L est :
  1 ≤ est → 0 ≤ L →
  L / est ≤ (L + est - 1) / est ≤ L / est + 1
  ∧ L ≤ est * ((L + est - 1) / est)
  ∧ (L mod est = 0 → (L + est - 1) / est = L / est).
Proof.
  intros Hest HL.
  pose proof (Z.div_mod L est ltac:(lia)) as Hdiv.
  pose proof (Z.mod_pos_bound L est ltac:(lia)) as Hmod.
  set (q := L / est) in *. set (r := L mod est) in *.
  assert (Hsum : L + est - 1 = q * est + (r + est - 1)) by lia.
  rewrite Hsum, Z.div_add_l by lia.
  destruct (decide (r = 0)) as [Hr|Hr].
  - rewrite Hr, Z.div_small by lia. split; [lia|]. split; [nia|lia].
  - assert (Hone : (r + est - 1) / est = 1).
    { replace (r + est - 1) with (1 * est + (r - 1)) by lia.
      rewrite Z.div_add_l, Z.div_small by lia. done. }
    rewrite Hone. split; [lia|]. split; [nia|lia].
Qed.

Lemma wrap_exact z : 0 ≤ z < 18446744073709551616 → SizeT.wrap z = z.
Proof. intros Hz. apply SizeT_facts.wrap_small. size_t_bounds. Qed.

Lemma usage_exact item_size s :
  1 ≤ item_size → 0 ≤ s → (s + 2) * item_size ≤ SizeT.modulus →
  SizeT.mul s item_size = s * item_size.
Proof.
  intros Hone Hs Hfit. rewrite SizeT_facts.modulus_eq in Hfit.
  unfold SizeT.mul. apply wrap_exact. nia.
Qed.

Lemma eviction_count_at_budget item_size s p :
  budgeted item_size p →
  0 ≤ s → (s + 2) * item_size ≤ SizeT.modulus →
  m_memory_limit p ≤ s * item_size →
  eviction_count s p = s + 1 - m_memory_limit p / item_size.
Proof.
  intros (Hest & Hone & HL & Hbig) Hs Hfit Hfull.
  unfold eviction_count. rewrite Hest, usage_exact by done.
  rewrite bool_decide_eq_true_2 by done.
  rewrite SizeT_facts.modulus_eq in Hbig, Hfit.
  assert (Hexcess : SizeT.sub (SizeT.add (SizeT.add
             (SizeT.sub (s * item_size) (m_memory_limit p)) item_size) item_size) 1
           = s * item_size - m_memory_limit p + 2 * item_size - 1).
  { unfold SizeT.add, SizeT.sub.
    rewrite (wrap_exact (s * item_size - m_memory_limit p)) by nia.
    rewrite (wrap_exact (s * item_size - m_memory_limit p + item_size)) by nia.
    rewrite (wrap_exact (s * item_size - m_memory_limit p + item_size + item_size))
      by nia.
    rewrite wrap_exact by nia. lia. }
  rewrite Hexcess.
  pose proof (Z.div_mod (m_memory_limit p) item_size ltac:(lia)) as Hdiv.
  pose proof (Z.mod_pos_bound (m_memory_limit p) item_size ltac:(lia)) as Hmod.
  set (q := m_memory_limit p / item_size) in *.
  set (r := m_memory_limit p mod item_size) in *.
  replace (s * item_size - m_memory_limit p + 2 * item_size - 1)
    with ((s - q + 1) * item_size + (item_size - 1 - r)) by lia.
  rewrite Z.div_add_l, Z.div_small by lia. lia.
Qed.

(** X14: when the estimated usage has reached the budget, [eviction_count]
    leaves exactly [capacity()] entries once the new one is inserted; below the
    budget nothing is evicted, even when the new entry takes the usage above it. *)
Theorem memory_eviction_count_leaves_capacity item_size s p :
  budgeted item_size p →
  0 ≤ s → (s + 2) * item_size ≤ SizeT.modulus →
  (needs_eviction s p).1 = bool_decide (m_memory_limit p ≤ s * item_size)
  ∧ if bool_decide (m_memory_limit p ≤ s * item_size)
    then s - eviction_count s p + 1 = capacity p
    else eviction_count s p = 0.
Proof.
  intros Hb Hs Hfit. pose proof Hb as (Hest & Hone & HL & Hbig).
  split.
  - unfold needs_eviction; simpl. by rewrite Hest, usage_exact.
  - case_bool_decide as Hfull.
    + rewrite (eviction_count_at_budget item_size) by done.
      unfold capacity. rewrite Hest, bool_decide_eq_true_2 by lia. lia.
    + unfold eviction_count. rewrite Hest, usage_exact by done.
      by rewrite bool_decide_eq_false_2.
Qed.

Lemma ceiling_fits item_size s :
  1 ≤ item_size → 0 ≤ s ≤ ceiling item_size →
  (s + 2) * item_size ≤ SizeT.modulus.
Proof.
  intros Hone Hs. unfold ceiling in Hs.
  pose proof (Z.mul_div_le SizeT.modulus item_size ltac:(lia)). nia.
Qed.

Lemma ceiling_range item_size : 1 ≤ item_size → ceiling item_size < SizeT.max.
Proof.
  intros Hone. unfold ceiling.
  assert (SizeT.modulus / item_size ≤ SizeT.modulus); [|unfold SizeT.max; lia].
  apply Z.div_le_upper_bound; [lia|]. rewrite SizeT_facts.modulus_eq. nia.
Qed.

Lemma budgeted_range item_size p :
  budgeted item_size p → 1 ≤ entries_within_budget p ≤ ceiling item_size.
Proof.
  intros (Hest & Hone & HL & Hbig). unfold entries_within_budget, ceiling.
  rewrite Hest. split.
  - apply Z.div_le_lower_bound; lia.
  - assert ((m_memory_limit p + item_size - 1) / item_size + 2
            ≤ SizeT.modulus / item_size); [|lia].
    replace ((m_memory_limit p + item_size - 1) / item_size + 2)
      with ((m_memory_limit p + item_size - 1 + 2 * item_size) / item_size)
      by (rewrite Z.div_add by lia; done).
    apply Z.div_le_mono; lia.
Qed.

Lemma budgeted_needs_eviction item_size s p :
  budgeted item_size p → 0 ≤ s ≤ ceiling item_size →
  budgeted item_size (cp_needs_eviction s p).2
  ∧ entries_within_budget (cp_needs_eviction s p).2 = entries_within_budget p
  ∧ if (cp_needs_eviction s p).1
    then s - entries_within_budget p + 1
         ≤ cp_eviction_count s (cp_needs_eviction s p).2
    else s < entries_within_budget p.
Proof.
  intros Hb Hs. pose proof Hb as (Hest & Hone & HL & Hbig).
  pose proof (ceiling_fits item_size s Hone Hs) as Hfit.
  pose proof (budget_quotient (m_memory_limit p) item_size Hone ltac:(lia))
    as (Hq & Hup & _).
  simpl. split; [done|]. split; [done|].
  unfold needs_eviction; simpl. rewrite Hest, usage_exact by lia.
  unfold entries_within_budget. rewrite Hest.
  case_bool_decide as Hfull.
  - rewrite (eviction_count_at_budget item_size) by (done || lia).
    simpl. lia.
  - nia.
Qed.

Lemma budgeted_set_capacity item_size n p :
  budgeted item_size p → affordable item_size n →
  budgeted item_size (set_capacity n p).
Proof.
  intros (Hest & Hone & HL & Hbig) [Hn Hfit].
  unfold budgeted, set_capacity; simpl. rewrite Hest.
  rewrite SizeT_facts.modulus_eq in *.
  unfold SizeT.mul. rewrite wrap_exact by nia.
  split; [done|]. split; [done|]. split; [nia|lia].
Qed.

Section cache.
Context {K V EP SP AP : Type} `{Countable K}.
Context `{!EvictionPolicy K EP, !EvictionModel K EP, !EvictionLaws K EP,
          !StoragePolicy K V SP, !StorageContents K V SP, !StorageLaws K V SP,
          !AccessPolicy K AP}.

(** X15: a cache composed with the memory capacity policy holds at most one
    entry more than [capacity()], and at most [capacity()] entries when the item
    estimate divides the memory limit: an insertion below the budget is not
    preceded by an eviction even when it crosses the budget. *)
Theorem memory_capacity_bounds_the_size (e : EP) (s : SP) (a : AP)
    p_memory_limit item_size (ops : list (operation K V)) :
  ev_wf e → ev_tracked e = ∅ → st_contents s = ∅ →
  1 ≤ item_size → 1 ≤ p_memory_limit →
  p_memory_limit + 3 * item_size ≤ SizeT.modulus →
  Forall (accepted_capacity (affordable item_size)) ops →
  let c := run ops (policy_based_cache.make e s a
                      (memory_capacity_policy.make p_memory_limit item_size)) in
  policy_based_cache.size c ≤ policy_based_cache.capacity c + 1
  ∧ (m_memory_limit (m_capacity_policy c) mod item_size = 0 →
     policy_based_cache.size c ≤ policy_based_cache.capacity c)
  ∧ key_agreement c.
Proof.
  intros Hwf Htracked Hempty Hone HL Hbig Hops c.
  assert (Hwithin : within_limit entries_within_budget (budgeted item_size) c).
  { apply (run_within_limit entries_within_budget (budgeted item_size)
             (affordable item_size) (ceiling item_size)).
    - by apply ceiling_range.
    - apply budgeted_range.
    - apply budgeted_needs_eviction.
    - apply budgeted_set_capacity.
    - done.
    - apply (fresh_within_limit _ _ (ceiling item_size));
        [apply budgeted_range|done|done|done|done]. }
  destruct Hwithin as (Hagree & Hb & Hsize).
  pose proof (budgeted_range _ _ Hb) as Hrange.
  pose proof (ceiling_range item_size Hone) as Hceiling.
  destruct Hb as (Hest & _ & HL' & Hbig').
  pose proof (budget_quotient (m_memory_limit (m_capacity_policy c)) item_size
                Hone ltac:(lia)) as (Hq & _ & Hexact).
  unfold policy_based_cache.capacity; simpl. unfold capacity.
  unfold entries_within_budget in *. rewrite Hest in *.
  rewrite bool_decide_eq_true_2 by lia.
  rewrite size_contents, SizeT_facts.of_nat_small by size_t_bounds.
  split; [lia|]. split; [|done]. intros Hmod. rewrite <- Hexact by done. lia.
Qed.
End cache.

Local Open Scope Z_scope.

Lemma memory_eviction_count_leaves_capacity_witness :
  let p := memory_capacity_policy.make 10 4 in
  5 - memory_capacity_policy.eviction_count 5 p + 1
  = memory_capacity_policy.capacity p.
Proof.
  intros p.
  destruct (memory_capacity_facts.memory_eviction_count_leaves_capacity 4 5 p)
    as [_ Hcount].
  - vm_compute. repeat split; by intros ?.
  - done.
  - vm_compute. by intros ?.
  - exact Hcount.
Defined.

Lemma memory_capacity_bounds_the_size_witness :
  let c := run [Put 1 "a"; Put 2 "b"; Put 3 "c"; Put 4 "d"]
               (make_memory_efficient_cache (K:=Z) (V:=string) 10 4) in
  policy_based_cache.size c ≤ policy_based_cache.capacity c + 1.
Proof.
  refine (proj1 (memory_capacity_facts.memory_capacity_bounds_the_size
           lru_eviction_policy.make compact_storage_policy.make
           update_on_access_policy.make 10 4
           [Put 1 "a"; Put 2 "b"; Put 3 "c"; Put 4 "d"] _ _ _ _ _ _ _)).
  - apply lru_tracking.lru_wf_make.
  - reflexivity.
  - reflexivity.
  - done.
  - done.
  - vm_compute. by intros ?.
  - repeat constructor.
Defined.
End memory_capacity_facts.

(** ** The access list of LRU and MRU *)

Module recency_facts.
Import lru_eviction_policy std_list_facts lru_tracking.
Section facts.
Context {K : Type} `{Countable K}.
Implicit Types p : lru_eviction_policy.t K.


Lemma keys_erase it k (l : std_list.t K) :
  (∀ n, n ∈ l → std_list.node_iterator n = it ↔ std_list.node_key n = k) →
  std_list.keys (std_list.erase it l) = filter (λ j, j ≠ k) (std_list.keys l).
Proof.
  unfold std_list.keys, std_list.erase.
  induction l as [|n l IH]; intros Hl; [done|].
  rewrite fmap_cons, !filter_cons.
  pose proof (Hl n ltac:(left)) as Hn.
  rewrite <- IH by (intros n' Hn'; apply Hl; by right).
  destruct (decide (std_list.node_iterator n ≠ it)) as [Hit|Hit];
    destruct (decide (std_list.node_key n ≠ k)) as [Hkey|Hkey]; try done.
  - apply dec_stable in Hkey. apply Hn in Hkey. done.
  - apply dec_stable in Hit. apply Hn in Hit. done.
Qed.





End facts.

Local Open Scope Z_scope.

End recency_facts.

(** ** The queue of FIFO *)

Module fifo_order.
Import fifo_eviction_policy fifo_tracking.
Section facts.
Context {K : Type} `{Countable K}.
Implicit Types p : fifo_eviction_policy.t K.
Local Open Scope Z_scope.

(** X17: [select_victim] pops the queue up to and including the oldest key that
    is still tracked and returns that key; the keys it skips are stale. It
    throws [std::runtime_error] only when the queue holds no tracked key, and
    has emptied the queue by then. *)
Theorem select_victim_returns_the_oldest_tracked_key p :
  match select_victim p with
  | (Ok victim, p') =>
      victim ∈ tracked p
      ∧ m_key_exists p' = m_key_exists p
      ∧ ∃ skipped,
          m_insertion_queue p = skipped ++ victim :: m_insertion_queue p'
          ∧ ∀ j, j ∈ skipped → j ∉ tracked p
  | (Throw ex, p') =>
      ex = runtime_error "Cannot select victim from empty FIFO policy"
      ∧ m_key_exists p' = m_key_exists p
      ∧ m_insertion_queue p' = []
      ∧ ∀ j, j ∈ m_insertion_queue p → j ∉ tracked p
  end.
Proof.
  unfold select_victim.
  pose proof (fifo_pop_until_existing_spec (m_key_exists p) (m_insertion_queue p))
    as Hpop.
  assert (Hex : ∀ ex rest,
    pop_until_existing (m_key_exists p) (m_insertion_queue p) = (Throw ex, rest) →
    ex = runtime_error "Cannot select victim from empty FIFO policy").
  { generalize (m_insertion_queue p). intros queue.
    induction queue as [|candidate queue IH]; simpl; intros ex rest.
    - by intros [= <- _].
    - destruct (m_key_exists p !! candidate) as [[]|]; [done|apply IH..]. }
  destruct (pop_until_existing _ _) as [[victim|ex] rest]; simpl.
  - destruct Hpop as (Hvictim & skipped & Hqueue & Hskipped).
    split; [by apply fifo_elem_of_tracked|]. split; [done|].
    exists skipped. split; [done|]. intros j Hj.
    rewrite fifo_elem_of_tracked. by apply Hskipped.
  - destruct Hpop as (-> & _ & Hall). split; [by eapply Hex|].
    split; [done|]. split; [done|]. intros j Hj.
    rewrite fifo_elem_of_tracked. by apply Hall.
Qed.

Lemma pop_until_existing_finds (exists_ : gmap K bool) k older rest :
  exists_ !! k = Some true →
  (∀ j, j ∈ older → j ≠ k → exists_ !! j ≠ Some true) →
  ∃ pre, pop_until_existing exists_ (older ++ k :: rest) = (Ok k, pre ++ rest).
Proof.
  intros Hk. induction older as [|j older IH]; simpl; intros Holder.
  - rewrite Hk. by exists [].
  - destruct (decide (j = k)) as [->|Hj].
    + rewrite Hk. by exists (older ++ [k]); rewrite <- app_assoc.
    + assert (Hstale : exists_ !! j ≠ Some true) by (apply Holder; [by left|done]).
      destruct (exists_ !! j) as [[]|]; [done|..];
        apply IH; intros j' Hj'; apply Holder; by right.
Qed.

(** X18: a key that is removed and inserted again is marked as present again,
    and with it the entry it left in the queue: the key keeps the place of its
    first insertion and is the next victim if it was the oldest key, while the
    entry of its second insertion stays behind in the queue. *)
Theorem reinserted_key_keeps_its_old_place k p older newer :
  m_insertion_queue p = older ++ k :: newer →
  (∀ j, j ∈ older → j ∉ tracked p) →
  (select_victim (on_insert k (remove_key k p))).1 = Ok k
  ∧ k ∈ m_insertion_queue (select_victim (on_insert k (remove_key k p))).2.
Proof.
  intros Hqueue Holder.
  assert (Hq : m_insertion_queue (on_insert k (remove_key k p))
               = older ++ k :: (newer ++ [k])).
  { unfold on_insert, remove_key.
    destruct (m_key_exists p !! k); simpl; rewrite Hqueue;
      by rewrite <- app_assoc. }
  assert (He : ∀ j, j ≠ k →
    m_key_exists (on_insert k (remove_key k p)) !! j = m_key_exists p !! j).
  { intros j Hj. unfold on_insert, remove_key.
    destruct (m_key_exists p !! k); simpl;
      by rewrite ?lookup_insert_ne by done. }
  assert (Hk : m_key_exists (on_insert k (remove_key k p)) !! k = Some true).
  { unfold on_insert. simpl. apply lookup_insert_eq. }
  unfold select_victim. rewrite Hq.
  destruct (pop_until_existing_finds
              (m_key_exists (on_insert k (remove_key k p))) k older (newer ++ [k]))
    as [pre ->]; [done| |].
  - intros j Hj Hne. rewrite He by done.
    rewrite <- fifo_elem_of_tracked. by apply Holder.
  - simpl. split; [done|]. rewrite !elem_of_app. right. right. by left.
Qed.

(** X19: [size()] is the number of tracked keys. *)
Theorem size_counts_the_tracked_keys p :
  size p = SizeT.of_nat (base.size (tracked p)).
Proof.
  unfold size, tracked. rewrite size_dom.
  apply (map_fold_weak_ind
           (λ count (m : gmap K bool),
              count = SizeT.of_nat (base.size (filter (λ entry, entry.2 = true) m)))).
  - by rewrite map_filter_empty, map_size_empty.
  - intros k second m count Hk ->. destruct second.
    + rewrite map_filter_insert_True by done.
      rewrite map_size_insert_None by (by apply map_lookup_filter_None_2; left).
      unfold SizeT.add, SizeT.of_nat, SizeT.wrap.
      rewrite Nat2Z.inj_succ, Z.add_mod_idemp_l by done. done.
    + rewrite map_filter_insert_False by done.
      by rewrite delete_id.
Qed.
End facts.

Local Open Scope Z_scope.

Lemma reinserted_key_keeps_its_old_place_witness :
  let p := fifo_eviction_policy.on_insert 2
             (fifo_eviction_policy.on_insert 1 fifo_eviction_policy.make) in
  (fifo_eviction_policy.select_victim
     (fifo_eviction_policy.on_insert 1
        (fifo_eviction_policy.remove_key 1 p))).1 = Ok 1.
Proof.
  intros p.
  refine (proj1 (fifo_order.reinserted_key_keeps_its_old_place 1 p [] [2] _ _)).
  - reflexivity.
  - by intros j ?%not_elem_of_nil.
Defined.
End fifo_order.

(** ** The key vector of RANDOM *)

Module random_index.
Import random_eviction_policy random_tracking.
Section facts.
Context {K : Type} `{Countable K} {G : Type} `{!libc.Rand G}.
Implicit Types p : random_eviction_policy.t K G.
Local Open Scope Z_scope.


End facts.


Local Open Scope Z_scope.


End random_index.

(** ** The victim of MFU *)

Module mfu_victim.
Import lfu_eviction_policy lfu_history std_list_facts lfu_facts std_map_facts.
Section facts.
Context {K : Type} `{Countable K}.
Implicit Types p : lfu_eviction_policy.t K.

Lemma sorted_last_greatest {T} (l : list (Z * T)) x y :
  StronglySorted std_map.key_le l → last l = Some x → y ∈ l →
  std_map.key_le y x.
Proof.
  intros Hs Hlast Hy. apply last_Some in Hlast as [l' ->].
  apply elem_of_app in Hy as [Hy|Hy%list_elem_of_singleton].
  - revert Hs. induction l' as [|z l' IH]; intros Hs;
      [by apply not_elem_of_nil in Hy|].
    simpl in Hs. apply StronglySorted_inv in Hs as [Hs Hall].
    apply elem_of_cons in Hy as [->|Hy]; [|by apply IH].
    rewrite Forall_forall in Hall. apply Hall.
    apply elem_of_app. right. by left.
  - subst y. unfold std_map.key_le. lia.
Qed.

Lemma rentries_head_greatest {T} (m : gmap Z T) f b rest g b' :
  std_map.rentries m = (f, b) :: rest → m !! g = Some b' → (g ≤ f)%Z.
Proof.
  intros Hhead Hg. apply elem_of_entries in Hg.
  assert (Hlast : last (std_map.entries m) = Some (f, b)).
  { unfold std_map.rentries in Hhead. rewrite <- head_reverse. by rewrite Hhead. }
  apply (sorted_last_greatest _ _ _ (entries_sorted m) Hlast Hg).
Qed.

(** What the [select_victim] of MFU returns in a consistent state. *)
Lemma mfu_select_victim_consistent p arrived now :
  consistent p arrived now →
  m_key_frequency p ≠ ∅ →
  ∃ f it victim rest t,
    head (std_map.rentries (m_frequency_buckets p))
      = Some (f, (it, victim) :: rest)
    ∧ mfu_eviction_policy.select_victim {| mfu_eviction_policy.state := p |}
      = Ok victim
    ∧ m_key_frequency p !! victim = Some f
    ∧ (∀ k g, m_key_frequency p !! k = Some g → (g ≤ f)%Z)
    ∧ arrived !! victim = Some t
    ∧ (∀ k, k ≠ victim → m_key_frequency p !! k = Some f →
            ∃ t', arrived !! k = Some t' ∧ t < t').
Proof.
  intros Hconsistent Hne.
  destruct Hconsistent
    as [Hrange Htracked Hnonempty Hdistinct Hnode Harrived Hsorted].
  apply map_choose in Hne as (k0 & f0 & Hk0).
  destruct (Htracked k0 f0 Hk0) as (it0 & b0 & _ & Hb0 & _).
  destruct (std_map.rentries (m_frequency_buckets p)) as [|[f b] entries] eqn:He.
  { unfold std_map.rentries in He. apply (f_equal reverse) in He.
    rewrite reverse_involutive in He. apply entries_nil in He.
    rewrite He in Hb0. by rewrite lookup_empty in Hb0. }
  assert (Hb : m_frequency_buckets p !! f = Some b).
  { apply elem_of_entries. apply elem_of_reverse.
    fold (std_map.rentries (m_frequency_buckets p)). rewrite He. by left. }
  destruct b as [|[it victim] rest]; [by apply Hnonempty in Hb|].
  destruct (Hnode f _ it victim Hb) as (Hf & Hit & _); [by left|].
  destruct (Harrived victim f Hf) as (t & Ht & _).
  exists f, it, victim, rest, t. split; [done|].
  split.
  { unfold mfu_eviction_policy.select_victim,
      mfu_eviction_policy.m_frequency_buckets. simpl.
    rewrite bool_decide_eq_false_2.
    - by rewrite He.
    - intros Hempty. by rewrite Hempty, lookup_empty in Hb. }
  split; [done|]. split.
  { intros k g Hg. destruct (Htracked k g Hg) as (? & bucket & _ & Hbucket & _).
    by eapply rentries_head_greatest. }
  split; [done|].
  intros k Hk Hkf.
  destruct (Htracked k f Hkf) as (it' & bucket & _ & Hbucket & Hin).
  rewrite Hb in Hbucket. injection Hbucket as <-.
  apply elem_of_cons in Hin as [[= -> ->]|Hin]; [done|].
  destruct (Harrived k f Hkf) as (t' & Ht' & _).
  exists t'. split; [done|].
  pose proof (Hsorted f _ Hb) as Hs. simpl in Hs.
  apply StronglySorted_inv in Hs as [_ Hall].
  rewrite Forall_fmap, Forall_forall in Hall. specialize (Hall _ Hin).
  unfold arrival in Hall; simpl in Hall. by rewrite Ht, Ht' in Hall.
Qed.

(** X22: in every state of a history in which a key is tracked, the
    [select_victim] of MFU returns the head of the bucket with the greatest
    frequency: the victim has the greatest frequency of all tracked keys and,
    among the keys of that frequency, is the one that reached it first. *)
Theorem mfu_victim_is_oldest_of_the_hottest p arrived now :
  reachable p arrived now →
  m_key_frequency p ≠ ∅ →
  ∃ f victim t,
    mfu_eviction_policy.select_victim {| mfu_eviction_policy.state := p |}
      = Ok victim
    ∧ m_key_frequency p !! victim = Some f
    ∧ (∀ k g, m_key_frequency p !! k = Some g → (g ≤ f)%Z)
    ∧ arrived !! victim = Some t
    ∧ (∀ k, k ≠ victim → m_key_frequency p !! k = Some f →
            ∃ t', arrived !! k = Some t' ∧ t < t').
Proof.
  intros Hreach Hne.
  destruct (mfu_select_victim_consistent p arrived now) as
    (f & it & victim & rest & t & _ & Hrest); [by apply reachable_consistent|done|].
  by exists f, victim, t.
Qed.
End facts.

Local Open Scope Z_scope.

Lemma mfu_victim_is_oldest_of_the_hottest_witness :
  ∃ victim,
    mfu_eviction_policy.select_victim
      {| mfu_eviction_policy.state := lfu_example |} = Ok victim
    ∧ lfu_eviction_policy.m_key_frequency lfu_example !! victim = Some 2.
Proof.
  assert (Hreach : lfu_history.reachable lfu_example lfu_example_arrived 3).
  { repeat (eapply (lfu_history.reachable_call _ _ _ _); [|]);
      try apply lfu_history.reachable_make; vm_compute; done. }
  assert (Hne : lfu_eviction_policy.m_key_frequency lfu_example ≠ ∅).
  { intros Hempty. apply (f_equal (λ m : gmap Z Z, m !! 1%Z)) in Hempty.
    vm_compute in Hempty. discriminate. }
  destruct (mfu_victim.mfu_victim_is_oldest_of_the_hottest _ _ _ Hreach Hne)
    as (f & victim & t & Hselect & Hf & Hmax & _).
  exists victim. split; [exact Hselect|].
  assert (Hle : 2 ≤ f) by (apply (Hmax 1); reflexivity).
  assert (Hge : f ≤ 2).
  { vm_compute in Hselect. injection Hselect as <-.
    vm_compute in Hf. injection Hf as <-. done. }
  rewrite Hf. f_equal. lia.
Defined.
End mfu_victim.

(** ** The counters of the debug storage policy *)

Module debug_storage_facts.
Import debug_storage_policy.
Section facts.
Context {K V W : Type} `{Countable K}
  `{!StoragePolicy K V W, !StorageContents K V W}.
Implicit Types p : debug_storage_policy.t W.
Implicit Types cs : list (storage_call K V).
Local Open Scope Z_scope.

Lemma count_snoc (f : storage_call K V → bool) cs c :
  length (filter (λ c, f c = true) (cs ++ [c]))
  = (length (filter (λ c, f c = true) cs) + (if f c then 1 else 0))%nat.
Proof.
  rewrite filter_app, length_app. f_equal.
  destruct (f c) eqn:Hc;
    [by rewrite filter_cons_True|by rewrite filter_cons_False by congruence].
Qed.

Lemma count_le (f : storage_call K V → bool) cs :
  (length (filter (λ c, f c = true) cs) ≤ length cs)%nat.
Proof. apply length_filter. Qed.

(** X23: the debug policy passes every call on to the policy it wraps, which
    ends up in the state it would be in without the wrapper; [operation_count()]
    is the number of calls other than [size] and [empty], and [hit_count()] and
    [miss_count()] add up to the number of calls of [find] and [contains]. *)
Theorem debug_counters_count_the_calls (w : W) cs :
  Z.of_nat (length cs) < SizeT.modulus →
  let p := foldl (λ p c, apply_storage_call c p) (make w) cs in
  m_wrapped_policy p = foldl (λ s c, apply_storage_call c s) w cs
  ∧ m_operation_count p
    = Z.of_nat (length (filter (λ c, is_operation c = true) cs))
  ∧ m_hit_count p + m_miss_count p
    = Z.of_nat (length (filter (λ c, is_lookup c = true) cs))
  ∧ 0 ≤ m_hit_count p ∧ 0 ≤ m_miss_count p.
Proof.
  induction cs as [|c cs IH] using rev_ind; intros Hlen p; [done|].
  subst p. rewrite length_app in Hlen. simpl in Hlen.
  rewrite !foldl_app. cbn [foldl].
  destruct IH as (Hw & Hops & Hlook & Hhit & Hmiss); [lia|].
  set (q := foldl _ (make w) cs) in *.
  rewrite !count_snoc, <- Hw.
  pose proof (count_le is_operation cs) as Hle1.
  pose proof (count_le is_lookup cs) as Hle2.
  assert (Hinc : ∀ z, 0 ≤ z → z ≤ Z.of_nat (length cs) → SizeT.add z 1 = z + 1).
  { intros z Hz Hzl. unwrap. done. }
  destruct c as [k v|k|k|k| | |]; simpl.
  - unfold insert. simpl. destruct (st_insert _ _ _) as [? w']; simpl.
    rewrite Hinc by lia. repeat split; try lia.
  - unfold find. simpl. destruct (st_find _ _) as [found w']; simpl.
    rewrite Hinc by lia.
    destruct (bool_decide (is_Some found)); rewrite Hinc by lia;
      repeat split; lia.
  - unfold erase. simpl. destruct (st_erase _ _) as [? w']; simpl.
    rewrite Hinc by lia. repeat split; try lia.
  - unfold contains. simpl. destruct (st_contains _ _) as [found w']; simpl.
    rewrite Hinc by lia.
    destruct found; rewrite Hinc by lia; repeat split; lia.
  - repeat split; lia.
  - repeat split; lia.
  - rewrite Hinc by lia. repeat split; lia.
Qed.
End facts.

Local Open Scope Z_scope.

Lemma debug_counters_count_the_calls_witness :
  let p := foldl (λ p c, apply_storage_call c p)
             (debug_storage_policy.make
                (hash_storage_policy.make (K:=Z) (V:=string)))
             [Insert 1 "a"; Find 1; StorageSize; ContainsKey 2; ClearStorage] in
  debug_storage_policy.m_operation_count p = 4
  ∧ debug_storage_policy.m_hit_count p + debug_storage_policy.m_miss_count p = 2.
Proof.
  intros p.
  destruct (debug_storage_facts.debug_counters_count_the_calls
              (hash_storage_policy.make (K:=Z) (V:=string))
              [Insert 1 "a"; Find 1; StorageSize; ContainsKey 2; ClearStorage])
    as (_ & Hops & Hlookups & _).
  - vm_compute. done.
  - split; [exact Hops|exact Hlookups].
Defined.
End debug_storage_facts.

(** ** The threshold and the time decay access policy *)

Module access_facts.
Local Open Scope Z_scope.

Section threshold.
Import threshold_access_policy.
Context {K : Type} `{Countable K}.
Implicit Types p : threshold_access_policy.t K.

(** X24: [access_count(k)] is the number of hits reported for [k] since the
    policy was constructed, and a hit moves the key in the eviction order only
    from the hit on that brings the count up to the threshold. *)
Theorem threshold_counts_the_hits_of_a_key p_threshold (hits : list K) k :
  Z.of_nat (length hits) < SizeT.max →
  let p := foldl (λ p j, (on_access j p).2) (make p_threshold) hits in
  access_count k p = Z.of_nat (length (filter (λ j, j = k) hits))
  ∧ threshold p = p_threshold
  ∧ (on_access k p).1
    = bool_decide (p_threshold
                   ≤ Z.of_nat (length (filter (λ j, j = k) hits)) + 1).
Proof.
  intros Hlen p.
  assert (Hp : access_count k p = Z.of_nat (length (filter (λ j, j = k) hits))
               ∧ threshold p = p_threshold).
  { subst p. induction hits as [|j hits IH] using rev_ind; [done|].
    rewrite length_app in Hlen. simpl in Hlen.
    rewrite foldl_app. cbn [foldl].
    destruct IH as [Hcount Hth]; [lia|].
    set (q := foldl _ (make p_threshold) hits) in *.
    split; [|done].
    assert (Hle : ∀ i, (length (filter (λ j, j = i) hits) ≤ length hits)%nat)
      by (intros i; apply length_filter).
    rewrite filter_app, length_app.
    unfold access_count, on_access in *; simpl.
    rewrite lookup_insert. case_decide as Hjk.
    - subst j. rewrite filter_cons_True by done. simpl.
      rewrite Hcount. specialize (Hle k). unwrap. lia.
    - rewrite filter_cons_False by done. simpl. rewrite Hcount. lia. }
  destruct Hp as [Hcount Hth]. split; [done|]. split; [done|].
  unfold on_access; simpl. unfold access_count, threshold in *.
  rewrite Hcount, Hth.
  assert (Hle : (length (filter (λ j, j = k) hits) ≤ length hits)%nat)
    by apply length_filter.
  unwrap. done.
Qed.
End threshold.

Section time_decay.
Import time_decay_access_policy.
Context {K : Type} `{Countable K}.
Implicit Types p : time_decay_access_policy.t K.

(** X25: with a decay interval of at least one, a hit advances the logical
    clock by one and records the new time for the key; the decay pass that may
    follow drops records and never the one just made; the answer is always
    yes. *)
Theorem time_decay_records_the_hit k p :
  0 ≤ m_current_time p < SizeT.max →
  1 ≤ m_decay_interval p →
  ∃ p', on_access k p = Some (true, p')
    ∧ current_time p' = current_time p + 1
    ∧ last_access_time k p' = current_time p + 1
    ∧ m_decay_interval p' = m_decay_interval p
    ∧ ∀ j t, m_last_access_time p' !! j = Some t →
             j ≠ k → m_last_access_time p !! j = Some t.
Proof.
  intros Hnow Hinterval. unfold on_access, current_time, last_access_time.
  assert (Hinc : SizeT.add (m_current_time p) 1 = m_current_time p + 1)
    by (unwrap; done).
  cbv zeta. rewrite !Hinc.
  rewrite (bool_decide_eq_false_2 (m_decay_interval p = 0)) by lia.
  eexists. split; [reflexivity|].
  case_bool_decide as Hdecay; simpl.
  - unfold apply_decay; simpl. split; [done|].
    set (twice := SizeT.mul (m_decay_interval p) 2).
    assert (Htwice : 0 ≤ twice) by (apply Z.mod_pos_bound; done).
    set (cutoff := if bool_decide (twice < m_current_time p + 1)
                   then SizeT.sub (m_current_time p + 1) twice else 0).
    assert (Hcutoff : cutoff ≤ m_current_time p + 1).
    { unfold cutoff. case_bool_decide; [|lia]. unwrap. lia. }
    split.
    + erewrite map_lookup_filter_Some_2;
        [|apply lookup_insert_eq|simpl; fold twice; fold cutoff; lia]. done.
    + split; [done|]. intros j t Hj Hne.
      apply map_lookup_filter_Some in Hj as [Hj _].
      by rewrite lookup_insert_ne in Hj.
  - split; [done|]. split; [by rewrite lookup_insert_eq|]. split; [done|].
    intros j t Hj Hne. by rewrite lookup_insert_ne in Hj.
Qed.
End time_decay.

Local Open Scope Z_scope.

Lemma threshold_counts_the_hits_of_a_key_witness :
  let p := foldl (λ p j, (threshold_access_policy.on_access j p).2)
             (threshold_access_policy.make 3) [1; 2; 1] in
  threshold_access_policy.access_count 1 p = 2
  ∧ (threshold_access_policy.on_access 1 p).1 = true
  ∧ (threshold_access_policy.on_access 2 p).1 = false.
Proof.
  intros p.
  destruct (access_facts.threshold_counts_the_hits_of_a_key 3 [1; 2; 1] 1)
    as (Hcount & _ & Hone); [vm_compute; done|].
  destruct (access_facts.threshold_counts_the_hits_of_a_key 3 [1; 2; 1] 2)
    as (_ & _ & Htwo); [vm_compute; done|].
  split; [exact Hcount|]. split; [exact Hone|exact Htwo].
Defined.

Lemma time_decay_records_the_hit_witness :
  ∃ p', time_decay_access_policy.on_access 2
          (time_decay_access_policy.make (K:=Z) 1) = Some (true, p')
        ∧ time_decay_access_policy.last_access_time 2 p' = 1.
Proof.
  destruct (access_facts.time_decay_records_the_hit 2
              (time_decay_access_policy.make (K:=Z) 1))
    as (p' & Haccess & _ & Hlast & _).
  - vm_compute. split; [by intros ?|done].
  - vm_compute. by intros ?.
  - exists p'. split; [exact Haccess|exact Hlast].
Defined.
End access_facts.

(** ** The legacy FIFO cache *)

Module legacy_fifo_facts.
Import legacy_fifo.
Section facts.
Context {K V : Type} `{Countable K}.
Implicit Types c : legacy_fifo.t K V.
Local Open Scope Z_scope.

Lemma queue_length c : wf c → length (m_queue c) = base.size (m_map c).
Proof.
  intros [Hnd Hiff]. rewrite <- size_dom.
  assert (Hdom : dom (m_map c) = list_to_set (m_queue c)).
  { apply set_eq. intros k. rewrite elem_of_dom, elem_of_list_to_set.
    symmetry. apply Hiff. }
  rewrite Hdom. symmetry. by apply size_list_to_set.
Qed.

(** One [put] on a cache of capacity at least one. *)
Lemma legacy_fifo_put_step k v c :
  wf c → 1 ≤ m_capacity c < SizeT.modulus →
  Z.of_nat (base.size (m_map c)) ≤ m_capacity c →
  ∃ c', put k v c = Some c'
    ∧ wf c'
    ∧ m_capacity c' = m_capacity c
    ∧ Z.of_nat (base.size (m_map c')) ≤ m_capacity c
    ∧ m_map c' !! k = Some v
    ∧ (is_Some (m_map c !! k) →
       m_queue c' = m_queue c ∧ m_map c' = <[k := v]> (m_map c))
    ∧ (m_map c !! k = None →
       if decide (Z.of_nat (base.size (m_map c)) < m_capacity c)
       then m_queue c' = m_queue c ++ [k] ∧ m_map c' = <[k := v]> (m_map c)
       else ∃ front queue,
         m_queue c = front :: queue
         ∧ m_queue c' = queue ++ [k]
         ∧ m_map c' = <[k := v]> (delete front (m_map c))).
Proof.
  intros Hwf Hcap Hsize. pose proof (queue_length c Hwf) as Hlen.
  destruct Hwf as [Hnd Hiff]. unfold put.
  destruct (m_map c !! k) as [v0|] eqn:Hk.
  - eexists. split; [reflexivity|]. simpl.
    split; [|split; [done|split; [|split; [apply lookup_insert_eq|split; [done|done]]]]].
    + split; [done|]. intros j. simpl. rewrite Hiff, lookup_insert.
      case_decide as Hj; [subst j|done]. rewrite Hk. split; by eexists.
    + by erewrite map_size_insert_Some.
  - rewrite SizeT_facts.of_nat_small by size_t_bounds.
    case_bool_decide as Hfull; simpl.
    + destruct (m_queue c) as [|front queue] eqn:Hq.
      { simpl in Hlen. lia. }
      simpl. eexists. split; [reflexivity|]. simpl.
      apply NoDup_cons in Hnd as [Hfront Hnd].
      assert (Hfk : front ≠ k).
      { intros ->. assert (is_Some (m_map c !! k)) as [? ?]; [|congruence].
        apply Hiff. by left. }
      assert (Hin : is_Some (m_map c !! front)) by (apply Hiff; by left).
      assert (Hnew : delete front (m_map c) !! k = None)
        by by rewrite lookup_delete_ne.
      split; [|split; [done|split; [|split; [apply lookup_insert_eq|split]]]].
      * split; simpl.
        { apply NoDup_app. split; [done|]. split; [|apply NoDup_singleton].
          intros j Hj ->%list_elem_of_singleton.
          assert (is_Some (m_map c !! k)) as [? ?]; [|congruence].
          apply Hiff. by right. }
        intros j. rewrite elem_of_app, list_elem_of_singleton, lookup_insert.
        case_decide as Hj; [subst j; split; [by eexists|by right]|].
        rewrite lookup_delete. case_decide as Hjf.
        { subst j. split; [by intros [?|?]|by intros [? ?]]. }
        rewrite <- Hiff, elem_of_cons. split; [intros [?|?]; [by right|done]|].
        intros [?|?]; [done|by left].
      * rewrite map_size_insert_None by done.
        destruct Hin as [v1 Hv1]. rewrite map_size_delete_Some by done.
        assert (base.size (m_map c) ≠ 0%nat); [|lia].
        intros Hz. apply map_size_empty_inv in Hz. by rewrite Hz in Hv1.
      * by intros [? ?].
      * intros _. rewrite decide_False by lia. by exists front, queue.
    + eexists. split; [reflexivity|]. simpl.
      split; [|split; [done|split; [|split; [apply lookup_insert_eq|split]]]].
      * split; simpl.
        { apply NoDup_app. split; [done|]. split; [|apply NoDup_singleton].
          intros j Hj ->%list_elem_of_singleton.
          assert (is_Some (m_map c !! k)) as [? ?]; [|congruence].
          by apply Hiff. }
        intros j. rewrite elem_of_app, list_elem_of_singleton, lookup_insert.
        case_decide as Hj; [subst j; split; [by eexists|by right]|].
        rewrite <- Hiff. split; [by intros [?|?]|by left].
      * rewrite map_size_insert_None by done. lia.
      * by intros [? ?].
      * intros _. by rewrite decide_True by lia.
Qed.

(** X26: a legacy FIFO cache constructed with a capacity of at least one never
    pops its empty queue, holds at most [capacity()] entries after every
    sequence of [put], and returns from [get] the value of the last [put]. *)
Theorem legacy_fifo_stays_within_capacity n (entries : list (K * V)) :
  1 ≤ n < SizeT.modulus →
  ∃ c,
    foldl (λ cache entry, cache ≫= put entry.1 entry.2) (Some (make n)) entries
      = Some c
    ∧ wf c
    ∧ capacity c = n
    ∧ size c ≤ capacity c
    ∧ size c = Z.of_nat (length (m_queue c))
    ∧ ∀ k v, last entries = Some (k, v) → get k c = Ok v ∧ contains k c = true.
Proof.
  intros Hn.
  assert (Hinv : ∃ c,
    foldl (λ cache entry, cache ≫= put entry.1 entry.2) (Some (make n)) entries
      = Some c
    ∧ wf c ∧ m_capacity c = n
    ∧ Z.of_nat (base.size (m_map c)) ≤ n
    ∧ ∀ k v, last entries = Some (k, v) → m_map c !! k = Some v).
  { induction entries as [|[k v] entries IH] using rev_ind.
    - exists (make n). split; [done|]. split.
      { split; [constructor|]. intros k. simpl. rewrite lookup_empty.
        split; [by intros ?%not_elem_of_nil|by intros [? ?]]. }
      split; [done|]. split; [|done]. simpl. rewrite map_size_empty. lia.
    - destruct IH as (c & Hfold & Hwf & Hcap & Hsize & _).
      rewrite foldl_app. cbn [foldl]. rewrite Hfold. simpl.
      destruct (legacy_fifo_put_step k v c Hwf ltac:(lia) ltac:(lia))
        as (c' & -> & Hwf' & Hcap' & Hsize' & Hk & _).
      exists c'. split; [done|]. split; [done|]. split; [congruence|].
      split; [lia|]. intros k' v'. rewrite last_snoc. by intros [= <- <-]. }
  destruct Hinv as (c & Hfold & Hwf & Hcap & Hsize & Hlast).
  exists c. split; [done|]. split; [done|]. split; [done|].
  unfold size, capacity. rewrite SizeT_facts.of_nat_small by size_t_bounds.
  split; [lia|]. split; [by rewrite queue_length|].
  intros k v Hkv. apply Hlast in Hkv. unfold get, contains. rewrite Hkv.
  split; [done|]. by apply bool_decide_eq_true_2.
Qed.

(** X27: a [put] of a new key into a full legacy FIFO cache evicts the key at
    the front of the queue, the one inserted first; a [put] of a stored key
    overwrites its value and leaves the queue, and with it the order of
    eviction, as it is. *)
Theorem legacy_fifo_evicts_the_oldest_key k v c :
  wf c → 1 ≤ capacity c < SizeT.modulus →
  Z.of_nat (length (m_queue c)) ≤ capacity c →
  ∃ c', put k v c = Some c'
    ∧ if decide (k ∈ m_queue c)
      then m_queue c' = m_queue c ∧ m_map c' = <[k := v]> (m_map c)
      else if decide (Z.of_nat (length (m_queue c)) < capacity c)
      then m_queue c' = m_queue c ++ [k] ∧ m_map c' = <[k := v]> (m_map c)
      else ∃ front queue,
        m_queue c = front :: queue
        ∧ m_queue c' = queue ++ [k]
        ∧ m_map c' = <[k := v]> (delete front (m_map c)).
Proof.
  unfold capacity. intros Hwf Hcap Hsize.
  pose proof (queue_length c Hwf) as Hlen. rewrite Hlen in *.
  destruct (legacy_fifo_put_step k v c Hwf Hcap Hsize)
    as (c' & Hput & _ & _ & _ & _ & Hold & Hnew).
  exists c'. split; [done|]. destruct Hwf as [_ Hiff].
  destruct (decide (k ∈ m_queue c)) as [Hk|Hk].
  - apply Hold. by apply Hiff.
  - apply Hnew. rewrite Hiff in Hk. by apply eq_None_not_Some.
Qed.
End facts.

Local Open Scope Z_scope.

Lemma legacy_fifo_stays_within_capacity_witness :
  ∃ c,
    foldl (λ cache entry, cache ≫= legacy_fifo.put entry.1 entry.2)
      (Some (legacy_fifo.make 2)) [(1, "a"); (2, "b"); (3, "c")] = Some c
    ∧ legacy_fifo.size c ≤ legacy_fifo.capacity c
    ∧ legacy_fifo.get 3 c = Ok "c".
Proof.
  destruct (legacy_fifo_facts.legacy_fifo_stays_within_capacity (K:=Z) 2
              [(1, "a"); (2, "b"); (3, "c")])
    as (c & Hrun & _ & _ & Hsize & _ & Hlast).
  - vm_compute. split; [by intros ?|done].
  - exists c. split; [exact Hrun|]. split; [exact Hsize|].
    by apply (Hlast 3 "c").
Defined.

Lemma legacy_fifo_evicts_the_oldest_key_witness :
  ∃ c', legacy_fifo.put 1 "a" (legacy_fifo.make (K:=Z) 2) = Some c'
        ∧ legacy_fifo.m_queue c' = [1].
Proof.
  destruct (legacy_fifo_facts.legacy_fifo_evicts_the_oldest_key 1 "a"
              (legacy_fifo.make (K:=Z) 2)) as (c' & Hput & Hqueue).
  - split; [constructor|]. intros k. simpl. rewrite lookup_empty.
    split; [by intros ?%not_elem_of_nil|by intros [? ?]].
  - vm_compute. split; [by intros ?|done].
  - vm_compute. by intros ?.
  - exists c'. split; [exact Hput|]. exact (proj1 Hqueue).
Defined.
End legacy_fifo_facts.

(** ** The legacy LRU cache *)

Module legacy_lru_facts.
Import legacy_lru std_list_facts lru_tracking recency_facts.
Section facts.
Context {K V : Type} `{Countable K}.
Implicit Types c : legacy_lru.t K V.
Local Open Scope Z_scope.

Lemma stored_iterator k v it c :
  wf c → m_map c !! k = Some (v, it) → (it, k) ∈ m_list c.
Proof. intros (_ & Hiff & _) Hk. apply Hiff. by exists v. Qed.

Lemma node_stored it k c :
  wf c → (it, k) ∈ m_list c → ∃ v, m_map c !! k = Some (v, it).
Proof. intros (_ & Hiff & _) Hin. by apply Hiff. Qed.

Lemma node_of_stored_key it k v c n :
  wf c → m_map c !! k = Some (v, it) → n ∈ m_list c →
  std_list.node_iterator n = it ↔ std_list.node_key n = k.
Proof.
  intros Hwf Hk Hn. pose proof Hwf as (Hnd & _ & _).
  destruct n as [it' k']. simpl.
  pose proof (stored_iterator k v it c Hwf Hk) as Hin. split.
  - intros ->. by eapply iterator_determines_key.
  - intros ->. destruct (node_stored it' k c Hwf Hn) as [v' Hv']. congruence.
Qed.

Lemma recency_stored k c : wf c → k ∈ recency c ↔ is_Some (m_map c !! k).
Proof.
  intros Hwf. unfold recency, std_list.keys. rewrite list_elem_of_fmap. split.
  - intros ([it k'] & -> & Hin). simpl.
    destruct (node_stored it k' c Hwf Hin) as [v Hv]. by eexists.
  - intros [[v it] Hk]. exists (it, k). split; [done|].
    by eapply stored_iterator.
Qed.

Lemma recency_NoDup c : wf c → NoDup (recency c).
Proof.
  intros Hwf. pose proof Hwf as (Hnd & _).
  apply NoDup_alt. intros i j k Hi Hj. unfold recency, std_list.keys in Hi, Hj.
  apply list_lookup_fmap_Some in Hi as ([it1 k1] & -> & Hi).
  apply list_lookup_fmap_Some in Hj as ([it2 k2] & Hk & Hj).
  simpl in Hk. subst k2.
  assert (it1 = it2) as <-.
  { apply list_elem_of_lookup_2 in Hi, Hj.
    destruct (node_stored _ _ c Hwf Hi) as [v1 Hv1].
    destruct (node_stored _ _ c Hwf Hj) as [v2 Hv2]. simpl in *. congruence. }
  apply (NoDup_lookup _ i j it1 Hnd); unfold std_list.iterators;
    apply list_lookup_fmap_Some; eexists; (split; [|eassumption]); done.
Qed.

Lemma stored_count c : wf c → base.size (m_map c) = length (m_list c).
Proof.
  intros Hwf. rewrite <- size_dom.
  assert (Hdom : dom (m_map c) = list_to_set (recency c)).
  { apply set_eq. intros k. rewrite elem_of_dom, elem_of_list_to_set.
    symmetry. by apply recency_stored. }
  rewrite Hdom, size_list_to_set by by apply recency_NoDup.
  unfold recency, std_list.keys. by rewrite length_fmap.
Qed.

Lemma wf_make n : wf (make (K:=K) (V:=V) n).
Proof.
  split; [constructor|]. split.
  - intros k it. simpl. split.
    + intros [v Hv]. by rewrite lookup_empty in Hv.
    + by intros ?%not_elem_of_nil.
  - intros it k. simpl. by intros ?%not_elem_of_nil.
Qed.

(** [push_entry] after the node of the key, if any, has left the list and
    the map holds the keys of the list that is passed. *)
Lemma wf_push_entry k v l (m : gmap K (V * std_list.iterator)) c :
  NoDup (std_list.iterators l) →
  (∀ j it, j ≠ k → (∃ w, m !! j = Some (w, it)) ↔ (it, j) ∈ l) →
  (∀ it, (it, k) ∉ l) →
  (∀ it j, (it, j) ∈ l → (it < next_node c)%nat) →
  wf (push_entry k v l m c).
Proof.
  intros Hnd Hiff Hk Hlt. split; [|split]; simpl.
  - unfold std_list.push_front, std_list.iterators. simpl. constructor; [|done].
    intros Hin. apply list_elem_of_fmap in Hin as ([it j] & Hit & Hin).
    simpl in Hit. subst it. apply Hlt in Hin. lia.
  - intros j it. unfold std_list.push_front.
    rewrite elem_of_cons, lookup_insert. case_decide as Hj.
    + subst j. split.
      * intros [w [= <- <-]]. by left.
      * intros [[= ->]|Hin]; [by exists v|by apply Hk in Hin].
    + rewrite Hiff by done. split; [by right|]. by intros [[= -> ->]|?].
  - intros it j. unfold std_list.push_front.
    intros [[= -> ->]|Hin]%elem_of_cons; [lia|]. apply Hlt in Hin. lia.
Qed.

Lemma back_snoc (l : std_list.t K) victim :
  std_list.back l = Some victim →
  ∃ l' it, l = l' ++ [(it, victim)] ∧ removelast l = l'.
Proof.
  unfold std_list.back. intros Hback.
  destruct (last l) as [[it k]|] eqn:Hlast; [|done].
  simpl in Hback. injection Hback as ->.
  apply last_Some in Hlast as [l' ->]. exists l', it. split; [done|].
  apply removelast_last.
Qed.

Lemma values_push_entry k v l (m : gmap K (V * std_list.iterator)) c :
  values (push_entry k v l m c) = <[k := v]> (fst <$> m).
Proof. unfold values; simpl. by rewrite fmap_insert. Qed.

Lemma recency_push_entry k v l (m : gmap K (V * std_list.iterator)) c :
  recency (push_entry k v l m c) = k :: std_list.keys l.
Proof. done. Qed.

(** What one [put] does to a well-formed cache of capacity at least one. *)
Lemma legacy_lru_put_step k v c :
  wf c → 1 ≤ m_capacity c < SizeT.modulus →
  Z.of_nat (base.size (m_map c)) ≤ m_capacity c →
  ∃ c', put k v c = Some c'
    ∧ wf c'
    ∧ m_capacity c' = m_capacity c
    ∧ Z.of_nat (base.size (m_map c')) ≤ m_capacity c
    ∧ recency c'
      = k :: (if decide (k ∈ recency c) then filter (λ j, j ≠ k) (recency c)
              else if decide (Z.of_nat (length (recency c)) < m_capacity c)
                   then recency c
                   else removelast (recency c))
    ∧ values c'
      = <[k := v]>
          (if decide (k ∈ recency c) then values c
           else if decide (Z.of_nat (length (recency c)) < m_capacity c)
                then values c
                else match last (recency c) with
                     | Some victim => delete victim (values c)
                     | None => values c
                     end).
Proof.
  intros Hwf Hcap Hsize. pose proof (stored_count c Hwf) as Hcount.
  pose proof Hwf as (Hnd & Hiff & Hlt).
  assert (Hlen : length (recency c) = length (m_list c))
    by (unfold recency, std_list.keys; by rewrite length_fmap).
  unfold put. destruct (m_map c !! k) as [[v0 it]|] eqn:Hk.
  - pose proof (stored_iterator k v0 it c Hwf Hk) as Hin.
    eexists. split; [reflexivity|].
    rewrite !decide_True by (apply recency_stored; [done|by eexists]).
    split; [|split; [done|split; [|split]]].
    + apply wf_push_entry.
      * by apply iterators_erase_NoDup.
      * intros j it' Hj. rewrite Hiff, elem_of_erase. simpl.
        split; [|by intros [? _]]. intros Hin'. split; [done|]. intros ->.
        apply Hj. by eapply iterator_determines_key.
      * intros it' Hin'. apply elem_of_erase in Hin' as [Hin' Hne].
        simpl in Hne. destruct (node_stored it' k c Hwf Hin') as [v' Hv'].
        congruence.
      * intros it' j Hin'. apply elem_of_erase in Hin' as [Hin' _]. by eapply Hlt.
    + simpl. by erewrite map_size_insert_Some.
    + rewrite recency_push_entry. f_equal. apply keys_erase.
      intros n Hn. by eapply node_of_stored_key.
    + by rewrite values_push_entry.
  - assert (Hnew : k ∉ recency c).
    { rewrite recency_stored by done. rewrite Hk. by intros [? ?]. }
    rewrite !(decide_False (P := k ∈ recency c)) by done.
    rewrite SizeT_facts.of_nat_small by size_t_bounds.
    rewrite Hlen, <- Hcount.
    case_bool_decide as Hfull.
    + rewrite !decide_False by lia.
      destruct (std_list.back (m_list c)) as [victim|] eqn:Hback.
      2:{ unfold std_list.back in Hback. apply fmap_None, last_None in Hback.
          rewrite Hback in Hcount. simpl in Hcount. lia. }
      destruct (back_snoc _ _ Hback) as (l' & itv & Hl & Hremove).
      assert (Hvictim : (itv, victim) ∈ m_list c).
      { rewrite Hl. apply elem_of_app. right. by left. }
      destruct (node_stored _ _ c Hwf Hvictim) as [vv Hvv].
      assert (Hl' : ∀ n, n ∈ l' → n ∈ m_list c).
      { intros n Hn. rewrite Hl. apply elem_of_app. by left. }
      assert (Hndl : NoDup (std_list.iterators l' ++ [itv])).
      { unfold std_list.iterators in *. rewrite Hl, fmap_app in Hnd. done. }
      apply NoDup_app in Hndl as (Hndl' & Hfresh & _).
      eexists. split; [reflexivity|]. rewrite Hremove.
      split; [|split; [done|split; [|split]]].
      * apply wf_push_entry.
        -- done.
        -- intros j it' Hj. split.
           ++ intros [w Hw]. apply lookup_delete_Some in Hw as [Hjv Hw].
              assert (Hin' : (it', j) ∈ m_list c) by (apply Hiff; by exists w).
              rewrite Hl in Hin'.
              apply elem_of_app in Hin' as [?|[= -> ->]%list_elem_of_singleton];
                done.
           ++ intros Hin'. destruct (node_stored it' j c Hwf (Hl' _ Hin'))
                as [w Hw].
              exists w. apply lookup_delete_Some. split; [|done]. intros <-.
              assert (it' = itv) as -> by congruence.
              apply (Hfresh itv); [|by left].
              unfold std_list.iterators. apply list_elem_of_fmap.
              by exists (itv, victim).
        -- intros it' Hin'. destruct (node_stored it' k c Hwf (Hl' _ Hin'))
             as [w Hw]. congruence.
        -- intros it' j Hin'. eapply Hlt. by apply Hl'.
      * simpl. assert (Hkv : k ≠ victim) by congruence.
        rewrite map_size_insert_None by by rewrite lookup_delete_ne.
        rewrite map_size_delete_Some by done.
        assert (base.size (m_map c) ≠ 0%nat); [|lia].
        intros Hz. apply map_size_empty_inv in Hz. by rewrite Hz in Hvv.
      * rewrite recency_push_entry. f_equal.
        unfold recency, std_list.keys. rewrite Hl, fmap_app. simpl.
        by rewrite removelast_last.
      * rewrite values_push_entry. f_equal.
        unfold recency, std_list.keys. rewrite Hl, fmap_app. simpl.
        rewrite last_snoc. unfold values. by rewrite fmap_delete.
    + rewrite !decide_True by lia.
      eexists. split; [reflexivity|].
      split; [|split; [done|split; [|split]]].
      * apply wf_push_entry; [done| |..].
        -- intros j it' Hj. apply Hiff.
        -- intros it' Hin'. destruct (node_stored it' k c Hwf Hin') as [w Hw].
           congruence.
        -- done.
      * simpl. rewrite map_size_insert_None by done. lia.
      * done.
      * by rewrite values_push_entry.
Qed.

(** What one [get] does to a well-formed cache. *)
Lemma legacy_lru_get_step k c :
  wf c →
  wf (get k c).2
  ∧ m_capacity (get k c).2 = m_capacity c
  ∧ m_map (get k c).2 = m_map c
  ∧ (get k c).1
    = match values c !! k with
      | Some v => Ok v
      | None => Throw (out_of_range "Key not found")
      end
  ∧ recency (get k c).2
    = (if decide (k ∈ recency c) then k :: filter (λ j, j ≠ k) (recency c)
       else recency c).
Proof.
  intros Hwf. pose proof Hwf as (Hnd & Hiff & Hlt).
  unfold get, values. rewrite lookup_fmap.
  destruct (m_map c !! k) as [[v it]|] eqn:Hk; simpl.
  - pose proof (stored_iterator k v it c Hwf Hk) as Hin.
    rewrite decide_True by (apply recency_stored; [done|by eexists]).
    split; [|split; [done|split; [done|split; [done|]]]].
    + split; [|split]; simpl.
      * by eapply lru_iterators_splice_to_front_NoDup.
      * intros j it'. by rewrite (lru_elem_of_splice_to_front it k).
      * intros it' j. rewrite (lru_elem_of_splice_to_front it k) by done.
        apply Hlt.
    + unfold recency; simpl. unfold std_list.splice_to_front.
      rewrite (lru_lookup_node_elem_of it k) by done.
      unfold std_list.keys at 1. rewrite fmap_cons. simpl. f_equal.
      apply keys_erase. intros n Hn. by eapply node_of_stored_key.
  - rewrite decide_False; [done|].
    rewrite recency_stored by done. rewrite Hk. by intros [? ?].
Qed.

(** X28: a legacy LRU cache constructed with a capacity of at least one never
    calls [back()] or [pop_back()] on its empty list, and holds at most
    [capacity()] entries after every sequence of [put] and [get]. *)
Theorem legacy_lru_stays_within_capacity n (calls : list (call K V)) :
  1 ≤ n < SizeT.modulus →
  ∃ c,
    foldl (λ cache call, cache ≫= perform call) (Some (make n)) calls = Some c
    ∧ wf c
    ∧ capacity c = n
    ∧ size c ≤ capacity c
    ∧ size c = Z.of_nat (length (recency c)).
Proof.
  intros Hn.
  assert (Hinv : ∃ c,
    foldl (λ cache call, cache ≫= perform call) (Some (make n)) calls = Some c
    ∧ wf c ∧ m_capacity c = n ∧ Z.of_nat (base.size (m_map c)) ≤ n).
  { induction calls as [|call calls IH] using rev_ind.
    - exists (make n). split; [done|]. split; [apply wf_make|].
      split; [done|]. simpl. rewrite map_size_empty. lia.
    - destruct IH as (c & Hfold & Hwf & Hcap & Hsize).
      rewrite foldl_app. cbn [foldl]. rewrite Hfold. simpl.
      destruct call as [k v|k]; simpl.
      + destruct (legacy_lru_put_step k v c Hwf ltac:(lia) ltac:(lia))
          as (c' & -> & Hwf' & Hcap' & Hsize' & _).
        exists c'. split; [done|]. split; [done|]. split; [congruence|lia].
      + destruct (legacy_lru_get_step k c Hwf) as (Hwf' & Hcap' & Hmap & _).
        eexists. split; [reflexivity|]. split; [done|].
        split; [congruence|]. by rewrite Hmap. }
  destruct Hinv as (c & Hfold & Hwf & Hcap & Hsize).
  exists c. split; [done|]. split; [done|]. split; [done|].
  unfold size, capacity. rewrite SizeT_facts.of_nat_small by size_t_bounds.
  split; [lia|]. rewrite stored_count by done.
  unfold recency, std_list.keys. by rewrite length_fmap.
Qed.

(** X29: the list of a legacy LRU cache orders the stored keys by recency: [put]
    and a hit of [get] move the key to the front, a [put] of a new key into a
    full cache drops the key at the back, the least recently used one, together
    with its value, and a miss of [get] throws [std::out_of_range] and changes
    nothing. *)
Theorem legacy_lru_evicts_the_least_recently_used k v c :
  wf c → 1 ≤ capacity c < SizeT.modulus →
  Z.of_nat (length (recency c)) ≤ capacity c →
  (∃ c', put k v c = Some c'
     ∧ recency c'
       = k :: (if decide (k ∈ recency c) then filter (λ j, j ≠ k) (recency c)
               else if decide (Z.of_nat (length (recency c)) < capacity c)
                    then recency c
                    else removelast (recency c))
     ∧ values c'
       = <[k := v]>
           (if decide (k ∈ recency c) then values c
            else if decide (Z.of_nat (length (recency c)) < capacity c)
                 then values c
                 else match last (recency c) with
                      | Some victim => delete victim (values c)
                      | None => values c
                      end))
  ∧ (get k c).1
    = match values c !! k with
      | Some value => Ok value
      | None => Throw (out_of_range "Key not found")
      end
  ∧ values (get k c).2 = values c
  ∧ recency (get k c).2
    = (if decide (k ∈ recency c) then k :: filter (λ j, j ≠ k) (recency c)
       else recency c).
Proof.
  unfold capacity. intros Hwf Hcap Hsize.
  assert (Hlen : length (recency c) = base.size (m_map c)).
  { rewrite stored_count by done.
    unfold recency, std_list.keys. by rewrite length_fmap. }
  split.
  - destruct (legacy_lru_put_step k v c Hwf Hcap ltac:(lia))
      as (c' & Hput & _ & _ & _ & Hrecency & Hvalues).
    by exists c'.
  - destruct (legacy_lru_get_step k c Hwf) as (_ & _ & Hmap & Hget & Hrecency).
    split; [done|]. split; [|done]. unfold values. by rewrite Hmap.
Qed.
End facts.

Local Open Scope Z_scope.

Lemma legacy_lru_stays_within_capacity_witness :
  ∃ c,
    foldl (λ cache call, cache ≫= legacy_lru.perform call)
      (Some (legacy_lru.make 2))
      [legacy_lru.PutEntry 1 "a"; legacy_lru.PutEntry 2 "b";
       legacy_lru.GetEntry 1; legacy_lru.PutEntry 3 "c"] = Some c
    ∧ legacy_lru.size c ≤ legacy_lru.capacity c.
Proof.
  destruct (legacy_lru_facts.legacy_lru_stays_within_capacity (K:=Z) 2
      [legacy_lru.PutEntry 1 "a"; legacy_lru.PutEntry 2 "b";
       legacy_lru.GetEntry 1; legacy_lru.PutEntry 3 "c"])
    as (c & Hrun & _ & _ & Hsize & _).
  - vm_compute. split; [by intros ?|done].
  - exists c. split; [exact Hrun|exact Hsize].
Defined.

Lemma legacy_lru_evicts_the_least_recently_used_witness :
  ∃ c', legacy_lru.put 1 "a" (legacy_lru.make (K:=Z) 2) = Some c'
        ∧ legacy_lru.recency c' = [1].
Proof.
  destruct (legacy_lru_facts.legacy_lru_evicts_the_least_recently_used 1 "a"
              (legacy_lru.make (K:=Z) 2)) as ((c' & Hput & Hrecency & _) & _).
  - apply legacy_lru_facts.wf_make.
  - vm_compute. split; [by intros ?|done].
  - vm_compute. by intros ?.
  - exists c'. split; [exact Hput|exact Hrecency].
Defined.
End legacy_lru_facts.
